(** * Contour Scanner and Trimmer: a shallow embedding

    Model of [extensions/fablabchemnitz/contour_scanner_and_trimmer/
    contour_scanner_and_trimmer.py].  Python floats are read as rationals
    ([Q], compared with [Qeq_bool]); the lxml document is an explicit value
    threaded through a small state-and-exception monad; calls into inkex,
    shapely and poly_point_isect are the fields of the class [Host].

    The document is kept as three stores of objects, path elements, groups
    that hold paths and marker groups, each object with a reference to its
    parent.  The order of the children of a parent is not kept: a search by
    id goes through the stores in their order.  The methods that recurse
    over the children of an element are stated on trees in [Tree]. *)

From Stdlib Require Import List String Ascii Bool Arith ZArith QArith Lia.
From Stdlib Require Import DecimalString Qabs.
Import ListNotations.
Local Open Scope list_scope.

(** ** Python string operations used on element ids *)

Module PyStr.

(** [s.startswith(p)] *)
Fixpoint startswith (p s : string) : bool :=
  match p, s with
  | EmptyString, _ => true
  | String a p', String b s' => Ascii.eqb a b && startswith p' s'
  | String _ _, EmptyString => false
  end.

(** [sub in s] *)
Fixpoint contains (sub s : string) : bool :=
  startswith sub s
  || match s with
     | EmptyString => false
     | String _ s' => contains sub s'
     end.

(** [s.split(sep)] for a non-empty separator; [skip] counts the characters
    of a separator occurrence that are still to be passed over. *)
Fixpoint split_go (sep s : string) (skip : nat) (cur : string) : list string :=
  match s with
  | EmptyString => [cur]
  | String c s' =>
      match skip with
      | S k => split_go sep s' k cur
      | O =>
          if startswith sep s
          then cur :: split_go sep s' (String.length sep - 1) EmptyString
          else split_go sep s' 0 (cur ++ String c EmptyString)%string
      end
  end.

Definition split (sep s : string) : list string := split_go sep s 0 EmptyString.

(** [str(b)] for a Python bool *)
Definition str_bool (b : bool) : string := if b then "True"%string else "False"%string.

End PyStr.

(** ** Geometry primitives and path data *)

Definition point : Type := Q * Q.

(** One entry of [Path.to_arrays()]: [[letter, [args...]]]. *)
Record command := Cmd { letter : ascii; args : list Q }.

Definition path : Type := list command.

(** Python [==] on two lists of floats. *)
Fixpoint args_eqb (a b : list Q) : bool :=
  match a, b with
  | [], [] => true
  | x :: a', y :: b' => Qeq_bool x y && args_eqb a' b'
  | _, _ => false
  end.

Definition command_eqb (c d : command) : bool :=
  Ascii.eqb (letter c) (letter d) && args_eqb (args c) (args d).

(** [Path.__eq__]: list equality, command by command. *)
Fixpoint path_eqb (p q : path) : bool :=
  match p, q with
  | [], [] => true
  | c :: p', d :: q' => command_eqb c d && path_eqb p' q'
  | _, _ => false
  end.

(** [p in totalTrimPaths] *)
Definition path_in (p : path) (l : list path) : bool := existsb (path_eqb p) l.

Definition M_ (x y : Q) : command := Cmd "M" [x; y].
Definition L_ (x y : Q) : command := Cmd "L" [x; y].

(** [[a[-2], a[-1]]] *)
Fixpoint last2 (a : list Q) : option (Q * Q) :=
  match a with
  | [] => None
  | [_] => None
  | [x; y] => Some (x, y)
  | _ :: a' => last2 a'
  end.

(** inkex [Transform]: the six entries of an affine matrix. *)
Definition transform : Type := Q * Q * Q * Q * Q * Q.

(** ** Styles, elements, document *)

(** The style dictionaries [effect] builds from the colour options are
    kept by name; [OwnStyle s] is a style attribute read from the input,
    [Adjusted] the result of [adjust_style]. *)
Inductive style :=
| OwnStyle (s : string)
| Adjusted (s : style)
| relativePathStyle | absolutePathStyle | mixedPathStyle
| polylinePathStyle | bezierPathStyle | openPathStyle | closedPathStyle
| selfIntersectingPathStyle | basicSubSplitLineStyle
| trimLineStyle | nonTrimLineStyle | trimNonIntersectedStyle
| selfIntersectionPointStyle | globalIntersectionPointStyle.

(** An [svg:path] element: id, path data, style and the remaining
    attributes ([element.attrib]). *)
Record element := mkElement {
  el_id : string;
  el_path : path;
  el_style : style;
  el_attrib : list (string * string)
}.

(** [element.getparent()]: the svg root, a group, or [None]. *)
Inductive parent_ref := Root | InGroup (gid : string) | Detached.

Record pathElement := mkPathElement {
  pe_parent : parent_ref;
  pe_elem : element
}.

Record group := mkGroup {
  g_id : string;
  g_parent : parent_ref;
  g_attrib : list (string * string);
  g_children : list element
}.

Record circle := mkCircle {
  c_id : string;
  c_cx : Q;
  c_cy : Q;
  c_r : Q;
  c_transform : option transform;
  c_style : style
}.

(** A group of intersection markers. *)
Record markerGroup := mkMarkers {
  m_id : string;
  m_parent : parent_ref;
  m_circles : list circle
}.

(** The SVG tree below the root: its path elements, the groups holding
    paths, and the marker groups.  A path element of the input is in
    [d_paths], also when it lies in a group, which its parent tells; the
    children of a group are the lines the extension puts there, sub split
    lines and trim lines.  A new object is put at the end of its store. *)
Record document := mkDoc {
  d_paths : list pathElement;
  d_groups : list group;
  d_markers : list markerGroup
}.

(** [self.msg(template.format(args))] *)
Inductive fmt_arg :=
| FStr (s : string) | FInt (n : Z) | FBool (b : bool) | FQ (q : Q) | FPath (p : path).

Inductive message := Msg (template : string) (args : list fmt_arg).

Definition attr (k : string) (a : list (string * string)) : option string :=
  match find (fun kv => String.eqb (fst kv) k) a with
  | Some kv => Some (snd kv)
  | None => None
  end.

(** [attrib[k] = v] *)
Fixpoint set_attr (k v : string) (a : list (string * string)) : list (string * string) :=
  match a with
  | [] => [(k, v)]
  | (k', v') :: a' =>
      if String.eqb k' k then (k, v) :: a' else (k', v') :: set_attr k v a'
  end.

Definition idPrefix : string := "subsplit".
Definition intersectedVerb : string := "-intersected-".

(** ** Options ([add_arguments]) *)

Inductive path_types := open_paths | closed_paths | both | other_types.

Record options := mkOptions {
  show_debug : bool;
  break_apart : bool;
  handle_groups : bool;
  trimming_path_types : path_types;
  flattenbezier : bool;
  flatness : Q;
  decimals : Z;
  snap_tolerance : Q;
  remove_relative : bool;
  remove_absolute : bool;
  remove_mixed : bool;
  remove_polylines : bool;
  remove_beziers : bool;
  remove_opened : bool;
  remove_closed : bool;
  remove_self_intersecting : bool;
  highlight_relative : bool;
  highlight_absolute : bool;
  highlight_mixed : bool;
  highlight_polylines : bool;
  highlight_beziers : bool;
  highlight_opened : bool;
  highlight_closed : bool;
  highlight_self_intersecting : bool;
  draw_subsplit : bool;
  visualize_self_intersections_opt : bool;
  visualize_global_intersections_opt : bool;
  draw_trimmed : bool;
  combine_nonintersects_opt : bool;
  remove_duplicates_opt : bool;
  reverse_removal_order : bool;
  keep_original_after_trim : bool;
  strokewidth : Q;
  dotsize_intersections : Z;
  removefillsetstroke : bool;
  bezier_trimming : bool;
  apply_style_to_subsplits : bool;
  apply_style_to_trimmed : bool
}.

(** The defaults declared in [add_arguments]. *)
Definition default_options : options :=
  {| show_debug := false; break_apart := false; handle_groups := false;
     trimming_path_types := closed_paths;
     flattenbezier := true; flatness := 1 # 10; decimals := 3;
     snap_tolerance := 1 # 10;
     remove_relative := false; remove_absolute := false; remove_mixed := false;
     remove_polylines := false; remove_beziers := false; remove_opened := false;
     remove_closed := false; remove_self_intersecting := false;
     highlight_relative := false; highlight_absolute := false;
     highlight_mixed := false; highlight_polylines := false;
     highlight_beziers := false; highlight_opened := false;
     highlight_closed := false; highlight_self_intersecting := false;
     draw_subsplit := false;
     visualize_self_intersections_opt := false;
     visualize_global_intersections_opt := false;
     draw_trimmed := false; combine_nonintersects_opt := true;
     remove_duplicates_opt := true; reverse_removal_order := false;
     keep_original_after_trim := false;
     strokewidth := 1; dotsize_intersections := 30;
     removefillsetstroke := false; bezier_trimming := false;
     apply_style_to_subsplits := true; apply_style_to_trimmed := true |}.

(** ** Exceptions, the mutable world and its monad *)

Inductive exn :=
| AssertionError | IndexError | AttributeError | ZeroDivisionError | SystemExit
| OtherError (name : string).

Inductive result (A : Type) :=
| Ok (a : A)
| Raise (e : exn).
Arguments Ok {A} a.
Arguments Raise {A} e.

(** What a run of the extension can change: the element objects (a deleted
    element stays an object, with parent [Detached]), the messages shown to
    the user, and the counter behind [get_unique_id]. *)
Record world := mkWorld {
  w_doc : document;
  w_msgs : list message;
  w_next_id : nat
}.

Definition M (A : Type) : Type := world -> result A * world.

Definition ret {A} (a : A) : M A := fun w => (Ok a, w).

Definition bind {A B} (c : M A) (k : A -> M B) : M B :=
  fun w =>
    match c w with
    | (Ok a, w') => k a w'
    | (Raise e, w') => (Raise e, w')
    end.

Definition raise {A} (e : exn) : M A := fun w => (Raise e, w).

(** [try: body  except AssertionError: handler] *)
Definition try_except_AssertionError {A} (body handler : M A) : M A :=
  fun w =>
    match body w with
    | (Raise AssertionError, w') => handler w'
    | r => r
    end.

Declare Scope py_scope.
Delimit Scope py_scope with py.
Notation "x <- c1 ;; c2" := (bind c1 (fun x => c2))
  (at level 61, c1 at next level, right associativity) : py_scope.
Notation "c1 ;; c2" := (bind c1 (fun _ => c2))
  (at level 61, right associativity) : py_scope.
Local Open Scope py_scope.

Definition lift_result {A} (r : result A) : M A := fun w => (r, w).

(** Index into a Python list: [IndexError] when out of range. *)
Definition index {A} (l : list A) (i : nat) : M A :=
  match nth_error l i with
  | Some a => ret a
  | None => raise IndexError
  end.

Definition msg (m : message) : M unit :=
  fun w => (Ok tt, mkWorld (w_doc w) (w_msgs w ++ [m]) (w_next_id w)).

Definition debug (so : options) (m : message) : M unit :=
  if show_debug so then msg m else ret tt.

Definition get_doc : M document := fun w => (Ok (w_doc w), w).

Definition modify_doc (f : document -> document) : M unit :=
  fun w => (Ok tt, mkWorld (f (w_doc w)) (w_msgs w) (w_next_id w)).

Definition when (b : bool) (c : M unit) : M unit := if b then c else ret tt.

(** [for x in l: body x] *)
Fixpoint for_each {A} (l : list A) (body : A -> M unit) : M unit :=
  match l with
  | [] => ret tt
  | x :: l' => body x ;; for_each l' body
  end.

(** A loop that carries local variables [S] from one iteration to the next. *)
Fixpoint for_fold {A S} (l : list A) (body : A -> S -> M S) (s : S) : M S :=
  match l with
  | [] => ret s
  | x :: l' => s' <- body x s ;; for_fold l' body s'
  end.

(** ** The libraries the extension calls *)

Definition segment : Type := point * point.
Definition cspnode : Type := point * point * point.
Definition csp : Type := list (list cspnode).

Class Host := {
  (** [poly_point_isect.isect_segments(segments, validate=...)] *)
  isect_segments : list segment -> bool -> result (list point);
  (** [inkex.paths.CubicSuperPath(...)], [.to_segments()] *)
  CubicSuperPath : path -> csp;
  to_segments : csp -> path;
  (** [inkex.bezier.cspsubdiv(csp, flat)], returning the subdivided path *)
  cspsubdiv : csp -> Q -> csp;
  (** [inkex.bezier.csplength(CubicSuperPath(d))], the total length *)
  csplength : path -> Q;
  (** [Path.to_arrays()] *)
  to_arrays : path -> path;
  (** [Path.transform(t)], [element.composed_transform()] by element id,
      [-t] *)
  path_transform : path -> transform -> path;
  composed_transform : string -> transform;
  neg_transform : transform -> transform;
  (** [round(x, decimals)] *)
  pyround : Q -> Z -> Q;
  (** [self.svg.unittouu(str(x) + "px")] *)
  unittouu_px : Q -> Q;
  (** the part [self.svg.get_unique_id(prefix)] appends to [prefix] *)
  unique_suffix : nat -> string;
  (** [shapely.ops.snap], [shapely.ops.split] on a LineString and a
      MultiPoint *)
  snap : list point -> list point -> Q -> list point;
  split : list point -> list point -> list (list point)
}.

Definition get_unique_id `{Host} (prefix : string) : M string :=
  fun w =>
    (Ok (prefix ++ unique_suffix (w_next_id w))%string,
     mkWorld (w_doc w) (w_msgs w) (S (w_next_id w))).

(** ** Element objects

    Elements are referred to by their position in [d_paths] or [d_groups]
    (Python object identity). *)

Fixpoint update_nth {A} (n : nat) (f : A -> A) (l : list A) : list A :=
  match l, n with
  | [], _ => []
  | x :: l', O => f x :: l'
  | x :: l', S n' => x :: update_nth n' f l'
  end.

Definition update_path (k : nat) (f : pathElement -> pathElement) (d : document) : document :=
  mkDoc (update_nth k f (d_paths d)) (d_groups d) (d_markers d).

Definition update_group (g : nat) (f : group -> group) (d : document) : document :=
  mkDoc (d_paths d) (update_nth g f (d_groups d)) (d_markers d).

Definition detach_path (pe : pathElement) : pathElement :=
  mkPathElement Detached (pe_elem pe).

Definition detach_group (g : group) : group :=
  mkGroup (g_id g) Detached (g_attrib g) (g_children g).

Definition set_children (cs : list element) (g : group) : group :=
  mkGroup (g_id g) (g_parent g) (g_attrib g) cs.

Definition set_style (s : style) (e : element) : element :=
  mkElement (el_id e) (el_path e) s (el_attrib e).

Definition set_path_style (s : style) (pe : pathElement) : pathElement :=
  mkPathElement (pe_parent pe) (set_style s (pe_elem pe)).

Definition is_detached (p : parent_ref) : bool :=
  match p with Detached => true | _ => false end.

(** [pathElement.delete()] *)
Definition delete_path (k : nat) : M unit := modify_doc (update_path k detach_path).

(** [group.delete()] *)
Definition delete_group (g : nat) : M unit := modify_doc (update_group g detach_group).

(** [parent.add(inkex.Group(id=gid))]; the new group's reference. *)
Definition add_group (parent : parent_ref) (gid : string) : M nat :=
  fun w =>
    let d := w_doc w in
    (Ok (List.length (d_groups d)),
     mkWorld (mkDoc (d_paths d) (d_groups d ++ [mkGroup gid parent [] []]) (d_markers d))
             (w_msgs w) (w_next_id w)).

(** [group.add(child)] *)
Definition add_child (g : nat) (e : element) : M unit :=
  modify_doc (update_group g (fun grp => set_children (g_children grp ++ [e]) grp)).

Definition add_markers (m : markerGroup) : M unit :=
  modify_doc (fun d => mkDoc (d_paths d) (d_groups d) (d_markers d ++ [m])).

(** [find_group(groupId)]: the first group of the document whose id is
    [groupId], among the groups that hold paths ([d_groups], in their
    order); a group that was deleted is not in the document.  The extension
    calls it with the id of a trim group only (line 259), which starts with
    ['shapely-'].  Marker groups are [svg:g] elements as well, but those
    the extension adds are named [selfIntersectionPoints-...] and
    [globalIntersectionPoints], so that none of them is found under such an
    id; they are kept apart in [d_markers] and not looked through. *)
Fixpoint find_group_from (pos : nat) (gs : list group) (groupId : string) : option nat :=
  match gs with
  | [] => None
  | g :: gs' =>
      if negb (is_detached (g_parent g)) && String.eqb (g_id g) groupId
      then Some pos
      else find_group_from (S pos) gs' groupId
  end.

Definition find_group (d : document) (groupId : string) : option nat :=
  find_group_from 0 (d_groups d) groupId.

(** [self.svg.getElementById(eid)], as far as the caller uses it: the parent
    of the element found.  The elements of the document are looked through
    kind by kind: path elements, groups, the paths inside groups, marker
    groups and their circles; an object that was deleted is not in the
    document.  The svg root itself, whose id the model does not keep, is
    not looked up. *)
Definition getElementById (d : document) (eid : string) : option parent_ref :=
  match find (fun pe => negb (is_detached (pe_parent pe))
                        && String.eqb (el_id (pe_elem pe)) eid) (d_paths d) with
  | Some pe => Some (pe_parent pe)
  | None =>
      match find (fun g => negb (is_detached (g_parent g))
                           && String.eqb (g_id g) eid) (d_groups d) with
      | Some g => Some (g_parent g)
      | None =>
          match find (fun g => negb (is_detached (g_parent g))
                               && existsb (fun e => String.eqb (el_id e) eid) (g_children g))
                     (d_groups d) with
          | Some g => Some (InGroup (g_id g))
          | None =>
              match find (fun m => negb (is_detached (m_parent m))
                                   && String.eqb (m_id m) eid) (d_markers d) with
              | Some m => Some (m_parent m)
              | None =>
                  match find (fun m => negb (is_detached (m_parent m))
                                       && existsb (fun c => String.eqb (c_id c) eid)
                                                  (m_circles m))
                             (d_markers d) with
                  | Some m => Some (InGroup (m_id m))
                  | None => None
                  end
              end
          end
      end
  end.

(** ** Methods of [ContourScannerAndTrimmer] *)

(** [str(n)] for a non-negative int *)
Definition str_nat (n : nat) : string := NilEmpty.string_of_uint (Nat.to_uint n).

(** [attrib[k]] *)
Definition attrib_get (k : string) (e : element) : M string :=
  match attr k (el_attrib e) with
  | Some v => ret v
  | None => raise (OtherError "KeyError")
  end.

(** [args[-2], args[-1]] *)
Definition index_last2 (a : list Q) : M (Q * Q) :=
  match last2 a with
  | Some xy => ret xy
  | None => raise IndexError
  end.

(** [csp[0][1][0], csp[0][1][1]] for an entry [csp[0]] of [to_arrays()] *)
Definition first2 (a : list Q) : M (Q * Q) :=
  match a with
  | x :: y :: _ => ret (x, y)
  | _ => raise IndexError
  end.

Section Methods.
Context `{Host}.

(** [line_from_segments(segs, i, decimals)] *)
Definition line_from_segments (segs : path) (i : nat) (decimals : Z) : M (Q * Q * Q * Q) :=
  let pseudoPath := to_arrays (firstn 2 (skipn i segs)) in
  c0 <- index pseudoPath 0 ;;
  p1 <- index_last2 (args c0) ;;
  let x1 := pyround (fst p1) decimals in
  let y1 := pyround (snd p1) decimals in
  c1 <- index pseudoPath 1 ;;
  if Ascii.eqb (letter c1) "Z" then
    let pseudoPathEnd := to_arrays (firstn 2 segs) in
    e0 <- index pseudoPathEnd 0 ;;
    p2 <- index_last2 (args e0) ;;
    ret (x1, y1, pyround (fst p2) decimals, pyround (snd p2) decimals)
  else
    p2 <- index_last2 (args c1) ;;
    ret (x1, y1, pyround (fst p2) decimals, pyround (snd p2) decimals).

(** The path element object at position [k]. *)
Definition path_object (k : nat) : M pathElement :=
  d <- get_doc ;; index (d_paths d) k.

Definition group_object (g : nat) : M group :=
  d <- get_doc ;; index (d_groups d) g.

(** Radius of an intersection marker. *)
Definition marker_radius (so : options) : Q :=
  unittouu_px (inject_Z (dotsize_intersections so) / 2).

(** [visualize_self_intersections(pathElement, selfIntersectionPoints)] *)
Definition visualize_self_intersections (so : options) (k : nat)
    (selfIntersectionPoints : list point) : M unit :=
  pe <- path_object k ;;
  match pe_parent pe with
  | Detached => raise AttributeError
  | parent =>
      circles <- for_fold selfIntersectionPoints
        (fun pt acc =>
           cid <- get_unique_id "selfIntersectionPoint-" ;;
           let t := match parent with
                    | InGroup gid => Some (neg_transform (composed_transform gid))
                    | _ => None
                    end in
           ret (acc ++ [mkCircle cid (fst pt) (snd pt) (marker_radius so) t
                                 selfIntersectionPointStyle]))
        [] ;;
      add_markers (mkMarkers ("selfIntersectionPoints-" ++ el_id (pe_elem pe))%string
                             parent circles)
  end.

(** [visualize_global_intersections(globalIntersectionPoints)] *)
Definition visualize_global_intersections (so : options)
    (globalIntersectionPoints : list point) : M unit :=
  if (0 <? List.length globalIntersectionPoints)%nat then
    circles <- for_fold globalIntersectionPoints
      (fun pt acc =>
         cid <- get_unique_id "globalIntersectionPoint-" ;;
         ret (acc ++ [mkCircle cid (fst pt) (snd pt) (marker_radius so) None
                               globalIntersectionPointStyle]))
      [] ;;
    add_markers (mkMarkers "globalIntersectionPoints" Root circles)
  else ret tt.

(** *** [build_trim_line_group] *)

(** [prevLine.attrib['id'] = newId; prevLine.attrib['intersected'] = 'True'] *)
Definition mark_intersected (newId : string) (e : element) : element :=
  mkElement newId (el_path e) (el_style e) (set_attr "intersected" "True" (el_attrib e)).

(** Apply [f] to the last element of a list ([prevLine]). *)
Fixpoint update_last {A} (f : A -> A) (l : list A) : list A :=
  match l with
  | [] => []
  | [x] => [f x]
  | x :: l' => x :: update_last f l'
  end.

(** One turn of the loop over [trimLines].  [splitAt] is the list of that
    name; [added] holds the trim lines created so far in this call, the
    last of them being [prevLine]. *)
Definition trim_line_step (so : options) (subSplitLine : element)
    (trimGroupId : string) (subSplitIndex : nat) (T : transform)
    (piece : list point) (st : list string * list element)
  : M (list string * list element) :=
  let trimLineId := (trimGroupId ++ "-" ++ str_nat subSplitIndex)%string in
  let splitAt := fst st ++ [trimGroupId] in
  named <-
    (if (1 <? count_occ string_dec splitAt trimGroupId)%nat then
       u <- get_unique_id intersectedVerb ;;
       u' <- get_unique_id intersectedVerb ;;
       ret ((trimLineId ++ u)%string,
            update_last
              (mark_intersected (trimGroupId ++ "-" ++ str_nat subSplitIndex ++ u')%string)
              (snd st))
     else ret (trimLineId, snd st)) ;;
  p0 <- index piece 0 ;;
  p1 <- index piece 1 ;;
  let d := path_transform [M_ (fst p0) (snd p0); L_ (fst p1) (snd p1)] (neg_transform T) in
  sty <- (if apply_style_to_trimmed so
          then s <- attrib_get "originalPathStyle" subSplitLine ;; ret (OwnStyle s)
          else ret trimLineStyle) ;;
  ret (splitAt, snd named ++ [mkElement (fst named) d sty []]).

(** The loop over [trimLines]; the trim lines it creates, in order. *)
Definition trim_lines (so : options) (subSplitLine : element)
    (trimGroupId : string) (subSplitIndex : nat) (T : transform)
    (trimLines : list (list point)) : M (list element) :=
  st <- for_fold trimLines
          (trim_line_step so subSplitLine trimGroupId subSplitIndex T) ([], []) ;;
  ret (snd st).

Definition set_group_attr (k v : string) (g : group) : group :=
  mkGroup (g_id g) (g_parent g) (set_attr k v (g_attrib g)) (g_children g).

(** [build_trim_line_group(subSplitLineArray, subSplitIndex,
    globalIntersectionPoints)]; [None] when the call is skipped.  The trim
    lines are attached to the group once the loop over them is done. *)
Definition build_trim_line_group (so : options) (subSplitLineArray : list element)
    (subSplitIndex : nat) (globalIntersectionPoints : list point) : M (option nat) :=
  subSplitLine <- index subSplitLineArray subSplitIndex ;;
  isClosed <- attrib_get "originalPathIsClosed" subSplitLine ;;
  let skip :=
    match trimming_path_types so with
    | open_paths => String.eqb isClosed "True"
    | closed_paths => String.eqb isClosed "False"
    | _ => false
    end in
  if skip then ret None else
  let csp := to_arrays (el_path subSplitLine) in
  c0 <- index csp 0 ;; a <- first2 (args c0) ;;
  c1 <- index csp 1 ;; b <- first2 (args c1) ;;
  let ls := [a; b] in
  let linesWithSnappedIntersectionPoints :=
    snap ls globalIntersectionPoints (snap_tolerance so) in
  let trimGroupId :=
    ("shapely-" ++ hd EmptyString (PyStr.split "_" (el_id subSplitLine)))%string in
  afterPrefix <- index (PyStr.split (idPrefix ++ "-") (el_id subSplitLine)) 1 ;;
  let trimGroupParentId := hd EmptyString (PyStr.split "_" afterPrefix) in
  d <- get_doc ;;
  match getElementById d trimGroupParentId with
  | None => raise AttributeError
  | Some grandparent =>
      let trimGroupParentTransform := composed_transform trimGroupParentId in
      trimGroup <- match find_group d trimGroupId with
                   | Some g => ret g
                   | None => add_group grandparent trimGroupId
                   end ;;
      isBezier <- attrib_get "originalPathIsBezier" subSplitLine ;;
      modify_doc (update_group trimGroup (set_group_attr "originalPathIsBezier" isBezier)) ;;
      originalPathId <- attrib_get "originalPathId" subSplitLine ;;
      modify_doc (update_group trimGroup (set_group_attr "originalPathId" originalPathId)) ;;
      let trimLines := split linesWithSnappedIntersectionPoints globalIntersectionPoints in
      added <- trim_lines so subSplitLine trimGroupId subSplitIndex
                          trimGroupParentTransform trimLines ;;
      for_each added (add_child trimGroup) ;;
      ret (Some trimGroup)
  end.

(** *** [remove_duplicates] *)

(** The loop over the children of one trim group: the children kept, the
    list [totalTrimPaths] afterwards, and the debug messages. *)
Section Deduplicator.
Variable so : options.

Fixpoint dedup_children (totalTrimPaths : list path) (cs : list element)
  : list element * list path * list message :=
  match cs with
  | [] => ([], totalTrimPaths, [])
  | element :: cs' =>
      if negb (path_in (el_path element) totalTrimPaths) then
        let '(kept, seen, ms) :=
          dedup_children (totalTrimPaths ++ [el_path element]) cs' in
        (element :: kept, seen, ms)
      else
        let '(kept, seen, ms) := dedup_children totalTrimPaths cs' in
        (kept, seen,
         (if show_debug so then [Msg "Deleting {}" [FStr (el_id element)]] else []) ++ ms)
  end.

(** The group after the loop over its children: the children that were not
    deleted, and [trimGroup.delete()] when none is left. *)
Definition keep_children (g : nat) (kept : list element) (d : document) : document :=
  let d1 := update_group g (set_children kept) d in
  if (List.length kept =? 0)%nat then update_group g detach_group d1 else d1.

(** The loop over [allTrimGroups] (references into [d_groups]). *)
Fixpoint dedup_groups (totalTrimPaths : list path) (gs : list nat)
    (d : document) : document * list message :=
  match gs with
  | [] => (d, [])
  | g :: gs' =>
      match nth_error (d_groups d) g with
      | None => dedup_groups totalTrimPaths gs' d
      | Some trimGroup =>
          let '(kept, seen, ms) := dedup_children totalTrimPaths (g_children trimGroup) in
          let d2 := keep_children g kept d in
          let ms2 := if (List.length kept =? 0)%nat && show_debug so
                     then [Msg "Deleting {}" [FStr (g_id trimGroup)]] else [] in
          let '(d3, ms3) := dedup_groups seen gs' d2 in
          (d3, ms ++ ms2 ++ ms3)
      end
  end.

End Deduplicator.

(** [remove_duplicates(allTrimGroups)] on the document. *)
Definition remove_duplicates_doc (so : options) (allTrimGroups : list nat) (d : document)
  : document * list message :=
  dedup_groups so []
    (if reverse_removal_order so then rev allTrimGroups else allTrimGroups) d.

Definition remove_duplicates (so : options) (allTrimGroups : list nat) : M unit :=
  fun w =>
    let '(d, ms) := remove_duplicates_doc so allTrimGroups (w_doc w) in
    (Ok tt, mkWorld d (w_msgs w ++ ms) (w_next_id w)).

End Methods.

Section MoreMethods.
Context `{Host}.

(** *** [combine_nonintersects] *)

(** The loop over the children of one trim group.  [combinedPath] tells
    whether the variable of that name is set; the children that stay (the
    others were deleted), [combinedPathData] and [totalIntersectionsAtPath]
    are returned. *)
Fixpoint combine_scan (cs : list element) (combinedPath : bool)
    (combinedPathData : path) (totalIntersectionsAtPath : nat)
  : list element * path * nat :=
  match cs with
  | [] => ([], combinedPathData, totalIntersectionsAtPath)
  | pElement :: cs' =>
      if negb (PyStr.contains intersectedVerb (el_id pElement)) then
        if combinedPath then
          combine_scan cs' true (combinedPathData ++ el_path pElement)
                       totalIntersectionsAtPath
        else
          let '(kept, data, n) :=
            combine_scan cs' true (el_path pElement) totalIntersectionsAtPath in
          (pElement :: kept, data, n)
      else
        let '(kept, data, n) :=
          combine_scan cs' combinedPath combinedPathData (S totalIntersectionsAtPath) in
        (pElement :: kept, data, n)
  end.

(** [for z in range(1, len(segData)): if segData[z][1] != segData[z-1][1]:
    newPathData.append(segData[z])], with [prev] being [segData[z-1]]. *)
Fixpoint collapse_from (prev : command) (rest : path) : path :=
  match rest with
  | [] => []
  | c :: rest' =>
      if negb (args_eqb (args c) (args prev))
      then c :: collapse_from c rest'
      else collapse_from c rest'
  end.

(** [newPathData] for a non-empty [segData]. *)
Definition collapse (segData : path) : path :=
  match segData with
  | [] => []
  | c0 :: rest => c0 :: collapse_from c0 rest
  end.

(** Apply [f] to [combinedPath], the one child left without the verb. *)
Fixpoint update_combined (f : element -> element) (cs : list element) : list element :=
  match cs with
  | [] => []
  | e :: cs' =>
      if negb (PyStr.contains intersectedVerb (el_id e))
      then f e :: cs'
      else e :: update_combined f cs'
  end.

Definition combine_group (so : options) (g : nat) : M unit :=
  trimGroup <- group_object g ;;
  debug so (Msg "trim group {} has {} paths"
                [FStr (g_id trimGroup); FInt (Z.of_nat (List.length (g_children trimGroup)))]) ;;
  let '(kept, combinedPathData, totalIntersectionsAtPath) :=
    combine_scan (g_children trimGroup) false [] 0 in
  modify_doc (update_group g (set_children kept)) ;;
  if (0 <? List.length combinedPathData)%nat then
    let segData := to_arrays combinedPathData in
    _ <- index segData 0 ;;
    let newPathData := collapse segData in
    debug so (Msg "trim group {} has {} combinable segments:"
                  [FStr (g_id trimGroup); FInt (Z.of_nat (List.length newPathData))]) ;;
    debug so (Msg "{}" [FPath newPathData]) ;;
    let restyle (s : style) : style :=
      if apply_style_to_trimmed so then s
      else if (totalIntersectionsAtPath =? 0)%nat then nonTrimLineStyle
           else trimNonIntersectedStyle in
    modify_doc (update_group g (fun grp =>
      set_children
        (update_combined
           (fun e => mkElement (el_id e) newPathData (restyle (el_style e)) (el_attrib e))
           (g_children grp)) grp))
  else
    debug so (Msg "trim group {} has no combinable segments (contains only intersected trim lines)"
                  [FStr (g_id trimGroup)]).

(** [combine_nonintersects(allTrimGroups)] *)
Definition combine_nonintersects (so : options) (allTrimGroups : list nat) : M unit :=
  for_each allTrimGroups (combine_group so).

(** *** [trim_bezier] *)

Definition has_key (k : string) (a : list (string * string)) : bool :=
  match attr k a with Some _ => true | None => false end.

Definition group_attrib_get (k : string) (g : group) : M string :=
  match attr k (g_attrib g) with
  | Some v => ret v
  | None => raise (OtherError "KeyError")
  end.

Definition trim_bezier_group (so : options) (g : nat) : M unit :=
  trimGroup <- group_object g ;;
  if match attr "originalPathIsBezier" (g_attrib trimGroup) with
     | Some v => String.eqb v "True"
     | None => false
     end
  then
    let n := List.length (g_children trimGroup) in
    debug so (Msg "{}: count of trim lines = {}"
                  [FStr (g_id trimGroup); FInt (Z.of_nat n)]) ;;
    let totalLength :=
      fold_left (fun acc trimLine => acc + csplength (el_path trimLine))
                (g_children trimGroup) 0 in
    debug so (Msg "total length = {}" [FQ totalLength]) ;;
    st <- for_fold (combine (seq 0 n) (g_children trimGroup))
      (fun jt st =>
         let chainLength := fst st + csplength (el_path (snd jt)) in
         if has_key "intersected" (el_attrib (snd jt)) || (S (fst jt) =? n)%nat then
           if Qeq_bool totalLength 0 then raise ZeroDivisionError else
           let globalTParameter := chainLength / totalLength in
           debug so (Msg "chain piece length = {}" [FQ chainLength]) ;;
           debug so (Msg "t parameter = {}" [FQ globalTParameter]) ;;
           ret (0, snd st ++ [globalTParameter])
         else ret (chainLength, snd st))
      (0, []) ;;
    let globalTParameters := snd st in
    (if show_debug so then
       oid <- group_attrib_get "originalPathId" trimGroup ;;
       msg (Msg "Trimming the original bezier path {} at global t parameters: {}"
                (FStr oid :: map FQ globalTParameters))
     else ret tt) ;;
    for_each globalTParameters
      (fun _ =>
         oid <- group_attrib_get "originalPathId" trimGroup ;;
         d <- get_doc ;;
         match getElementById d oid with
         | Some _ => ret tt
         | None => raise (OtherError "TypeError")
         end)
  else ret tt.

(** [trim_bezier(allTrimGroups)] *)
Definition trim_bezier (so : options) (allTrimGroups : list nat) : M unit :=
  for_each allTrimGroups (trim_bezier_group so).

End MoreMethods.

(** ** [effect] *)

Definition relCmds : list ascii :=
  ["m"; "l"; "h"; "v"; "c"; "s"; "q"; "t"; "a"; "z"]%char.

(** [relCmd.upper()] *)
Definition upper (c : ascii) : ascii := ascii_of_nat (nat_of_ascii c - 32).

(** [letter in str(path)]: the letters of a printed path are those of its
    commands. *)
Definition has_letter (p : path) (c : ascii) : bool :=
  existsb (fun cmd => Ascii.eqb (letter cmd) c) p.

(** The test that sets [isClosed]; [None] stands for an [IndexError]. *)
Definition closed_test (raw : path) : option bool :=
  match nth_error raw (List.length raw - 1) with
  | None => None
  | Some lastc =>
      if Ascii.eqb (letter lastc) "Z" then Some true
      else if Ascii.eqb (letter lastc) "L" then
        match nth_error raw 0 with
        | None => None
        | Some first => Some (args_eqb (args first) (args lastc))
        end
      else if Ascii.eqb (letter lastc) "C" then
        match nth_error raw 0, last2 (args lastc) with
        | Some first, Some xy => Some (args_eqb (args first) [fst xy; snd xy])
        | _, _ => None
        end
      else Some false
  end.

(** Breaks compound paths into simple paths: [cur] is [raw[prev:i]] so far. *)
Fixpoint break_subpaths (cur rest : path) (first : bool) : list path :=
  match rest with
  | [] => [cur]
  | c :: rest' =>
      if Ascii.eqb (letter c) "M" && negb first
      then cur :: break_subpaths [c] rest' false
      else break_subpaths (cur ++ [c]) rest' false
  end.

Definition sub_paths (raw : path) : list path := break_subpaths [] raw true.

(** [flattenedpath]: an ['M'] for the first node of each sub-path, an ['L']
    for the others, at the node's point [csp[1]]. *)
Definition flattened_path (subPathData : csp) : path :=
  flat_map
    (fun seg =>
       match seg with
       | [] => []
       | n0 :: rest =>
           Cmd "M" [fst (snd (fst n0)); snd (snd (fst n0))]
           :: map (fun n => Cmd "L" [fst (snd (fst n)); snd (snd (fst n))]) rest
       end)
    subPathData.

(** The highlighting cascade applied to sub split lines and to original
    paths. *)
Definition highlight (so : options)
    (isRelative isAbsolute isMixed isBezier isClosed : bool) (s0 : style) : style :=
  let s1 := if isRelative && highlight_relative so then relativePathStyle else s0 in
  let s2 := if isAbsolute && highlight_absolute so then absolutePathStyle else s1 in
  let s3 := if isMixed && highlight_mixed so then mixedPathStyle else s2 in
  let s4 := if isBezier
            then (if highlight_beziers so then bezierPathStyle else s3)
            else (if highlight_polylines so then polylinePathStyle else s3) in
  if isClosed
  then (if highlight_closed so then closedPathStyle else s4)
  else (if highlight_opened so then openPathStyle else s4).

(** [str(style)].  [effect] prints the style of a path element only before
    it restyles that element, so it is the style attribute of the input that
    is printed; the dictionaries kept by name print their three keys. *)
Fixpoint style_str (s : style) : string :=
  match s with
  | OwnStyle t => t
  | Adjusted t => (style_str t ++ ";stroke:#000000;stroke-opacity:1.0")%string
  | _ => "stroke;fill:none;stroke-width"%string
  end.

(** [l[:stop]] *)
Definition slice_to {A} (l : list A) (stop : Z) : list A :=
  if (0 <=? stop)%Z then firstn (Z.to_nat stop) l
  else firstn (Z.to_nat (Z.of_nat (List.length l) + stop)) l.

(** The flags [effect] computes for one path element. *)
Record path_flags := mkFlags {
  isRelative : bool;
  isAbsolute : bool;
  isMixed : bool;
  isBezier : bool;
  isClosed : bool
}.

(** The variables that live across the loops of [effect]. *)
Record scan_vars := mkScan {
  subSplitLineArray : list element;
  subSplitId : option string;
  isSelfIntersecting : bool
}.

Definition error_text : string :=
  let nl := String (ascii_of_nat 10) EmptyString in
  ("Error calculating global intersections." ++ nl
   ++ "See https://github.com/ideasman42/isect_segments-bentley_ottmann." ++ nl ++ nl
   ++ "You can try to fix this by:" ++ nl
   ++ "- reduce or raise the 'decimals' setting (default is 3 but try to set to 6 for example)" ++ nl
   ++ "- reduce or raise the 'flatness' setting (if quantization option is used at all; default is 0.100).")%string.

(** ** The methods that walk the element tree

    [get_child_paths] and [break_contours] recurse over the children of an
    element, so they are stated on trees of elements. *)

Module Tree.

(** [element.tag]: [svg:path] or another tag. *)
Inductive tag := svg_path | other_tag (name : string).

(** An element with its children ([element.getchildren()]). *)
#[warnings="-register-all"]
Inductive node := Node (t : tag) (e : element) (children : list node).

Definition node_tag (n : node) : tag := match n with Node t _ _ => t end.
Definition node_elem (n : node) : element := match n with Node _ e _ => e end.
Definition node_children (n : node) : list node := match n with Node _ _ cs => cs end.

(** [element.tag == inkex.addNS('path','svg')] *)
Definition is_path (n : node) : bool :=
  match node_tag n with svg_path => true | other_tag _ => false end.

(** [get_child_paths(element, elements)] *)
Fixpoint get_child_paths (element : node) (elements : list node) : list node :=
  match element with
  | Node t e children =>
      let elements1 :=
        match t with
        | svg_path => elements ++ [element]
        | other_tag _ => elements
        end in
      fold_left (fun acc child => get_child_paths child acc) children elements1
  end.

(** [xpath('//svg:path')] from an element: the paths at and below it, in
    document order. *)
Fixpoint descendant_paths (n : node) : list node :=
  match n with
  | Node t e children =>
      match t with
      | svg_path => [n]
      | other_tag _ => []
      end ++ flat_map descendant_paths children
  end.

(** The first lines of [get_path_elements], up to the test for an empty
    result: the path elements picked from the document and the selection
    ([self.svg.selection.values()], in order). *)
Definition selected_path_elements (so : options) (document : node) (selected : list node)
  : list node :=
  if (List.length selected =? 0)%nat then descendant_paths document
  else if negb (handle_groups so) then filter is_path selected
  else fold_left (fun pathElements element => get_child_paths element pathElements)
                 selected [].

(** Python [!=] on two nodes of a [CubicSuperPath]. *)
Definition cspnode_eqb (a b : cspnode) : bool :=
  let pt (p q : point) := Qeq_bool (fst p) (fst q) && Qeq_bool (snd p) (snd q) in
  pt (fst (fst a)) (fst (fst b)) && pt (snd (fst a)) (snd (fst b)) && pt (snd a) (snd b).

Section Breaking.
Context `{Host}.

(** [len(subPath) > 1 and csp[0][0] != csp[0][1]]: whether the sub-path
    gets an element of its own. *)
Definition worth_keeping (subPath : path) : result bool :=
  let csp := CubicSuperPath subPath in
  if (1 <? List.length subPath)%nat then
    match nth_error csp 0 with
    | None => Raise IndexError
    | Some seg =>
        match nth_error seg 0, nth_error seg 1 with
        | Some n0, Some n1 => Ok (negb (cspnode_eqb n0 n1))
        | _, _ => Raise IndexError
        end
    end
  else Ok false.

(** [copy.copy(element)] with the new path and id. *)
Definition replaced (element : node) (idSuffix : nat) (subPath : path) : node :=
  match element with
  | Node t e children =>
      Node t (mkElement (el_id e ++ str_nat idSuffix) subPath (el_style e) (el_attrib e))
           children
  end.

(** [for subPath in subPaths]: the elements made, in the order in which
    they are made. *)
Fixpoint replacements (element : node) (idSuffix : nat) (subPaths : list path)
  : result (list node) :=
  match subPaths with
  | [] => Ok []
  | subPath :: rest =>
      match worth_keeping subPath with
      | Raise x => Raise x
      | Ok true =>
          match replacements element (S idSuffix) rest with
          | Ok made => Ok (replaced element idSuffix subPath :: made)
          | Raise x => Raise x
          end
      | Ok false => replacements element idSuffix rest
      end
  end.

(** [break_contours(element, breakelements)] for an element that has a
    parent.  The first component is what stands in the parent at the place
    of [element] afterwards: each new element is inserted at the index of
    [element], so the new elements stand in reverse order, and [element]
    itself is deleted; an element that is not a path stays, with its
    children broken in turn.  The second component is [breakelements]. *)
Fixpoint break_contours (element : node) (breakelements : list node)
  : result (list node * list node) :=
  match element with
  | Node t e children =>
      let break_children :=
        fix break_children (cs : list node) (acc : list node)
          : result (list node * list node) :=
          match cs with
          | [] => Ok ([], acc)
          | child :: cs' =>
              match break_contours child acc with
              | Raise x => Raise x
              | Ok (here, acc1) =>
                  match break_children cs' acc1 with
                  | Raise x => Raise x
                  | Ok (later, acc2) => Ok (here ++ later, acc2)
                  end
              end
          end in
      match t with
      | svg_path =>
          match replacements element 0 (sub_paths (to_arrays (el_path e))) with
          | Raise x => Raise x
          | Ok made =>
              match break_children children (breakelements ++ made) with
              | Raise x => Raise x
              | Ok (_, acc) => Ok (rev made, acc)
              end
          end
      | other_tag _ =>
          match break_children children breakelements with
          | Raise x => Raise x
          | Ok (children', acc) => Ok ([Node t e children'], acc)
          end
      end
  end.

End Breaking.

End Tree.

Section Effect.
Context `{Host}.

(** [segs] of one sub-path: flattened when asked for and the path has a
    curve, as it is otherwise. *)
Definition sub_path_segs (so : options) (isBezier : bool) (subPath : path) : path :=
  let subPathData := CubicSuperPath subPath in
  if flattenbezier so && isBezier then
    let subdivided := cspsubdiv subPathData (flatness so) in
    to_segments (CubicSuperPath (flattened_path subdivided))
  else to_segments subPathData.

(** One turn of [for i in range(len(segs) - 1)]. *)
Definition sub_split_line (so : options) (k : nat) (original : element)
    (fl : path_flags) (subSplitLineGroup : option nat) (segs : path) (i : nat)
    (st : scan_vars * list segment) : M (scan_vars * list segment) :=
  xy <- line_from_segments segs i (decimals so) ;;
  let '(x1, y1, x2, y2) := xy in
  let originalPathId := el_id original in
  let sid := (idPrefix ++ "-" ++ originalPathId ++ "_" ++ str_nat i)%string in
  pe <- path_object k ;;
  let d := match pe_parent pe with
           | InGroup gid =>
               path_transform [M_ x1 y1; L_ x2 y2] (neg_transform (composed_transform gid))
           | _ => [M_ x1 y1; L_ x2 y2]
           end in
  let attrib :=
    [("originalPathId", originalPathId);
     ("originalPathIsRelative", PyStr.str_bool (isRelative fl));
     ("originalPathIsAbsolute", PyStr.str_bool (isAbsolute fl));
     ("originalPathIsMixed", PyStr.str_bool (isMixed fl));
     ("originalPathIsBezier", PyStr.str_bool (isBezier fl));
     ("originalPathIsClosed", PyStr.str_bool (isClosed fl));
     ("originalPathStyle", style_str (el_style (pe_elem pe)))]%string in
  let sty := if apply_style_to_subsplits so
             then highlight so (isRelative fl) (isAbsolute fl) (isMixed fl)
                            (isBezier fl) (isClosed fl) basicSubSplitLineStyle
             else basicSubSplitLineStyle in
  let line := mkElement sid d sty attrib in
  match subSplitLineGroup with
  | Some g => when (draw_subsplit so) (add_child g line)
  | None => ret tt
  end ;;
  ret (mkScan (subSplitLineArray (fst st) ++ [line]) (Some sid)
              (isSelfIntersecting (fst st)),
       snd st ++ [((x1, y1), (x2, y2))]).

(** The body of [for subPath in subPaths]. *)
Definition scan_sub_path (so : options) (k : nat) (original : element)
    (fl : path_flags) (subSplitLineGroup : option nat) (subPath : path)
    (vars : scan_vars) : M scan_vars :=
  let segs := sub_path_segs so (isBezier fl) subPath in
  st <- for_fold (seq 0 (List.length segs - 1))
          (sub_split_line so k original fl subSplitLineGroup segs) (vars, []) ;;
  let vars1 := fst st in
  let subSplitLines := snd st in
  selfIntersectionPoints <- lift_result (isect_segments subSplitLines true) ;;
  if (0 <? List.length selfIntersectionPoints)%nat then
    (if show_debug so then
       match subSplitId vars1 with
       | Some sid =>
           msg (Msg "{} in {} intersects itself with {} intersections!"
                    [FStr sid; FStr (el_id original);
                     FInt (Z.of_nat (List.length selfIntersectionPoints))])
       | None => raise (OtherError "NameError")
       end
     else ret tt) ;;
    match subSplitLineGroup with
    | Some g =>
        when (draw_subsplit so && highlight_self_intersecting so)
             (modify_doc (update_group g (fun grp =>
                set_children (map (set_style selfIntersectingPathStyle) (g_children grp)) grp))) ;;
        when (draw_subsplit so && remove_self_intersecting so) (delete_group g)
    | None => ret tt
    end ;;
    when (visualize_self_intersections_opt so)
         (visualize_self_intersections so k selfIntersectionPoints) ;;
    if remove_self_intersecting so then
      delete_path k ;;
      ret (mkScan
             (slice_to (subSplitLineArray vars1)
                (Z.of_nat (List.length (subSplitLineArray vars1))
                 - Z.of_nat (List.length segs) - 1))
             (subSplitId vars1) true)
    else ret (mkScan (subSplitLineArray vars1) (subSplitId vars1) true)
  else ret (mkScan (subSplitLineArray vars1) (subSplitId vars1) false).

Definition path_flags_of (p : path) : bool * bool * bool * bool :=
  let rel := existsb (has_letter p) relCmds in
  let abs := existsb (fun c => has_letter p (upper c)) relCmds in
  let mixed := rel && abs in
  (rel && negb mixed, abs && negb mixed, mixed, has_letter p "c" || has_letter p "C").

(** The body of [for pathElement in pathElements]; [k] is the element. *)
Definition scan_path (so : options) (k : nat) (vars : scan_vars) : M scan_vars :=
  pe <- path_object k ;;
  let original := pe_elem pe in
  let originalPathId := el_id original in
  let p := path_transform (el_path original) (composed_transform originalPathId) in
  let '(isRelative, isAbsolute, isMixed, isBezier) := path_flags_of p in
  if remove_absolute so && isAbsolute then delete_path k ;; ret vars
  else if remove_relative so && isRelative then delete_path k ;; ret vars
  else if remove_mixed so && isMixed then delete_path k ;; ret vars
  else
  debug so (Msg "sub path in {} is bezier: {}" [FStr originalPathId; FBool isBezier]) ;;
  if remove_beziers so && isBezier then delete_path k ;; ret vars
  else if remove_polylines so && negb isBezier then delete_path k ;; ret vars
  else
  let raw := to_arrays p in
  match closed_test raw with
  | None => raise IndexError
  | Some isClosed =>
      if remove_opened so && negb isClosed then delete_path k ;; ret vars
      else if remove_closed so && isClosed then delete_path k ;; ret vars
      else
      let fl := mkFlags isRelative isAbsolute isMixed isBezier isClosed in
      subSplitLineGroup <-
        (if draw_subsplit so then
           match pe_parent pe with
           | Detached => raise AttributeError
           | parent =>
               g <- add_group parent (idPrefix ++ "-" ++ originalPathId)%string ;;
               ret (Some g)
           end
         else ret None) ;;
      vars1 <- for_fold (sub_paths raw)
                 (scan_sub_path so k original fl subSplitLineGroup) vars ;;
      when (removefillsetstroke so)
           (modify_doc (update_path k (fun q =>
              set_path_style (Adjusted (el_style (pe_elem q))) q))) ;;
      modify_doc (update_path k (fun q =>
        set_path_style
          (highlight so isRelative isAbsolute isMixed isBezier isClosed
                     (el_style (pe_elem q))) q)) ;;
      when (isSelfIntersecting vars1 && highlight_self_intersecting so)
           (modify_doc (update_path k (set_path_style selfIntersectingPathStyle))) ;;
      ret vars1
  end.

(** [[(csp[0][1][0], csp[0][1][1]), (csp[1][1][0], csp[1][1][1])]] *)
Definition line_string (subSplitLine : element) : M segment :=
  let csp := to_arrays (el_path subSplitLine) in
  c0 <- index csp 0 ;; a <- first2 (args c0) ;;
  c1 <- index csp 1 ;; b <- first2 (args c1) ;;
  ret (a, b).

(** The statements under [if len(globalIntersectionPoints) > 0]. *)
Definition trim_all (so : options) (pathElements : list nat)
    (subSplitLineArray : list element) (globalIntersectionPoints : list point) : M unit :=
  when (visualize_global_intersections_opt so)
       (visualize_global_intersections so globalIntersectionPoints) ;;
  allTrimGroups <- for_fold (seq 0 (List.length subSplitLineArray))
    (fun subSplitIndex allTrimGroups =>
       trimGroup <- build_trim_line_group so subSplitLineArray subSplitIndex
                                          globalIntersectionPoints ;;
       match trimGroup with
       | Some g =>
           if negb (existsb (Nat.eqb g) allTrimGroups)
           then ret (allTrimGroups ++ [g]) else ret allTrimGroups
       | None => ret allTrimGroups
       end)
    [] ;;
  debug so (Msg "trim groups count: {}" [FInt (Z.of_nat (List.length allTrimGroups))]) ;;
  when (List.length allTrimGroups =? 0)%nat
       (msg (Msg "You selected to draw trimmed lines but no intersections could be calculated." [])) ;;
  when (bezier_trimming so) (trim_bezier so allTrimGroups) ;;
  when (remove_duplicates_opt so) (remove_duplicates so allTrimGroups) ;;
  when (combine_nonintersects_opt so) (combine_nonintersects so allTrimGroups) ;;
  when (negb (keep_original_after_trim so)) (for_each pathElements delete_path).

(** [allSubSplitLineStrings] *)
Definition all_line_strings (subSplitLineArray : list element) : M (list segment) :=
  for_fold subSplitLineArray
    (fun subSplitLine acc => ls <- line_string subSplitLine ;; ret (acc ++ [ls])) [].

(** The statements inside [try:]. *)
Definition global_intersections (so : options) (pathElements : list nat)
    (subSplitLineArray : list element) : M unit :=
  allSubSplitLineStrings <- all_line_strings subSplitLineArray ;;
  globalIntersectionPoints <- lift_result (isect_segments allSubSplitLineStrings true) ;;
  debug so (Msg "global intersection points count: {}"
                [FInt (Z.of_nat (List.length globalIntersectionPoints))]) ;;
  when (0 <? List.length globalIntersectionPoints)%nat
       (trim_all so pathElements subSplitLineArray globalIntersectionPoints).

(** [parent.insert(idx, replacedelement)]: a new path element object under
    [parent].  The model keeps no order among the children of a parent, so
    the index plays no part; the new object is the last of [d_paths]. *)
Definition add_path (parent : parent_ref) (e : element) : M nat :=
  fun w =>
    let d := w_doc w in
    (Ok (List.length (d_paths d)),
     mkWorld (mkDoc (d_paths d ++ [mkPathElement parent e]) (d_groups d) (d_markers d))
             (w_msgs w) (w_next_id w)).

(** [break_contours(element, breakelements)] for the path element [k] of
    the document, which has no children: a copy of the element for every
    sub-path worth keeping, with the sub-path as its path data and the
    running [idSuffix] appended to its id, and the element itself deleted.
    [parent.index(element)] fails on an element without parent. *)
Definition break_contours (k : nat) (breakelements : list nat) : M (list nat) :=
  pe <- path_object k ;;
  match pe_parent pe with
  | Detached => raise AttributeError
  | parent =>
      let element := pe_elem pe in
      let raw := to_arrays (el_path element) in
      st <- for_fold (sub_paths raw)
        (fun subPath st =>
           keep <- lift_result (Tree.worth_keeping subPath) ;;
           if keep then
             replacedelement <-
               add_path parent
                 (mkElement (el_id element ++ str_nat (fst st)) subPath
                            (el_style element) (el_attrib element)) ;;
             ret (S (fst st), snd st ++ [replacedelement])
           else ret st)
        (0%nat, breakelements) ;;
      delete_path k ;;
      ret (snd st)
  end.

(** The path element [k] is an object of the document that was not
    deleted. *)
Definition in_document (d : document) (k : nat) : bool :=
  match nth_error (d_paths d) k with
  | Some pe => negb (is_detached (pe_parent pe))
  | None => false
  end.

(** [get_path_elements()] with nothing selected: the [svg:path] elements of
    the document, [xpath('//svg:path')], which are the objects of [d_paths]
    that were not deleted.  What a selection picks instead (lines 136 to
    141) is [Tree.selected_path_elements].  An empty result ends the run;
    with [break_apart] every element is replaced by the elements
    [break_contours] makes of it. *)
Definition get_path_elements (so : options) : M (list nat) :=
  d <- get_doc ;;
  let pathElements := filter (in_document d) (seq 0 (List.length (d_paths d))) in
  if (List.length pathElements =? 0)%nat then
    msg (Msg "Selection appears to be empty or does not contain any valid svg:path nodes. Try to cast your objects to paths using CTRL + SHIFT + C or strokes to paths using CTRL + ALT + C" []) ;;
    raise SystemExit
  else
    pathElements <-
      (if break_apart so then for_fold pathElements break_contours []
       else ret pathElements) ;;
    debug so (Msg "total processing paths count: {}"
                  [FInt (Z.of_nat (List.length pathElements))]) ;;
    ret pathElements.

(** The loop over the path elements. *)
Definition scan (so : options) (pathElements : list nat) : M scan_vars :=
  vars <- for_fold pathElements (scan_path so) (mkScan [] None false) ;;
  debug so (Msg "sub split line count: {}"
                [FInt (Z.of_nat (List.length (subSplitLineArray vars)))]) ;;
  ret vars.

(** The first part of [effect], up to the sub split lines: the path
    elements and the variables of the scan. *)
Definition effect_scan (so : options) : M (list nat * scan_vars) :=
  when (break_apart so && show_debug so)
       (msg (Msg "Warning: 'Break apart input' setting is enabled. Cannot check accordingly for relative, absolute or mixed paths for breaked elements (they are always absolute)!" [])) ;;
  pathElements <- get_path_elements so ;;
  vars <- scan so pathElements ;;
  ret (pathElements, vars).

(** The second part: [if so.draw_trimmed is True: try: ... except
    AssertionError ...]. *)
Definition trim_stage (so : options) (pathElements : list nat) (vars : scan_vars) : M unit :=
  when (draw_trimmed so)
       (try_except_AssertionError
          (global_intersections so pathElements (subSplitLineArray vars))
          (msg (Msg error_text []))).

(** [effect()] *)
Definition effect (so : options) : M unit :=
  r <- effect_scan so ;;
  trim_stage so (fst r) (snd r).

End Effect.

(** ** Variations of the inputs used in the statements *)

(** The options with another [--flatness]. *)
Definition with_flatness (q : Q) (so : options) : options :=
  mkOptions (show_debug so) (break_apart so) (handle_groups so) (trimming_path_types so)
    (flattenbezier so) q (decimals so) (snap_tolerance so)
    (remove_relative so) (remove_absolute so) (remove_mixed so) (remove_polylines so)
    (remove_beziers so) (remove_opened so) (remove_closed so) (remove_self_intersecting so)
    (highlight_relative so) (highlight_absolute so) (highlight_mixed so)
    (highlight_polylines so) (highlight_beziers so) (highlight_opened so)
    (highlight_closed so) (highlight_self_intersecting so) (draw_subsplit so)
    (visualize_self_intersections_opt so) (visualize_global_intersections_opt so)
    (draw_trimmed so) (combine_nonintersects_opt so) (remove_duplicates_opt so)
    (reverse_removal_order so) (keep_original_after_trim so) (strokewidth so)
    (dotsize_intersections so) (removefillsetstroke so) (bezier_trimming so)
    (apply_style_to_subsplits so) (apply_style_to_trimmed so).

Definition with_draw_trimmed (b : bool) (so : options) : options :=
  mkOptions (show_debug so) (break_apart so) (handle_groups so) (trimming_path_types so)
    (flattenbezier so) (flatness so) (decimals so) (snap_tolerance so)
    (remove_relative so) (remove_absolute so) (remove_mixed so) (remove_polylines so)
    (remove_beziers so) (remove_opened so) (remove_closed so) (remove_self_intersecting so)
    (highlight_relative so) (highlight_absolute so) (highlight_mixed so)
    (highlight_polylines so) (highlight_beziers so) (highlight_opened so)
    (highlight_closed so) (highlight_self_intersecting so) (draw_subsplit so)
    (visualize_self_intersections_opt so) (visualize_global_intersections_opt so)
    b (combine_nonintersects_opt so) (remove_duplicates_opt so)
    (reverse_removal_order so) (keep_original_after_trim so) (strokewidth so)
    (dotsize_intersections so) (removefillsetstroke so) (bezier_trimming so)
    (apply_style_to_subsplits so) (apply_style_to_trimmed so).

(** The same libraries with another intersector. *)
Definition with_isect (f : list segment -> bool -> result (list point)) (H : Host) : Host :=
  {| isect_segments := f;
     CubicSuperPath := @CubicSuperPath H;
     to_segments := @to_segments H;
     cspsubdiv := @cspsubdiv H;
     csplength := @csplength H;
     to_arrays := @to_arrays H;
     path_transform := @path_transform H;
     composed_transform := @composed_transform H;
     neg_transform := @neg_transform H;
     pyround := @pyround H;
     unittouu_px := @unittouu_px H;
     unique_suffix := @unique_suffix H;
     snap := @snap H;
     split := @split H |}.

(** The intersector as [effect] calls it: [validate=True] at both call
    sites. *)
Definition validating (H : Host) : Host :=
  with_isect (fun segments _ => @isect_segments H segments true) H.

(** ** A reference intersector *)

Module Isect.

Definition sub (a b : point) : point := (fst a - fst b, snd a - snd b).
Definition cross (a b : point) : Q := fst a * snd b - snd a * fst b.
Definition dot (a b : point) : Q := fst a * fst b + snd a * snd b.

Definition point_eqb (a b : point) : bool :=
  Qeq_bool (fst a) (fst b) && Qeq_bool (snd a) (snd b).

(** [p] lies on the closed segment [s]. *)
Definition on_segment (p : point) (s : segment) : bool :=
  let r := sub (snd s) (fst s) in
  let v := sub p (fst s) in
  Qeq_bool (cross r v) 0 && Qle_bool 0 (dot v r) && Qle_bool (dot v r) (dot r r).

(** The points two segments have in common, an overlap of collinear
    segments being given by the end points that lie on the other segment. *)
Definition common_points (s t : segment) : list point :=
  let r := sub (snd s) (fst s) in
  let u := sub (snd t) (fst t) in
  let den := cross r u in
  if Qeq_bool den 0 then
    filter (fun p => on_segment p s && on_segment p t) [fst s; snd s; fst t; snd t]
  else
    let a := cross (sub (fst t) (fst s)) u / den in
    let b := cross (sub (fst t) (fst s)) r / den in
    if Qle_bool 0 a && Qle_bool a 1 && Qle_bool 0 b && Qle_bool b 1
    then [(fst (fst s) + a * fst r, snd (fst s) + a * snd r)]
    else [].

Definition is_end_point (p : point) (s : segment) : bool :=
  point_eqb p (fst s) || point_eqb p (snd s).

Fixpoint add_points (ps acc : list point) : list point :=
  match ps with
  | [] => acc
  | p :: ps' =>
      if existsb (point_eqb p) acc then add_points ps' acc
      else add_points ps' (acc ++ [p])
  end.

Fixpoint pairs_with (validate : bool) (s : segment) (ts : list segment)
    (acc : list point) : list point :=
  match ts with
  | [] => acc
  | t :: ts' =>
      let ps := filter (fun p => negb (validate && is_end_point p s && is_end_point p t))
                       (common_points s t) in
      pairs_with validate s ts' (add_points ps acc)
  end.

Fixpoint all_pairs (validate : bool) (segs : list segment) (acc : list point) : list point :=
  match segs with
  | [] => acc
  | s :: segs' => all_pairs validate segs' (pairs_with validate s segs' acc)
  end.

(** Modelled from the spec: [poly_point_isect.isect_segments], whose file is
    not among the sources.  All pairwise intersection points; collinear
    overlaps are reported at the shared overlap end points; with [validate]
    a point where two segments meet tip to tip is left out.  The sweep is
    replaced by the pairwise definition of its result, and it never fails. *)
Definition isect_segments (segments : list segment) (validate : bool)
  : result (list point) :=
  Ok (all_pairs validate segments []).

End Isect.

(** ** Stand-ins for inkex and shapely on polylines

    Enough of the libraries to run the model on paths made of absolute
    ['M'] and ['L'] commands without transforms. *)

Module Plain.

Definition node_of (c : command) : list cspnode :=
  match last2 (args c) with
  | Some p => [(p, p, p)]
  | None => []
  end.

Definition csp_of_path (p : path) : csp := [flat_map node_of p].

(** No cut: the line string comes back whole. *)
Definition no_split (ls : list point) (_ : list point) : list (list point) := [ls].

Definition identity : transform := (1, 0, 0, 1, 0, 0).

Definition host (isect : list segment -> bool -> result (list point)) : Host :=
  {| isect_segments := isect;
     CubicSuperPath := csp_of_path;
     to_segments := flattened_path;
     cspsubdiv := fun c _ => c;
     csplength := fun _ => 0;
     to_arrays := fun p => p;
     path_transform := fun p _ => p;
     composed_transform := fun _ => identity;
     neg_transform := fun t => t;
     pyround := fun x _ => x;
     unittouu_px := fun x => x;
     unique_suffix := str_nat;
     snap := fun ls _ _ => ls;
     split := no_split |}.

End Plain.

(** The libraries with the reference intersector. *)
Definition reference_host : Host := Plain.host Isect.isect_segments.

(** A sweep whose internal assertions fail as soon as it is given more than
    one segment. *)
Definition fragile_isect (segments : list segment) (_ : bool) : result (list point) :=
  if (1 <? List.length segments)%nat then Raise AssertionError else Ok [].

Definition fragile_host : Host := Plain.host fragile_isect.

(** The same sweep failing with the [KeyError] quoted in the header of the
    source file. *)
Definition keyerror_isect (segments : list segment) (_ : bool) : result (list point) :=
  if (1 <? List.length segments)%nat then Raise (OtherError "KeyError") else Ok [].

Definition keyerror_host : Host := Plain.host keyerror_isect.

(** An intersector that finds nothing in validate mode and answers as the
    reference intersector when the flag is off. *)
Definition tips_only_isect (segments : list segment) (validate : bool)
  : result (list point) :=
  if validate then Ok [] else Isect.isect_segments segments false.

Definition tips_only_host : Host := Plain.host tips_only_isect.

(** The defaults with [--draw_trimmed=true]. *)
Definition trimming_options : options := with_draw_trimmed true default_options.

(** ** Sample documents *)

Definition world_of (d : document) : world := mkWorld d [] 0.

Definition path_in_root (eid : string) (p : path) : pathElement :=
  mkPathElement Root (mkElement eid p (OwnStyle "stroke:#000000") []).

(** An open polyline (0,0) - (1,0) - (1,1): two consecutive pieces of one
    contour that share only the vertex (1,0). *)
Definition corner_path : path := [M_ 0 0; L_ 1 0; L_ 1 1].
Definition corner_world : world :=
  world_of (mkDoc [path_in_root "corner" corner_path] [] []).

Definition corner_segments : list segment := [((0, 0), (1, 0)); ((1, 0), (1, 1))].

(** Two separate one-segment paths, (0,0)-(1,0) and (0,1)-(1,1). *)
Definition two_lines_world : world :=
  world_of (mkDoc [path_in_root "a" [M_ 0 0; L_ 1 0];
                   path_in_root "b" [M_ 0 1; L_ 1 1]] [] []).

(** A closed square, (0,0) (10,0) (10,10) (0,10) (0,0). *)
Definition square_path : path := [M_ 0 0; L_ 10 0; L_ 10 10; L_ 0 10; L_ 0 0].

(** The same outline ending a ten-thousandth short of its first point. *)
Definition nearly_closed_path : path :=
  [M_ 0 0; L_ 10 0; L_ 10 10; L_ 0 10; L_ (1 # 10000) 0].

(** Two trim groups with one piece each, (1,1)-(2,2) and (2,2)-(1,1). *)
Definition piece (eid : string) (a b : point) : element :=
  mkElement eid [M_ (fst a) (snd a); L_ (fst b) (snd b)] trimLineStyle [].

Definition identical_pair : document :=
  mkDoc []
    [mkGroup "shapely-subsplit-a" Root [] [piece "shapely-subsplit-a-0" (1, 1) (2, 2)];
     mkGroup "shapely-subsplit-b" Root [] [piece "shapely-subsplit-b-1" (1, 1) (2, 2)]]
    [].

(** One trim group with two uncut pieces, (0,0)-(1,0) and (1,0)-(2,0). *)
Definition adjoining_pieces : document :=
  mkDoc []
    [mkGroup "shapely-subsplit-a" Root []
       [piece "shapely-subsplit-a-0" (0, 0) (1, 0);
        piece "shapely-subsplit-a-1" (1, 0) (2, 0)]]
    [].

Definition reversed_pair : document :=
  mkDoc []
    [mkGroup "shapely-subsplit-a" Root [] [piece "shapely-subsplit-a-0" (1, 1) (2, 2)];
     mkGroup "shapely-subsplit-b" Root [] [piece "shapely-subsplit-b-1" (2, 2) (1, 1)]]
    [].

(** ** Predicates of the statements *)

(** The trimmed pieces still in the document. *)
Definition surviving_pieces (d : document) : list element :=
  flat_map (fun g => if is_detached (g_parent g) then [] else g_children g) (d_groups d).

(** No command of the path has the arguments of the command before it. *)
Fixpoint no_repeated_point (p : path) : Prop :=
  match p with
  | [] => True
  | c :: rest =>
      match rest with
      | [] => True
      | d :: _ => args_eqb (args d) (args c) = false /\ no_repeated_point rest
      end
  end.

(** Exact equality of two argument lists. *)
Definition args_eq (a b : list Q) : Prop := Forall2 Qeq a b.

(** The id carries the marking the recombiner looks for. *)
Definition marked_intersected (e : element) : bool :=
  PyStr.contains intersectedVerb (el_id e).

(** Every path in [seen'] that is also in [seen]. *)
Definition seen_within (seen' seen : list path) : Prop :=
  forall p, path_in p seen' = true -> path_in p seen = true.

(** No path of the list is in [seen] or equal to an earlier one. *)
Fixpoint all_new (seen : list path) (cs : list element) : Prop :=
  match cs with
  | [] => True
  | e :: cs' => path_in (el_path e) seen = false /\ all_new (seen ++ [el_path e]) cs'
  end.

(** The path written for one piece returned by [split]: its first two
    coordinates, mapped by the inverse of the transform [T]. *)
Definition piece_path `{Host} (T : transform) (piece : list point) : path :=
  match piece with
  | p0 :: p1 :: _ =>
      path_transform [M_ (fst p0) (snd p0); L_ (fst p1) (snd p1)] (neg_transform T)
  | _ => []
  end.

(** The attribute [intersected] is set to ['True']. *)
Definition flagged_intersected (e : element) : Prop :=
  attr "intersected" (el_attrib e) = Some "True"%string.

(** What holds of [splitAt] and of the trim lines created after [n] turns of
    the loop in [build_trim_line_group]. *)
Definition trim_inv (trimGroupId : string) (subSplitIndex n : nat)
    (st : list string * list element) : Prop :=
  fst st = repeat trimGroupId n
  /\ List.length (snd st) = n
  /\ ((2 <= n)%nat -> Forall (fun e => marked_intersected e = true) (snd st))
  /\ (n = 1%nat ->
      Forall (fun e => el_id e = (trimGroupId ++ "-" ++ str_nat subSplitIndex)%string)
             (snd st))
  /\ ((1 <= n)%nat ->
      exists front lastLine,
        snd st = front ++ [lastLine]
        /\ Forall flagged_intersected front
        /\ el_attrib lastLine = []).

(** The command leaves every path element object as it is. *)
Definition keeps_paths {A} (c : M A) : Prop :=
  forall w, d_paths (w_doc (snd (c w))) = d_paths (w_doc w).

(** Whenever the command returns, [isSelfIntersecting] is [False]. *)
Definition unflagged (c : M scan_vars) : Prop :=
  forall w vars w', c w = (Ok vars, w') -> isSelfIntersecting vars = false.

(** None of the scanning options that delete or restyle original paths is
    switched on. *)
Definition no_scan_edits (so : options) : bool :=
  negb (remove_relative so || remove_absolute so || remove_mixed so
        || remove_polylines so || remove_beziers so || remove_opened so
        || remove_closed so || remove_self_intersecting so
        || highlight_relative so || highlight_absolute so || highlight_mixed so
        || highlight_polylines so || highlight_beziers so || highlight_opened so
        || highlight_closed so || highlight_self_intersecting so
        || removefillsetstroke so).

(** ** Further definitions used in the statements *)

Definition starts_with_M (p : path) : Prop :=
  exists c rest, p = c :: rest /\ letter c = "M"%char.

Definition no_inner_M (p : path) : Prop :=
  match p with
  | [] => True
  | _ :: rest => Forall (fun c => letter c <> "M"%char) rest
  end.


(** The sub split line has the id and the attributes [effect] gives it. *)
Definition sub_split_id (originalPathId : string) (i : nat) : string :=
  (idPrefix ++ "-" ++ originalPathId ++ "_" ++ str_nat i)%string.


(** The command leaves the document and the id counter as they are; it
    may show messages. *)
Definition only_reports {A} (c : M A) : Prop :=
  forall w, w_doc (snd (c w)) = w_doc w /\ w_next_id (snd (c w)) = w_next_id w.

(** Nothing but the scan is asked for: no option that deletes, restyles,
    draws or breaks apart is switched on. *)
Definition scan_only (so : options) : bool :=
  no_scan_edits so && negb (draw_subsplit so)
  && negb (visualize_self_intersections_opt so) && negb (draw_trimmed so)
  && negb (break_apart so).


(** The call of [build_trim_line_group] for this sub split line is skipped:
    the line comes from a closed path and only open paths are trimmed, or
    the other way round. *)
Definition skipped (so : options) (subSplitLine : element) : bool :=
  match attr "originalPathIsClosed" (el_attrib subSplitLine) with
  | Some isClosed =>
      match trimming_path_types so with
      | open_paths => String.eqb isClosed "True"
      | closed_paths => String.eqb isClosed "False"
      | _ => false
      end
  | None => false
  end.

(** A trim group of a curve with one trim line of no length. *)
Definition degenerate_bezier_group : document :=
  mkDoc []
    [mkGroup "shapely-subsplit-a" Root
       [("originalPathIsBezier", "True"); ("originalPathId", "a")]%string
       [piece "shapely-subsplit-a-0" (1, 1) (1, 1)]]
    [].

(** The sub split line of the open path [a] of [two_lines_world]. *)
Definition open_sub_split_line : element :=
  mkElement "subsplit-a_0" [M_ 0 0; L_ 1 0] basicSubSplitLineStyle
    [("originalPathId", "a"); ("originalPathIsBezier", "False");
     ("originalPathIsClosed", "False"); ("originalPathStyle", "stroke:#000000")]%string.

(** The part of [s] before the first [c], all of [s] when there is none:
    [s.split(c)[0]]. *)
Fixpoint before_char (c : ascii) (s : string) : string :=
  match s with
  | EmptyString => EmptyString
  | String x s' => if Ascii.eqb x c then EmptyString else String x (before_char c s')
  end.

(** A closed path whose id has an underscore, and its first sub split
    line. *)
Definition underscore_world : world :=
  world_of (mkDoc [path_in_root "my_path" square_path] [] []).

Definition underscore_line : element :=
  mkElement "subsplit-my_path_0" [M_ 0 0; L_ 10 0] basicSubSplitLineStyle
    [("originalPathId", "my_path"); ("originalPathIsBezier", "False");
     ("originalPathIsClosed", "True"); ("originalPathStyle", "stroke:#000000")]%string.

(** The options with another [--remove_self_intersecting]. *)
Definition with_remove_self_intersecting (b : bool) (so : options) : options :=
  mkOptions (show_debug so) (break_apart so) (handle_groups so) (trimming_path_types so)
    (flattenbezier so) (flatness so) (decimals so) (snap_tolerance so)
    (remove_relative so) (remove_absolute so) (remove_mixed so) (remove_polylines so)
    (remove_beziers so) (remove_opened so) (remove_closed so) b
    (highlight_relative so) (highlight_absolute so) (highlight_mixed so)
    (highlight_polylines so) (highlight_beziers so) (highlight_opened so)
    (highlight_closed so) (highlight_self_intersecting so) (draw_subsplit so)
    (visualize_self_intersections_opt so) (visualize_global_intersections_opt so)
    (draw_trimmed so) (combine_nonintersects_opt so) (remove_duplicates_opt so)
    (reverse_removal_order so) (keep_original_after_trim so) (strokewidth so)
    (dotsize_intersections so) (removefillsetstroke so) (bezier_trimming so)
    (apply_style_to_subsplits so) (apply_style_to_trimmed so).

(** An open polyline that crosses itself at (1,1):
    (0,0) - (2,2) - (2,0) - (0,2). *)
Definition bowtie_path : path := [M_ 0 0; L_ 2 2; L_ 2 0; L_ 0 2].
Definition bowtie_world : world :=
  world_of (mkDoc [path_in_root "bow" bowtie_path] [] []).

(** The children of a trim group that carry the intersected marking in
    their id, and those that do not. *)
Definition marked_pieces (cs : list element) : list element :=
  filter marked_intersected cs.

Definition unmarked_pieces (cs : list element) : list element :=
  filter (fun e => negb (marked_intersected e)) cs.

(** The centre of a marker. *)
Definition centre (c : circle) : point := (c_cx c, c_cy c).

(** The ids [get_unique_id] hands out for [n] requests in a row, the first
    of them when the counter stands at [first]. *)
Definition unique_ids `{Host} (prefix : string) (first n : nat) : list string :=
  map (fun j => (prefix ++ unique_suffix (first + j))%string) (seq 0 n).

(** Two path elements in a group [layer], the first of them deleted. *)
Definition layer_world : world :=
  world_of (mkDoc [mkPathElement Detached (mkElement "gone" bowtie_path (OwnStyle "") []);
                   mkPathElement (InGroup "layer") (mkElement "bow" bowtie_path (OwnStyle "") [])]
                  [mkGroup "layer" Root [] []] []).

(** The group is in the document and has this id. *)
Definition names (gid : string) (grp : group) : bool :=
  negb (is_detached (g_parent grp)) && String.eqb (g_id grp) gid.

(** The attribute holds [str] of a Python bool. *)
Definition bool_attr (k : string) (e : element) : Prop :=
  exists b, attr k (el_attrib e) = Some (PyStr.str_bool b).

(** What [build_trim_line_group] and [trim_bezier] rely on in a sub split
    line: the id made of the prefix, the id of the original path and an
    index, and the attributes that describe the original path. *)
Definition sub_split_line_ok (line : element) : Prop :=
  (exists originalPathId i,
      el_id line = sub_split_id originalPathId i
      /\ attr "originalPathId" (el_attrib line) = Some originalPathId)
  /\ bool_attr "originalPathIsRelative" line
  /\ bool_attr "originalPathIsAbsolute" line
  /\ bool_attr "originalPathIsMixed" line
  /\ bool_attr "originalPathIsBezier" line
  /\ bool_attr "originalPathIsClosed" line
  /\ attr "originalPathStyle" (el_attrib line) <> None.

(** Whenever the command returns, every sub split line collected so far is
    well formed. *)
Definition collects_ok (c : M scan_vars) : Prop :=
  forall w vars w', c w = (Ok vars, w') -> Forall sub_split_line_ok (subSplitLineArray vars).

(** A closed square [sq] under the root and its first sub split line. *)
Definition square_world : world :=
  world_of (mkDoc [path_in_root "sq" square_path] [] []).

Definition square_line : element :=
  mkElement "subsplit-sq_0" [M_ 0 0; L_ 10 0] basicSubSplitLineStyle
    [("originalPathId", "sq"); ("originalPathIsRelative", "False");
     ("originalPathIsAbsolute", "True"); ("originalPathIsMixed", "False");
     ("originalPathIsBezier", "False"); ("originalPathIsClosed", "True");
     ("originalPathStyle", "stroke:#000000")]%string.

(** The command leaves the document as it is. *)
Definition keeps_document {A} (c : M A) : Prop :=
  forall w, w_doc (snd (c w)) = w_doc w.

(** The trim group a sub split line is filed under, as it is before the
    call: the group [find_group] finds, or the new, empty group under the
    parent of the original path. *)
Definition trim_group_before (d : document) (trimGroupId : string)
    (grandparent : parent_ref) : group :=
  match find_group d trimGroupId with
  | Some g => nth g (d_groups d) (mkGroup trimGroupId grandparent [] [])
  | None => mkGroup trimGroupId grandparent [] []
  end.

(** Its position among the groups. *)
Definition trim_group_position (d : document) (trimGroupId : string) : nat :=
  match find_group d trimGroupId with
  | Some g => g
  | None => List.length (d_groups d)
  end.

(** What [remove_duplicates] may do to a trim group: delete children, and
    delete the group when none is left. *)
Definition thinned (grp grp' : group) : Prop :=
  g_id grp' = g_id grp
  /\ g_attrib grp' = g_attrib grp
  /\ (forall e, In e (g_children grp') -> In e (g_children grp))
  /\ (g_children grp' <> [] -> g_parent grp' = g_parent grp)
  /\ (g_parent grp' = g_parent grp \/ g_parent grp' = Detached).

(** A path element without path data. *)
Definition empty_path_world : world :=
  world_of (mkDoc [path_in_root "nothing" []] [] []).

(** The options with another [--remove_polylines]. *)
Definition with_remove_polylines (b : bool) (so : options) : options :=
  mkOptions (show_debug so) (break_apart so) (handle_groups so) (trimming_path_types so)
    (flattenbezier so) (flatness so) (decimals so) (snap_tolerance so)
    (remove_relative so) (remove_absolute so) (remove_mixed so) b
    (remove_beziers so) (remove_opened so) (remove_closed so) (remove_self_intersecting so)
    (highlight_relative so) (highlight_absolute so) (highlight_mixed so)
    (highlight_polylines so) (highlight_beziers so) (highlight_opened so)
    (highlight_closed so) (highlight_self_intersecting so) (draw_subsplit so)
    (visualize_self_intersections_opt so) (visualize_global_intersections_opt so)
    (draw_trimmed so) (combine_nonintersects_opt so) (remove_duplicates_opt so)
    (reverse_removal_order so) (keep_original_after_trim so) (strokewidth so)
    (dotsize_intersections so) (removefillsetstroke so) (bezier_trimming so)
    (apply_style_to_subsplits so) (apply_style_to_trimmed so).

(** Two elements that differ in their style at most. *)
Definition same_but_style (a b : element) : Prop :=
  el_id a = el_id b /\ el_path a = el_path b /\ el_attrib a = el_attrib b.

(** What holds while the sub split lines of one path are drawn: the group
    made for them is the last group of the document, and its children are
    the lines collected for the path so far, restyled at most.  [groups] and
    [collected] are the groups and the array when the path was begun. *)
Definition drawn_so_far (groups : list group) (collected : list element)
    (name : string) (parent : parent_ref) (w : world) (vars : scan_vars) : Prop :=
  exists grp lines,
    d_groups (w_doc w) = groups ++ [grp]
    /\ g_id grp = name
    /\ g_parent grp = parent
    /\ subSplitLineArray vars = collected ++ lines
    /\ Forall2 same_but_style (g_children grp) lines.

(** The options with another [--draw_subsplit]. *)
Definition with_draw_subsplit (b : bool) (so : options) : options :=
  mkOptions (show_debug so) (break_apart so) (handle_groups so) (trimming_path_types so)
    (flattenbezier so) (flatness so) (decimals so) (snap_tolerance so)
    (remove_relative so) (remove_absolute so) (remove_mixed so) (remove_polylines so)
    (remove_beziers so) (remove_opened so) (remove_closed so) (remove_self_intersecting so)
    (highlight_relative so) (highlight_absolute so) (highlight_mixed so)
    (highlight_polylines so) (highlight_beziers so) (highlight_opened so)
    (highlight_closed so) (highlight_self_intersecting so) b
    (visualize_self_intersections_opt so) (visualize_global_intersections_opt so)
    (draw_trimmed so) (combine_nonintersects_opt so) (remove_duplicates_opt so)
    (reverse_removal_order so) (keep_original_after_trim so) (strokewidth so)
    (dotsize_intersections so) (removefillsetstroke so) (bezier_trimming so)
    (apply_style_to_subsplits so) (apply_style_to_trimmed so).

(** ** [adjust_style] on the text of the style attribute

    Python's [str] methods are modelled on ASCII text. *)

Module PyText.

(** [c.isspace()] *)
Definition is_space (c : ascii) : bool :=
  let n := nat_of_ascii c in
  ((9 <=? n) && (n <=? 13) || (28 <=? n) && (n <=? 32))%nat.

Fixpoint lstrip (s : string) : string :=
  match s with
  | EmptyString => EmptyString
  | String c s' => if is_space c then lstrip s' else s
  end.

Fixpoint rstrip (s : string) : string :=
  match s with
  | EmptyString => EmptyString
  | String c s' =>
      match rstrip s' with
      | EmptyString => if is_space c then EmptyString else String c EmptyString
      | r => String c r
      end
  end.

(** [s.strip()] *)
Definition strip (s : string) : string := rstrip (lstrip s).

Definition lower_char (c : ascii) : ascii :=
  let n := nat_of_ascii c in
  if ((65 <=? n) && (n <=? 90))%nat then ascii_of_nat (n + 32) else c.

(** [s.lower()] *)
Fixpoint lower (s : string) : string :=
  match s with
  | EmptyString => EmptyString
  | String c s' => String (lower_char c) (lower s')
  end.

(** [s.split(c, maxsplit)] for a one-character separator; [cur] is the part
    being read. *)
Fixpoint split_max (c : ascii) (maxsplit : nat) (s cur : string) : list string :=
  match s with
  | EmptyString => [cur]
  | String x s' =>
      match maxsplit with
      | O => [(cur ++ s)%string]
      | S m =>
          if Ascii.eqb x c then cur :: split_max c m s' EmptyString
          else split_max c maxsplit s' (cur ++ String x EmptyString)
      end
  end.

(** [sep.join(parts)] *)
Fixpoint join (sep : string) (parts : list string) : string :=
  match parts with
  | [] => EmptyString
  | [x] => x
  | x :: rest => (x ++ sep ++ join sep rest)%string
  end.

End PyText.

(** The body of [for i, decl in enumerate(declarations)]: what
    [declarations[i]] is afterwards.  [width] is the text of
    [str(self.svg.unittouu(str(self.options.strokewidth) + "px"))]. *)
Definition adjust_declaration (width decl : string) : string :=
  match PyText.split_max ":" 2 decl EmptyString with
  | [prop; val] =>
      let prop := PyText.lower (PyText.strip prop) in
      let decl1 := if String.eqb prop "stroke-width" then (prop ++ ":" ++ width)%string
                   else decl in
      if String.eqb prop "fill" then (prop ++ ":none")%string else decl1
  | _ => decl
  end.

(** [adjust_style(element)] on the text of the attribute: [has_key] is
    [element.attrib.has_key('style')], [style] what [element.get('style')]
    returns, and the result is the text handed to [element.set('style', ...)],
    [None] when [set] is not called. *)
Definition adjust_style (width : string) (has_key : bool) (style : option string)
  : option string :=
  if has_key then
    match style with
    | Some (String c s) =>
        let declarations := PyStr.split ";" (String c s) in
        Some (PyText.join ";" (map (adjust_declaration width) declarations)
              ++ ";stroke:#000000;stroke-opacity:1.0")%string
    | _ => None
    end
  else Some "stroke:#000000;stroke-opacity:1.0"%string.


(** The character does not occur in the text. *)
Definition char_free (c : ascii) (s : string) : Prop :=
  PyStr.contains (String c EmptyString) s = false.

(** The sub-paths of a path that [break_contours] turns into elements. *)
Definition kept_sub_paths `{Host} (raw : path) : list path :=
  filter (fun subPath => match Tree.worth_keeping subPath with
                         | Ok true => true
                         | _ => false
                         end)
         (sub_paths raw).

(** The element is a copy of [element] but for its id and path. *)
Definition copy_of (element n : Tree.node) : Prop :=
  Tree.node_tag n = Tree.node_tag element
  /\ el_style (Tree.node_elem n) = el_style (Tree.node_elem element)
  /\ el_attrib (Tree.node_elem n) = el_attrib (Tree.node_elem element)
  /\ Tree.node_children n = Tree.node_children element.

(** A layer with a compound path of two squares and a text, and a path
    beside the layer. *)
Definition two_squares : path :=
  [M_ 0 0; L_ 1 0; L_ 1 1; L_ 0 0; M_ 5 5; L_ 6 5; L_ 6 6; L_ 5 5].

Definition compound_node : Tree.node :=
  Tree.Node Tree.svg_path (mkElement "p" two_squares (OwnStyle "fill:none") []) [].

Definition layer_node : Tree.node :=
  Tree.Node (Tree.other_tag "g") (mkElement "layer1" [] (OwnStyle "") [])
    [compound_node;
     Tree.Node (Tree.other_tag "text") (mkElement "t" [] (OwnStyle "") []) []].

Definition lone_node : Tree.node :=
  Tree.Node Tree.svg_path (mkElement "q" corner_path (OwnStyle "fill:none") []) [].

Definition svg_node : Tree.node :=
  Tree.Node (Tree.other_tag "svg") (mkElement "svg1" [] (OwnStyle "") [])
    [layer_node; lone_node].

(** The path data of a tree node, and its id. *)
Definition node_path (n : Tree.node) : path := el_path (Tree.node_elem n).
Definition node_id (n : Tree.node) : string := el_id (Tree.node_elem n).

(** A path element with one sub-path of at least two commands. *)
Definition simple_path_element (n : Tree.node) : Prop :=
  Tree.is_path n = true
  /\ (2 <= List.length (node_path n))%nat
  /\ no_inner_M (node_path n).

(** ** Stand-ins for inkex transforms and for shapely's split

    Enough of [inkex.transforms.Transform] to map the points of ['M'] and
    ['L'] commands, and of [shapely.ops.split] to cut a line of two points
    at the points that lie on it. *)

Module Affine.

(** [Transform] applied to a point: the matrix ((a, c, e), (b, d, f)). *)
Definition apply (t : transform) (p : point) : point :=
  let '(a, b, c, d, e, f) := t in
  (a * fst p + c * snd p + e, b * fst p + d * snd p + f).

(** [Path.transform(t)] on commands with one point. *)
Definition path_transform (p : path) (t : transform) : path :=
  map (fun c => match args c with
                | [x; y] => Cmd (letter c) [fst (apply t (x, y)); snd (apply t (x, y))]
                | _ => c
                end) p.

(** [-t]: the inverse matrix. *)
Definition inverse (t : transform) : transform :=
  let '(a, b, c, d, e, f) := t in
  let det := a * d - c * b in
  (d / det, - b / det, - c / det, a / det,
   (c * f - d * e) / det, (b * e - a * f) / det).

End Affine.

Module Cutting.

(** [p] lies on the segment from [a] to [b], away from its two ends. *)
Definition inside (a b p : point) : bool :=
  let r := Isect.sub b a in
  let v := Isect.sub p a in
  Qeq_bool (Isect.cross r v) 0
  && negb (Qle_bool (Isect.dot v r) 0)
  && negb (Qle_bool (Isect.dot r r) (Isect.dot v r)).

(** The cut points found so far, in their order along the line from [a],
    with [p] put in its place. *)
Fixpoint insert_cut (a b p : point) (cuts : list point) : list point :=
  match cuts with
  | [] => [p]
  | c :: cs =>
      let r := Isect.sub b a in
      if Isect.point_eqb p c then cuts
      else if Qle_bool (Isect.dot (Isect.sub p a) r) (Isect.dot (Isect.sub c a) r)
           then p :: cuts
           else c :: insert_cut a b p cs
  end.

Definition cuts (a b : point) (pts : list point) : list point :=
  fold_left (fun acc p => if inside a b p then insert_cut a b p acc else acc) pts [].

(** The pieces from [a] to [b] through the cut points. *)
Fixpoint chain (a : point) (cs : list point) (b : point) : list (list point) :=
  match cs with
  | [] => [[a; b]]
  | c :: cs' => [a; c] :: chain c cs' b
  end.

(** [split(line, points)] for a line of two points: the line is cut at
    every point that lies on it between its ends, and the pieces come in
    their order along the line; a point off the line or at one of its ends
    cuts nothing. *)
Definition split (ls pts : list point) : list (list point) :=
  match ls with
  | [a; b] => chain a (cuts a b pts) b
  | _ => [ls]
  end.

End Cutting.

(** The same libraries with another [split]. *)
Definition with_split (f : list point -> list point -> list (list point)) (H : Host)
  : Host :=
  {| isect_segments := @isect_segments H;
     CubicSuperPath := @CubicSuperPath H;
     to_segments := @to_segments H;
     cspsubdiv := @cspsubdiv H;
     csplength := @csplength H;
     to_arrays := @to_arrays H;
     path_transform := @path_transform H;
     composed_transform := @composed_transform H;
     neg_transform := @neg_transform H;
     pyround := @pyround H;
     unittouu_px := @unittouu_px H;
     unique_suffix := @unique_suffix H;
     snap := @snap H;
     split := f |}.

(** The same libraries with affine transforms, [composed] giving the
    composed transform of each element. *)
Definition with_transforms (composed : string -> transform) (H : Host) : Host :=
  {| isect_segments := @isect_segments H;
     CubicSuperPath := @CubicSuperPath H;
     to_segments := @to_segments H;
     cspsubdiv := @cspsubdiv H;
     csplength := @csplength H;
     to_arrays := @to_arrays H;
     path_transform := Affine.path_transform;
     composed_transform := composed;
     neg_transform := Affine.inverse;
     pyround := @pyround H;
     unittouu_px := @unittouu_px H;
     unique_suffix := @unique_suffix H;
     snap := @snap H;
     split := @split H |}.

(** The reference libraries with a [split] that cuts. *)
Definition cutting_host : Host := with_split Cutting.split reference_host.

(** The options with another [--trimming_path_types]. *)
Definition with_trimming_path_types (t : path_types) (so : options) : options :=
  mkOptions (show_debug so) (break_apart so) (handle_groups so) t
    (flattenbezier so) (flatness so) (decimals so) (snap_tolerance so)
    (remove_relative so) (remove_absolute so) (remove_mixed so) (remove_polylines so)
    (remove_beziers so) (remove_opened so) (remove_closed so) (remove_self_intersecting so)
    (highlight_relative so) (highlight_absolute so) (highlight_mixed so)
    (highlight_polylines so) (highlight_beziers so) (highlight_opened so)
    (highlight_closed so) (highlight_self_intersecting so) (draw_subsplit so)
    (visualize_self_intersections_opt so) (visualize_global_intersections_opt so)
    (draw_trimmed so) (combine_nonintersects_opt so) (remove_duplicates_opt so)
    (reverse_removal_order so) (keep_original_after_trim so) (strokewidth so)
    (dotsize_intersections so) (removefillsetstroke so) (bezier_trimming so)
    (apply_style_to_subsplits so) (apply_style_to_trimmed so).

(** The options with another [--break_apart]. *)
Definition with_break_apart (b : bool) (so : options) : options :=
  mkOptions (show_debug so) b (handle_groups so) (trimming_path_types so)
    (flattenbezier so) (flatness so) (decimals so) (snap_tolerance so)
    (remove_relative so) (remove_absolute so) (remove_mixed so) (remove_polylines so)
    (remove_beziers so) (remove_opened so) (remove_closed so) (remove_self_intersecting so)
    (highlight_relative so) (highlight_absolute so) (highlight_mixed so)
    (highlight_polylines so) (highlight_beziers so) (highlight_opened so)
    (highlight_closed so) (highlight_self_intersecting so) (draw_subsplit so)
    (visualize_self_intersections_opt so) (visualize_global_intersections_opt so)
    (draw_trimmed so) (combine_nonintersects_opt so) (remove_duplicates_opt so)
    (reverse_removal_order so) (keep_original_after_trim so) (strokewidth so)
    (dotsize_intersections so) (removefillsetstroke so) (bezier_trimming so)
    (apply_style_to_subsplits so) (apply_style_to_trimmed so).

(** Trimming of open and closed paths alike. *)
Definition trim_both_options : options :=
  with_trimming_path_types both trimming_options.

(** A layer scaled by two and moved ten to the right, with two lines in it
    that cross at (1,0): [a] from (0,0) to (2,0) and [b] from (1,-1) to
    (1,1), in the coordinates of the layer.  The lines have no transform of
    their own, so the composed transform of each is that of the layer. *)
Definition layer_transform : transform := (2, 0, 0, 2, 10, 0).

Definition crossing_transforms (eid : string) : transform :=
  if String.eqb eid "layer" || String.eqb eid "a" || String.eqb eid "b"
  then layer_transform else Plain.identity.

Definition crossing_host : Host := with_transforms crossing_transforms cutting_host.

Definition path_in_layer (eid : string) (p : path) : pathElement :=
  mkPathElement (InGroup "layer") (mkElement eid p (OwnStyle "stroke:#000000") []).

Definition crossing_world : world :=
  world_of (mkDoc [path_in_layer "a" [M_ 0 0; L_ 2 0];
                   path_in_layer "b" [M_ 1 (-1); L_ 1 1]]
                  [mkGroup "layer" Root [] []] []).

(** Python [==] on two lists of paths. *)
Fixpoint paths_eqb (ps qs : list path) : bool :=
  match ps, qs with
  | [], [] => true
  | p :: ps', q :: qs' => path_eqb p q && paths_eqb ps' qs'
  | _, _ => false
  end.

(** The paths of the trim lines in the group [gid], when the document has
    one group of that id. *)
Definition trim_paths (d : document) (gid : string) : option (list path) :=
  match filter (fun g => negb (is_detached (g_parent g)) && String.eqb (g_id g) gid)
               (d_groups d) with
  | [g] => Some (map el_path (g_children g))
  | _ => None
  end.

(** ** The ids [build_trim_line_group] works with *)

(** The part of [s] before the first occurrence of [sep], all of [s] when
    there is none: [s.split(sep)[0]]. *)
Fixpoint before_str (sep s : string) : string :=
  match s with
  | EmptyString => EmptyString
  | String c s' =>
      if PyStr.startswith sep s then EmptyString else String c (before_str sep s')
  end.

(** The id of the trim group of a sub split line of the path
    [originalPathId] (line 255): the id of the line up to its first
    underscore, after ['shapely-']. *)
Definition trim_group_id (originalPathId : string) : string :=
  ("shapely-" ++ idPrefix ++ "-" ++ before_char "_" originalPathId)%string.

(** The id under which the original path is looked up (lines 256 and 257):
    what follows the first ['subsplit-'] in the id of the line, up to the
    next ['subsplit-'] and up to the first underscore. *)
Definition trim_group_parent_id (originalPathId : string) : string :=
  before_char "_" (before_str (idPrefix ++ "-") originalPathId).

(** [trimLines]: the pieces [split] makes of the sub split line from [a]
    to [b] once it is snapped to the intersection points. *)
Definition trim_pieces `{Host} (so : options) (a b : point)
    (globalIntersectionPoints : list point) : list (list point) :=
  split (snap [a; b] globalIntersectionPoints (snap_tolerance so))
        globalIntersectionPoints.

(** The ids [visualize_self_intersections] and
    [visualize_global_intersections] give to the groups they add. *)
Definition is_marker_id (s : string) : bool :=
  PyStr.startswith "selfIntersectionPoints-" s || String.eqb s "globalIntersectionPoints".

(** What the merged path is to be by the words of the specification: the
    commands of [segData] without those that have the arguments of the
    command just before them.  The loop of the source is [collapse]. *)
Definition without_repeats (segData : path) : path :=
  match segData with
  | [] => []
  | c0 :: rest =>
      c0 :: map snd (filter (fun pc => negb (args_eqb (args (snd pc)) (args (fst pc))))
                            (combine segData rest))
  end.

(** A square under the root whose id contains the verb of the marking, and
    its first sub split line. *)
Definition verb_world : world :=
  world_of (mkDoc [path_in_root "p-intersected-q" square_path] [] []).

Definition verb_line : element :=
  mkElement "subsplit-p-intersected-q_0" [M_ 0 0; L_ 10 0] basicSubSplitLineStyle
    [("originalPathId", "p-intersected-q"); ("originalPathIsRelative", "False");
     ("originalPathIsAbsolute", "True"); ("originalPathIsMixed", "False");
     ("originalPathIsBezier", "False"); ("originalPathIsClosed", "True");
     ("originalPathStyle", "stroke:#000000")]%string.

(** The document of [adjoining_pieces] with the markers of one global
    intersection point. *)
Definition marked_document : document :=
  mkDoc [] (d_groups adjoining_pieces)
    [mkMarkers "globalIntersectionPoints" Root
       [mkCircle "globalIntersectionPoint-0" 1 0 15 None globalIntersectionPointStyle]].


(** ** Rebuilding a segment from its pieces *)

(** The first and the last point of a path of straight lines. *)
Definition end_points (p : path) : option (point * point) :=
  match p with
  | c0 :: _ :: _ =>
      match args c0, args (last p c0) with
      | [x0; y0], [x1; y1] => Some ((x0, y0), (x1, y1))
      | _, _ => None
      end
  | _ => None
  end.

(** The two points are within [tol] of each other in both coordinates. *)
Definition near (tol : Q) (p q : point) : bool :=
  Qle_bool (Qabs (fst p - fst q)) tol && Qle_bool (Qabs (snd p - snd q)) tol.

(** The square of the distance between the two end points. *)
Definition length2 (p : path) : option Q :=
  match end_points p with
  | Some (first, final) =>
      Some ((fst final - fst first) * (fst final - fst first)
            + (snd final - snd first) * (snd final - snd first))
  | None => None
  end.

(** [length2] gives the number [q]. *)
Definition has_length2 (q : Q) (p : path) : bool :=
  match length2 p with
  | Some l => Qeq_bool l q
  | None => false
  end.

(** The pieces, taken in order, lead from [a] to [b]: the first begins at
    [a], each begins where the one before it ends, and the last ends at
    [b], all within [tol]. *)
Fixpoint leads (tol : Q) (a b : point) (pieces : list path) : bool :=
  match pieces with
  | [] => false
  | p :: rest =>
      match end_points p with
      | Some (first, final) =>
          near tol a first
          && match rest with
             | [] => near tol final b
             | _ :: _ => leads tol final b rest
             end
      | None => false
      end
  end.

(** ** Breaking apart in the document *)

(** The copies [break_contours] makes of the element [original], one for each of the
    sub-paths [kept], numbered from [idSuffix] on. *)
Definition copies (original : element) (idSuffix : nat) (kept : list path)
  : list element :=
  map (fun js => mkElement (el_id original ++ str_nat (fst js)) (snd js)
                           (el_style original) (el_attrib original))
      (combine (seq idSuffix (List.length kept)) kept).

(** The defaults with [--break_apart=true]. *)
Definition break_apart_options : options := with_break_apart true default_options.

(** The compound path of two squares under the root. *)
Definition compound_world : world :=
  world_of (mkDoc [path_in_root "p" two_squares] [] []).

(** * Properties *)

(** ** Equality of coordinates, commands and paths *)

Lemma args_eqb_refl (a : list Q) : args_eqb a a = true.
Proof.
  induction a as [|x a IH]; simpl; [reflexivity|].
  rewrite IH, andb_true_r. apply Qeq_bool_iff. reflexivity.
Qed.

Lemma args_eqb_sym (a b : list Q) : args_eqb a b = args_eqb b a.
Proof.
  revert b; induction a as [|x a IH]; intros [|y b]; simpl; try reflexivity.
  rewrite IH. f_equal.
  destruct (Qeq_bool x y) eqn:E, (Qeq_bool y x) eqn:E'; try reflexivity.
  - apply Qeq_bool_iff in E. symmetry in E. apply Qeq_bool_iff in E. congruence.
  - apply Qeq_bool_iff in E'. symmetry in E'. apply Qeq_bool_iff in E'. congruence.
Qed.

Lemma args_eqb_trans (a b c : list Q) :
  args_eqb a b = true -> args_eqb b c = true -> args_eqb a c = true.
Proof.
  revert b c; induction a as [|x a IH]; intros [|y b] [|z c]; simpl; try congruence.
  intros H1 H2.
  apply andb_true_iff in H1 as [Hxy Hab]. apply andb_true_iff in H2 as [Hyz Hbc].
  apply andb_true_iff; split; [|eauto].
  apply Qeq_bool_iff in Hxy, Hyz. apply Qeq_bool_iff. now rewrite Hxy.
Qed.

Lemma args_eqb_eq (a b : list Q) : args_eqb a b = true <-> args_eq a b.
Proof.
  unfold args_eq. revert b; induction a as [|x a IH]; intros [|y b]; simpl.
  - split; [constructor | reflexivity].
  - split; [discriminate | inversion 1].
  - split; [discriminate | inversion 1].
  - rewrite andb_true_iff, Qeq_bool_iff, IH. split.
    + intros [? ?]; constructor; assumption.
    + inversion 1; subst; split; assumption.
Qed.

Lemma command_eqb_refl (c : command) : command_eqb c c = true.
Proof. unfold command_eqb. now rewrite Ascii.eqb_refl, args_eqb_refl. Qed.

Lemma command_eqb_sym (c d : command) : command_eqb c d = command_eqb d c.
Proof. unfold command_eqb. now rewrite Ascii.eqb_sym, args_eqb_sym. Qed.

Lemma command_eqb_trans (c d e : command) :
  command_eqb c d = true -> command_eqb d e = true -> command_eqb c e = true.
Proof.
  unfold command_eqb. rewrite !andb_true_iff, !Ascii.eqb_eq.
  intros [-> Hcd] [-> Hde]. split; [reflexivity | eapply args_eqb_trans; eassumption].
Qed.

Lemma path_eqb_refl (p : path) : path_eqb p p = true.
Proof. induction p; simpl; [reflexivity | now rewrite command_eqb_refl]. Qed.

Lemma path_eqb_sym (p q : path) : path_eqb p q = path_eqb q p.
Proof.
  revert q; induction p as [|c p IH]; intros [|d q]; simpl; try reflexivity.
  now rewrite command_eqb_sym, IH.
Qed.

Lemma path_eqb_trans (p q r : path) :
  path_eqb p q = true -> path_eqb q r = true -> path_eqb p r = true.
Proof.
  revert q r; induction p as [|c p IH]; intros [|d q] [|e r]; simpl; try congruence.
  rewrite !andb_true_iff. intros [? ?] [? ?].
  split; [eapply command_eqb_trans | eapply IH]; eassumption.
Qed.

Lemma path_in_app (p : path) (l l' : list path) :
  path_in p (l ++ l') = path_in p l || path_in p l'.
Proof. unfold path_in. apply existsb_app. Qed.

(** ** The recombiner's collapse of repeated points *)

Lemma collapse_from_no_repeat (rest : path) :
  forall lastKept prev,
    args_eqb (args prev) (args lastKept) = true ->
    no_repeated_point (lastKept :: collapse_from prev rest).
Proof.
  induction rest as [|c rest IH]; intros lastKept prev Hprev; [exact I|].
  cbn [collapse_from].
  destruct (args_eqb (args c) (args prev)) eqn:E; cbn [negb].
  - apply IH. eapply args_eqb_trans; eassumption.
  - change (args_eqb (args c) (args lastKept) = false
            /\ no_repeated_point (c :: collapse_from c rest)).
    split.
    + destruct (args_eqb (args c) (args lastKept)) eqn:E'; [|reflexivity].
      rewrite args_eqb_sym in Hprev.
      rewrite (args_eqb_trans _ _ _ E' Hprev) in E. discriminate.
    + apply IH. apply args_eqb_refl.
Qed.

(** ** Object store *)

Lemma nth_error_update_nth_same {A} (f : A -> A) (l : list A) (n : nat) :
  nth_error (update_nth n f l) n = option_map f (nth_error l n).
Proof.
  revert n; induction l as [|x l IH]; intros [|n]; simpl; try reflexivity. apply IH.
Qed.

Lemma nth_error_update_nth_other {A} (f : A -> A) (l : list A) (n m : nat) :
  n <> m -> nth_error (update_nth n f l) m = nth_error l m.
Proof.
  revert n m; induction l as [|x l IH]; intros [|n] [|m] Hnm; simpl;
    try reflexivity; try congruence.
  apply IH. congruence.
Qed.

Lemma update_nth_fixed {A} (f : A -> A) (l : list A) (n : nat) (x : A) :
  nth_error l n = Some x -> f x = x -> update_nth n f l = l.
Proof.
  revert n; induction l as [|y l IH]; intros [|n]; simpl; try discriminate.
  - intros [= ->] ->. reflexivity.
  - intros Hn Hf. f_equal. eauto.
Qed.

Lemma update_group_fixed (f : group -> group) (d : document) (g : nat) (grp : group) :
  nth_error (d_groups d) g = Some grp -> f grp = grp -> update_group g f d = d.
Proof.
  intros Hg Hf. unfold update_group. rewrite (update_nth_fixed f _ _ _ Hg Hf).
  destruct d; reflexivity.
Qed.

(** ** The deduplicator *)

Lemma dedup_children_kept (so : options) (cs : list element) :
  forall seen kept seen' ms,
    dedup_children so seen cs = (kept, seen', ms) ->
    all_new seen kept /\ seen' = seen ++ map el_path kept.
Proof.
  induction cs as [|e cs IH]; intros seen kept seen' ms; cbn [dedup_children].
  - intros [= <- <- _]. split; [exact I | now rewrite app_nil_r].
  - destruct (path_in (el_path e) seen) eqn:E; cbn [negb].
    + destruct (dedup_children so seen cs) as [[k s] m] eqn:R.
      intros [= <- <- _]. eapply IH; eassumption.
    + destruct (dedup_children so (seen ++ [el_path e]) cs) as [[k s] m] eqn:R.
      intros [= <- <- _]. destruct (IH _ _ _ _ R) as [Hnew ->].
      split; [split; assumption|]. cbn [map]. now rewrite <- app_assoc.
Qed.

Lemma dedup_children_all_new (so : options) (cs : list element) :
  forall seen, all_new seen cs ->
    dedup_children so seen cs = (cs, seen ++ map el_path cs, []).
Proof.
  induction cs as [|e cs IH]; intros seen; cbn [all_new dedup_children map].
  - intros _. now rewrite app_nil_r.
  - intros [Hin Hrest]. rewrite Hin. cbn [negb]. rewrite (IH _ Hrest).
    now rewrite <- app_assoc.
Qed.

Lemma seen_within_snoc (seen' seen : list path) (p : path) :
  seen_within seen' seen -> seen_within (seen' ++ [p]) (seen ++ [p]).
Proof.
  intros Hsub q. rewrite !path_in_app, !orb_true_iff. intros [Hq | Hq]; auto.
Qed.

Lemma all_new_within (cs : list element) :
  forall seen seen', all_new seen cs -> seen_within seen' seen -> all_new seen' cs.
Proof.
  induction cs as [|e cs IH]; intros seen seen'; cbn [all_new]; [trivial|].
  intros [Hin Hrest] Hsub. split.
  - destruct (path_in (el_path e) seen') eqn:E; [|reflexivity].
    apply Hsub in E. congruence.
  - eapply IH; [eassumption | now apply seen_within_snoc].
Qed.

Lemma dedup_children_all_seen (so : options) (cs : list element) (seen : list path) :
  (forall c, In c cs -> path_in (el_path c) seen = true) ->
  exists ms, dedup_children so seen cs = ([], seen, ms).
Proof.
  induction cs as [|e cs IH]; intros Hall; cbn [dedup_children].
  - eexists; reflexivity.
  - rewrite (Hall e (or_introl eq_refl)). cbn [negb].
    destruct IH as [ms ->]; [intros c Hc; apply Hall; now right|].
    eexists; reflexivity.
Qed.

Lemma path_in_own (cs : list element) (seen : list path) (c : element) :
  In c cs -> path_in (el_path c) (seen ++ map el_path cs) = true.
Proof.
  intros Hc. rewrite path_in_app. apply orb_true_iff. right.
  unfold path_in. apply existsb_exists. exists (el_path c). split.
  - now apply in_map.
  - apply path_eqb_refl.
Qed.

Lemma dedup_groups_missing (so : options) (seen : list path) (g : nat) (gs : list nat)
    (d : document) :
  nth_error (d_groups d) g = None ->
  dedup_groups so seen (g :: gs) d = dedup_groups so seen gs d.
Proof. intros Hg. cbn [dedup_groups]. now rewrite Hg. Qed.

Lemma dedup_groups_step (so : options) (seen : list path) (g : nat) (gs : list nat)
    (d : document) (grp : group) (kept : list element) (seen1 : list path)
    (ms : list message) :
  nth_error (d_groups d) g = Some grp ->
  dedup_children so seen (g_children grp) = (kept, seen1, ms) ->
  fst (dedup_groups so seen (g :: gs) d)
  = fst (dedup_groups so seen1 gs (keep_children g kept d)).
Proof.
  intros Hg Hc. cbn [dedup_groups]. rewrite Hg, Hc.
  destruct (dedup_groups so seen1 gs (keep_children g kept d)); reflexivity.
Qed.

(** The group [g] once its children were gone through. *)
Lemma keep_children_same (g : nat) (kept : list element) (d : document) (grp : group) :
  nth_error (d_groups d) g = Some grp ->
  nth_error (d_groups (keep_children g kept d)) g
  = Some (if (List.length kept =? 0)%nat
          then detach_group (set_children kept grp) else set_children kept grp).
Proof.
  intros Hg. unfold keep_children.
  destruct (List.length kept =? 0)%nat; cbn [update_group d_groups];
    rewrite !nth_error_update_nth_same, Hg; reflexivity.
Qed.

Lemma keep_children_other (g h : nat) (kept : list element) (d : document) :
  g <> h ->
  nth_error (d_groups (keep_children g kept d)) h = nth_error (d_groups d) h.
Proof.
  intros Hgh. unfold keep_children.
  destruct (List.length kept =? 0)%nat; cbn [update_group d_groups];
    rewrite !nth_error_update_nth_other by assumption; reflexivity.
Qed.

Lemma keep_children_fixed (g : nat) (d : document) (grp : group) :
  nth_error (d_groups d) g = Some grp ->
  (g_children grp = [] -> g_parent grp = Detached) ->
  keep_children g (g_children grp) d = d.
Proof.
  intros Hg Hempty. unfold keep_children.
  assert (Hset : update_group g (set_children (g_children grp)) d = d).
  { eapply update_group_fixed; [eassumption|]. destruct grp; reflexivity. }
  rewrite Hset.
  destruct (List.length (g_children grp) =? 0)%nat eqn:E; [|reflexivity].
  eapply update_group_fixed; [eassumption|].
  apply Nat.eqb_eq, length_zero_iff_nil in E.
  specialize (Hempty E). destruct grp; cbn in *. subst. reflexivity.
Qed.

(** A group all of whose pieces are already in [totalTrimPaths] is either
    not visited, or ends empty and deleted. *)
Lemma dedup_groups_seen_group (so : options) (gs : list nat) :
  forall seen d g grp,
    nth_error (d_groups d) g = Some grp ->
    (forall c, In c (g_children grp) -> path_in (el_path c) seen = true) ->
    (g_children grp = [] -> g_parent grp = Detached) ->
    exists grp',
      nth_error (d_groups (fst (dedup_groups so seen gs d))) g = Some grp'
      /\ (grp' = grp \/ (g_children grp' = [] /\ g_parent grp' = Detached)).
Proof.
  induction gs as [|h gs IH]; intros seen d g grp Hg Hseen Hempty.
  - exists grp. split; [exact Hg | now left].
  - destruct (nth_error (d_groups d) h) as [hgrp|] eqn:Hh.
    2:{ rewrite dedup_groups_missing by assumption. eapply IH; eassumption. }
    destruct (Nat.eq_dec h g) as [->|Hne].
    + assert (hgrp = grp) by congruence. subst hgrp.
      destruct (dedup_children_all_seen so _ _ Hseen) as [ms Hc].
      rewrite (dedup_groups_step _ _ _ _ _ _ _ _ _ Hh Hc).
      pose proof (keep_children_same g [] d grp Hg) as Hg'.
      change (nth_error (d_groups (keep_children g [] d)) g
              = Some (detach_group (set_children [] grp))) in Hg'.
      destruct (IH seen _ g _ Hg') as [grp' [Hn Hor]].
      * intros c [].
      * reflexivity.
      * exists grp'. split; [exact Hn|]. right.
        destruct Hor as [-> | Hor]; [split; reflexivity | exact Hor].
    + destruct (dedup_children so seen (g_children hgrp)) as [[kept seen1] ms] eqn:Hc.
      rewrite (dedup_groups_step _ _ _ _ _ _ _ _ _ Hh Hc).
      destruct (dedup_children_kept _ _ _ _ _ _ Hc) as [_ ->].
      eapply IH.
      * rewrite keep_children_other by assumption. exact Hg.
      * intros c Hin. rewrite path_in_app, (Hseen c Hin). reflexivity.
      * assumption.
Qed.

Lemma dedup_groups_length (so : options) (gs : list nat) :
  forall seen d g,
    nth_error (d_groups d) g = None ->
    nth_error (d_groups (fst (dedup_groups so seen gs d))) g = None.
Proof.
  induction gs as [|h gs IH]; intros seen d g Hg; [exact Hg|].
  destruct (nth_error (d_groups d) h) as [hgrp|] eqn:Hh.
  2:{ rewrite dedup_groups_missing by assumption. now apply IH. }
  destruct (dedup_children so seen (g_children hgrp)) as [[kept seen1] ms] eqn:Hc.
  rewrite (dedup_groups_step _ _ _ _ _ _ _ _ _ Hh Hc). apply IH.
  destruct (Nat.eq_dec h g) as [->|Hne]; [congruence|].
  now rewrite keep_children_other.
Qed.

(** A second pass that starts from no more than the first pass had seen
    removes nothing. *)
Lemma dedup_groups_again (so : options) (gs : list nat) :
  forall seen seen0 d,
    seen_within seen0 seen ->
    fst (dedup_groups so seen0 gs (fst (dedup_groups so seen gs d)))
    = fst (dedup_groups so seen gs d).
Proof.
  induction gs as [|g gs IH]; intros seen seen0 d Hsub; [reflexivity|].
  destruct (nth_error (d_groups d) g) as [grp|] eqn:Hg.
  2:{ rewrite (dedup_groups_missing so seen) by assumption.
      rewrite dedup_groups_missing by (now apply dedup_groups_length).
      now apply IH. }
  destruct (dedup_children so seen (g_children grp)) as [[kept seen1] ms] eqn:Hc.
  rewrite (dedup_groups_step _ _ _ _ _ _ _ _ _ Hg Hc).
  destruct (dedup_children_kept _ _ _ _ _ _ Hc) as [Hnew ->].
  pose proof (keep_children_same g kept d grp Hg) as Hg2.
  set (grp2 := if (List.length kept =? 0)%nat
               then detach_group (set_children kept grp)
               else set_children kept grp) in Hg2.
  assert (Hk2 : g_children grp2 = kept).
  { subst grp2. destruct (List.length kept =? 0)%nat; reflexivity. }
  assert (He2 : g_children grp2 = [] -> g_parent grp2 = Detached).
  { subst grp2. destruct kept; [reflexivity | discriminate]. }
  destruct (dedup_groups_seen_group so gs (seen ++ map el_path kept) _ g grp2 Hg2)
    as [grp' [Hn Hor]].
  { rewrite Hk2. intros c Hin. now apply path_in_own. }
  { exact He2. }
  set (d' := fst (dedup_groups so (seen ++ map el_path kept) gs (keep_children g kept d)))
    in *.
  destruct Hor as [-> | [Hnil Hdet]].
  - assert (Hc' : dedup_children so seen0 (g_children grp2)
                  = (g_children grp2, seen0 ++ map el_path (g_children grp2), [])).
    { apply dedup_children_all_new. rewrite Hk2. eapply all_new_within; eassumption. }
    rewrite (dedup_groups_step _ _ _ _ _ _ _ _ _ Hn Hc').
    rewrite (keep_children_fixed _ _ _ Hn He2). rewrite Hk2.
    subst d'. apply IH.
    intros p. rewrite !path_in_app, !orb_true_iff. intros [Hp | Hp]; auto.
  - assert (Hc' : dedup_children so seen0 (g_children grp') = ([], seen0, [])).
    { rewrite Hnil. reflexivity. }
    rewrite (dedup_groups_step _ _ _ _ _ _ _ _ _ Hn Hc').
    rewrite <- Hnil at 1. rewrite (keep_children_fixed _ _ _ Hn (fun _ => Hdet)).
    subst d'. apply IH.
    intros p Hp. rewrite path_in_app, (Hsub p Hp). reflexivity.
Qed.

(** ** Ids and the intersected marking *)

Lemma startswith_app (p s : string) : PyStr.startswith p (p ++ s) = true.
Proof. induction p as [|c p IH]; cbn; [reflexivity | now rewrite Ascii.eqb_refl]. Qed.

Lemma contains_prefix (sub s : string) : PyStr.contains sub (sub ++ s) = true.
Proof.
  destruct (sub ++ s)%string eqn:E; cbn; rewrite <- E, startswith_app; reflexivity.
Qed.

Lemma contains_app_r (sub a s : string) :
  PyStr.contains sub s = true -> PyStr.contains sub (a ++ s) = true.
Proof.
  intros Hs. induction a as [|c a IH]; [exact Hs|].
  cbn. rewrite IH. apply orb_true_r.
Qed.

Lemma update_last_snoc {A} (f : A -> A) (l : list A) (x : A) :
  update_last f (l ++ [x]) = l ++ [f x].
Proof.
  induction l as [|y l IH]; [reflexivity|].
  cbn [app update_last]. rewrite IH. destruct (l ++ [x]) eqn:E; [|reflexivity].
  destruct l; discriminate.
Qed.

Lemma count_occ_repeat_snoc (s : string) (n : nat) :
  count_occ string_dec (repeat s n ++ [s]) s = S n.
Proof.
  rewrite count_occ_app, count_occ_repeat_eq by reflexivity.
  cbn. destruct (string_dec s s); [lia | congruence].
Qed.

Section TrimLines.
Context `{Host}.
Variables (so : options) (subSplitLine : element) (trimGroupId : string)
          (subSplitIndex : nat) (T : transform).

Hypothesis style_known :
  apply_style_to_trimmed so = true ->
  attr "originalPathStyle" (el_attrib subSplitLine) <> None.

Lemma trim_line_step_inv (n : nat) (piece : list point)
    (st : list string * list element) (w : world) :
  trim_inv trimGroupId subSplitIndex n st -> (2 <= List.length piece)%nat ->
  exists st' w',
    trim_line_step so subSplitLine trimGroupId subSplitIndex T piece st w = (Ok st', w')
    /\ trim_inv trimGroupId subSplitIndex (S n) st'.
Proof.
  intros (Hsplit & Hlen & Hmarked & Hplain & Hflag) Hpiece.
  destruct piece as [|p0 [|p1 piece]]; cbn in Hpiece; try lia.
  assert (Hsty : exists sty, forall w0,
             (if apply_style_to_trimmed so
              then bind (attrib_get "originalPathStyle" subSplitLine)
                        (fun s => ret (OwnStyle s))
              else ret trimLineStyle) w0 = (Ok sty, w0)).
  { destruct (apply_style_to_trimmed so) eqn:E.
    - specialize (style_known eq_refl). unfold attrib_get, bind.
      destruct (attr "originalPathStyle" (el_attrib subSplitLine)) as [v|];
        [|congruence].
      exists (OwnStyle v). reflexivity.
    - exists trimLineStyle. reflexivity. }
  destruct Hsty as [sty Hsty].
  unfold trim_line_step. rewrite Hsplit, count_occ_repeat_snoc.
  destruct n as [|n].
  - (* the first piece: plain id *)
    cbn [Nat.ltb Nat.leb]. unfold bind at 1. cbn [ret index nth_error fst snd].
    unfold bind at 1. cbn [ret]. unfold bind at 1. cbn [ret].
    unfold bind at 1. rewrite Hsty. cbn [ret].
    eexists _, _. split; [reflexivity|].
    destruct st as [sa added]. cbn in Hlen. apply length_zero_iff_nil in Hlen. subst added.
    split; [|split; [|split; [|split]]]; cbn [fst snd app List.length repeat].
    + reflexivity.
    + reflexivity.
    + intros; lia.
    + intros _. repeat constructor.
    + intros _. eexists [], _. repeat split. constructor.
  - (* a later piece: this line and the one before get the verb *)
    replace (1 <? S (S n))%nat with true by (symmetry; apply Nat.ltb_lt; lia).
    unfold bind at 1. unfold bind at 1. unfold get_unique_id at 1.
    cbn [w_next_id w_doc w_msgs]. unfold bind at 1. unfold get_unique_id at 1.
    cbn [w_next_id w_doc w_msgs ret fst snd index nth_error].
    unfold bind at 1. cbn [ret]. unfold bind at 1. cbn [ret].
    unfold bind at 1. rewrite Hsty. cbn [ret].
    eexists _, _. split; [reflexivity|].
    destruct st as [sa added]. cbn [fst snd] in *.
    destruct Hflag as (front & lastLine & -> & Hfront & Hlast); [lia|].
    rewrite update_last_snoc.
    split; [|split; [|split; [|split]]]; cbn [fst snd].
    + now rewrite <- repeat_cons.
    + rewrite !length_app in *. cbn [List.length] in *. lia.
    + intros _. apply Forall_app. split; [apply Forall_app; split|].
      * destruct n as [|n].
        -- destruct front; [constructor|].
           rewrite length_app in Hlen. cbn in Hlen. lia.
        -- specialize (Hmarked ltac:(lia)). apply Forall_app in Hmarked. tauto.
      * constructor; [|constructor].
        unfold mark_intersected, marked_intersected. cbn [el_id].
        do 3 apply contains_app_r. apply contains_prefix.
      * constructor; [|constructor].
        unfold marked_intersected. cbn [el_id].
        apply contains_app_r, contains_prefix.
    + intros [=].
    + intros _. eexists (front ++ [_]), _. split; [reflexivity|]. split; [|reflexivity].
      apply Forall_app. split; [assumption|]. constructor; [|constructor].
      unfold flagged_intersected, mark_intersected. cbn [el_attrib]. now rewrite Hlast.
Qed.

Lemma trim_lines_fold_inv (trimLines : list (list point)) :
  forall n st w,
    trim_inv trimGroupId subSplitIndex n st ->
    (forall piece, In piece trimLines -> (2 <= List.length piece)%nat) ->
    exists st' w',
      for_fold trimLines
        (trim_line_step so subSplitLine trimGroupId subSplitIndex T) st w = (Ok st', w')
      /\ trim_inv trimGroupId subSplitIndex (n + List.length trimLines) st'.
Proof.
  induction trimLines as [|piece rest IH]; intros n st w Hinv Hpieces.
  - exists st, w. split; [reflexivity|]. now rewrite Nat.add_0_r.
  - destruct (trim_line_step_inv n piece st w Hinv) as (st1 & w1 & Hstep & Hinv1).
    { apply Hpieces. now left. }
    destruct (IH (S n) st1 w1 Hinv1) as (st' & w' & Hfold & Hinv').
    { intros p Hp. apply Hpieces. now right. }
    exists st', w'. split.
    + cbn [for_fold]. unfold bind at 1. rewrite Hstep. exact Hfold.
    + cbn [List.length]. now rewrite Nat.add_succ_r.
Qed.

Lemma trim_inv_start : trim_inv trimGroupId subSplitIndex 0 ([], []).
Proof.
  split; [reflexivity|]. split; [reflexivity|].
  split; [intros; lia|]. split; [discriminate | intros; lia].
Qed.

(** The loop over [trimLines] runs to its end when every piece has two
    coordinates, and its lines satisfy the invariant. *)
Lemma trim_lines_inv (trimLines : list (list point)) (w : world) :
  (forall piece, In piece trimLines -> (2 <= List.length piece)%nat) ->
  exists added w',
    trim_lines so subSplitLine trimGroupId subSplitIndex T trimLines w = (Ok added, w')
    /\ trim_inv trimGroupId subSplitIndex (List.length trimLines)
                (repeat trimGroupId (List.length trimLines), added).
Proof.
  intros Hpieces.
  destruct (trim_lines_fold_inv trimLines 0 ([], []) w trim_inv_start Hpieces)
    as ([sa added] & w' & Hfold & Hinv).
  exists added, w'. unfold trim_lines, bind. rewrite Hfold. split; [reflexivity|].
  cbn [Nat.add] in Hinv. destruct Hinv as (Hsa & Hrest). cbn [fst] in Hsa. subst sa.
  split; [reflexivity | exact Hrest].
Qed.

End TrimLines.

Lemma update_last_map {A B} (g : A -> B) (f : A -> A) (l : list A) :
  (forall x, g (f x) = g x) -> map g (update_last f l) = map g l.
Proof.
  intros Hf. induction l as [|x [|y l] IH]; cbn [update_last map] in *.
  - reflexivity.
  - now rewrite Hf.
  - now rewrite IH.
Qed.

(** A turn of the loop adds the path of its piece and changes no path
    written before. *)
Lemma trim_line_step_paths `{Host} (so : options) (subSplitLine : element)
    (trimGroupId : string) (subSplitIndex : nat) (T : transform) (piece : list point)
    (st st' : list string * list element) (w w' : world) :
  trim_line_step so subSplitLine trimGroupId subSplitIndex T piece st w = (Ok st', w') ->
  map el_path (snd st') = map el_path (snd st) ++ [piece_path T piece].
Proof.
  unfold trim_line_step.
  destruct (1 <? count_occ string_dec (fst st ++ [trimGroupId]) trimGroupId)%nat.
  - unfold bind at 1. unfold bind at 1. unfold get_unique_id at 1.
    unfold bind at 1. unfold get_unique_id at 1. cbn [ret fst snd].
    destruct piece as [|p0 [|p1 rest]]; cbn [index nth_error];
      try (unfold bind at 1; cbn [raise]; discriminate);
      try (unfold bind at 1; cbn [ret]; unfold bind at 1; cbn [raise]; discriminate).
    unfold bind at 1. cbn [ret]. unfold bind at 1. cbn [ret]. unfold bind at 1.
    destruct (apply_style_to_trimmed so).
    + unfold bind at 1, attrib_get.
      destruct (attr "originalPathStyle" (el_attrib subSplitLine)); cbn [ret raise];
        [|discriminate].
      intros [= <- _]. cbn [snd]. rewrite map_app, update_last_map by reflexivity.
      reflexivity.
    + cbn [ret]. intros [= <- _]. cbn [snd].
      rewrite map_app, update_last_map by reflexivity. reflexivity.
  - unfold bind at 1. cbn [ret fst snd].
    destruct piece as [|p0 [|p1 rest]]; cbn [index nth_error];
      try (unfold bind at 1; cbn [raise]; discriminate);
      try (unfold bind at 1; cbn [ret]; unfold bind at 1; cbn [raise]; discriminate).
    unfold bind at 1. cbn [ret]. unfold bind at 1. cbn [ret]. unfold bind at 1.
    destruct (apply_style_to_trimmed so).
    + unfold bind at 1, attrib_get.
      destruct (attr "originalPathStyle" (el_attrib subSplitLine)); cbn [ret raise];
        [|discriminate].
      intros [= <- _]. cbn [snd]. now rewrite map_app.
    + cbn [ret]. intros [= <- _]. cbn [snd]. now rewrite map_app.
Qed.

Lemma trim_lines_fold_paths `{Host} (so : options) (subSplitLine : element)
    (trimGroupId : string) (subSplitIndex : nat) (T : transform)
    (trimLines : list (list point)) :
  forall st st' w w',
    for_fold trimLines (trim_line_step so subSplitLine trimGroupId subSplitIndex T) st w
    = (Ok st', w') ->
    map el_path (snd st') = map el_path (snd st) ++ map (piece_path T) trimLines.
Proof.
  induction trimLines as [|piece rest IH]; intros st st' w w'; cbn [for_fold map].
  - intros [= <- _]. now rewrite app_nil_r.
  - unfold bind at 1.
    destruct (trim_line_step so subSplitLine trimGroupId subSplitIndex T piece st w)
      as [[st1|e] w1] eqn:Hstep; [|discriminate].
    intros Hrest. rewrite (IH _ _ _ _ Hrest), (trim_line_step_paths _ _ _ _ _ _ _ _ _ _ Hstep).
    now rewrite <- app_assoc.
Qed.

(** ** The flatness option *)

Lemma sub_path_segs_flatness `{Host} (so : options) (q : Q) (isBezier : bool)
    (subPath : path) :
  flattenbezier so && isBezier = false ->
  sub_path_segs (with_flatness q so) isBezier subPath
  = sub_path_segs so isBezier subPath.
Proof. intros E. unfold sub_path_segs. cbn [with_flatness flattenbezier]. now rewrite E. Qed.

Lemma effect_flatness `{Host} (so : options) (q : Q) (w : world) :
  flattenbezier so = false ->
  effect (with_flatness q so) w = effect so w.
Proof. destruct so. cbn [flattenbezier]. intros ->. reflexivity. Qed.

(** ** The validate flag *)

Lemma effect_validating (H : Host) (so : options) (w : world) :
  @effect (validating H) so w = @effect H so w.
Proof. reflexivity. Qed.

(** ** The trimming stage *)

Lemma line_string_pure `{Host} (e : element) :
  exists r, forall w, line_string e w = (r, w).
Proof.
  unfold line_string, bind, index, first2, ret, raise.
  destruct (nth_error (to_arrays (el_path e)) 0) as [c0|]; [|eexists; reflexivity].
  destruct (args c0) as [|x [|y a]]; try (eexists; reflexivity).
  destruct (nth_error (to_arrays (el_path e)) 1) as [c1|]; [|eexists; reflexivity].
  destruct (args c1) as [|x' [|y' a']]; eexists; reflexivity.
Qed.

(** Building [allSubSplitLineStrings] leaves the world as it is. *)
Lemma all_line_strings_pure `{Host} (arr : list element) (w : world) :
  snd (all_line_strings arr w) = w.
Proof.
  unfold all_line_strings.
  enough (Hacc : forall acc,
             snd (for_fold arr
                    (fun subSplitLine acc0 =>
                       bind (line_string subSplitLine) (fun ls => ret (acc0 ++ [ls])))
                    acc w) = w) by apply Hacc.
  induction arr as [|e arr IH]; intros acc; [reflexivity|].
  cbn [for_fold]. unfold bind at 1. unfold bind at 1.
  destruct (line_string_pure e) as [r Hr]. rewrite Hr.
  destruct r as [ls|x]; [apply IH | reflexivity].
Qed.

Lemma world_eta (w : world) (ms : list message) :
  ms = [] -> mkWorld (w_doc w) (w_msgs w ++ ms) (w_next_id w) = w.
Proof. intros ->. rewrite app_nil_r. destruct w; reflexivity. Qed.

(** With an empty intersection set the statements inside [try:] only write
    the debug line. *)
Lemma trim_stage_no_intersections `{Host} (so : options) (pathElements : list nat)
    (vars : scan_vars) (w : world) (segs : list segment) :
  fst (all_line_strings (subSplitLineArray vars) w) = Ok segs ->
  isect_segments segs true = Ok [] ->
  exists ms,
    trim_stage so pathElements vars w
    = (Ok tt, mkWorld (w_doc w) (w_msgs w ++ ms) (w_next_id w)).
Proof.
  intros Hls Hisect. unfold trim_stage, when.
  destruct (draw_trimmed so).
  2:{ exists []. unfold ret. now rewrite world_eta. }
  unfold try_except_AssertionError, global_intersections.
  unfold bind at 1.
  pose proof (all_line_strings_pure (subSplitLineArray vars) w) as Hw.
  destruct (all_line_strings (subSplitLineArray vars) w) as [r w0].
  cbn [fst snd] in Hls, Hw. subst r w0.
  unfold bind at 1. unfold lift_result at 1. rewrite Hisect.
  unfold bind at 1, debug, msg, ret. cbn [List.length Nat.ltb Nat.leb].
  destruct (show_debug so).
  - eexists. reflexivity.
  - exists []. now rewrite world_eta.
Qed.

(** A failed assertion of the global sweep ends in the message and a normal
    return. *)
Lemma trim_stage_assertion `{Host} (so : options) (pathElements : list nat)
    (vars : scan_vars) (w : world) (segs : list segment) :
  draw_trimmed so = true ->
  fst (all_line_strings (subSplitLineArray vars) w) = Ok segs ->
  isect_segments segs true = Raise AssertionError ->
  trim_stage so pathElements vars w
  = (Ok tt, mkWorld (w_doc w) (w_msgs w ++ [Msg error_text []]) (w_next_id w)).
Proof.
  intros Hdraw Hls Hisect. unfold trim_stage, when. rewrite Hdraw.
  unfold try_except_AssertionError, global_intersections.
  unfold bind at 1.
  pose proof (all_line_strings_pure (subSplitLineArray vars) w) as Hw.
  destruct (all_line_strings (subSplitLineArray vars) w) as [r w0].
  cbn [fst snd] in Hls, Hw. subst r w0.
  unfold bind at 1. unfold lift_result at 1. rewrite Hisect. reflexivity.
Qed.

Lemma effect_unfold `{Host} (so : options) (w : world) :
  effect so w
  = match effect_scan so w with
    | (Ok r, w1) => trim_stage so (fst r) (snd r) w1
    | (Raise e, w1) => (Raise e, w1)
    end.
Proof. reflexivity. Qed.

Lemma error_text_names_tunables :
  PyStr.contains "'decimals'" error_text = true
  /\ PyStr.contains "'flatness'" error_text = true.
Proof. split; vm_compute; reflexivity. Qed.

(** ** Commands that leave the path elements alone *)

Lemma keeps_ret {A} (a : A) : keeps_paths (ret a).
Proof. intros w; reflexivity. Qed.

Lemma keeps_raise {A} (e : exn) : keeps_paths (@raise A e).
Proof. intros w; reflexivity. Qed.

Lemma keeps_lift_result {A} (r : result A) : keeps_paths (lift_result r).
Proof. intros w; reflexivity. Qed.

Lemma keeps_bind {A B} (c : M A) (k : A -> M B) :
  keeps_paths c -> (forall a, keeps_paths (k a)) -> keeps_paths (bind c k).
Proof.
  intros Hc Hk w. unfold bind. specialize (Hc w).
  destruct (c w) as [[a|e] w1]; cbn [snd] in *; [|exact Hc].
  now rewrite Hk.
Qed.

Lemma keeps_msg (m : message) : keeps_paths (msg m).
Proof. intros w; reflexivity. Qed.

Lemma keeps_debug (so : options) (m : message) : keeps_paths (debug so m).
Proof. unfold debug. destruct (show_debug so); [apply keeps_msg | apply keeps_ret]. Qed.

Lemma keeps_get_doc : keeps_paths get_doc.
Proof. intros w; reflexivity. Qed.

Lemma keeps_index {A} (l : list A) (i : nat) : keeps_paths (index l i).
Proof. unfold index. destruct (nth_error l i); [apply keeps_ret | apply keeps_raise]. Qed.

Lemma keeps_when (b : bool) (c : M unit) : keeps_paths c -> keeps_paths (when b c).
Proof. intros Hc. destruct b; [exact Hc | apply keeps_ret]. Qed.

Lemma keeps_for_fold {A S} (l : list A) (body : A -> S -> M S) :
  (forall x s, keeps_paths (body x s)) -> forall s, keeps_paths (for_fold l body s).
Proof.
  intros Hbody. induction l as [|x l IH]; intros s; cbn [for_fold].
  - apply keeps_ret.
  - apply keeps_bind; auto.
Qed.

Lemma keeps_for_each {A} (l : list A) (body : A -> M unit) :
  (forall x, keeps_paths (body x)) -> keeps_paths (for_each l body).
Proof.
  intros Hbody. induction l as [|x l IH]; cbn [for_each].
  - apply keeps_ret.
  - apply keeps_bind; auto.
Qed.

Lemma keeps_modify_doc (f : document -> document) :
  (forall d, d_paths (f d) = d_paths d) -> keeps_paths (modify_doc f).
Proof. intros Hf w. cbn. apply Hf. Qed.

Lemma keeps_update_group (g : nat) (f : group -> group) :
  keeps_paths (modify_doc (update_group g f)).
Proof. apply keeps_modify_doc. reflexivity. Qed.

Lemma keeps_add_group (p : parent_ref) (gid : string) : keeps_paths (add_group p gid).
Proof. intros w; reflexivity. Qed.

Lemma keeps_add_markers (m : markerGroup) : keeps_paths (add_markers m).
Proof. apply keeps_modify_doc. reflexivity. Qed.

Lemma keeps_get_unique_id `{Host} (prefix : string) : keeps_paths (get_unique_id prefix).
Proof. intros w; reflexivity. Qed.

Lemma keeps_index_last2 (a : list Q) : keeps_paths (index_last2 a).
Proof. unfold index_last2. destruct (last2 a); [apply keeps_ret | apply keeps_raise]. Qed.

Lemma update_nth_unchanged {A} (f : A -> A) (l : list A) (n : nat) :
  (forall x, f x = x) -> update_nth n f l = l.
Proof.
  intros Hf. revert n; induction l as [|x l IH]; intros [|n]; cbn; try reflexivity.
  - now rewrite Hf.
  - now rewrite IH.
Qed.

Create HintDb keeps.

#[local] Hint Resolve keeps_ret keeps_raise keeps_lift_result keeps_msg keeps_debug
  keeps_get_doc keeps_index keeps_update_group keeps_add_group keeps_add_markers
  keeps_index_last2 : keeps.

Ltac keeps_step :=
  first
    [ apply keeps_bind; [|intro]
    | apply keeps_when
    | apply keeps_for_fold; intros
    | apply keeps_for_each; intros
    | apply keeps_get_unique_id
    | solve [auto with keeps]
    | match goal with
      | |- keeps_paths (if ?b then _ else _) => destruct b
      | |- keeps_paths (match ?x with _ => _ end) => destruct x
      | |- keeps_paths (let (_, _) := ?x in _) => destruct x
      end ].

Section ScanKeepsPaths.
Context `{Host}.

Lemma keeps_line_from_segments (segs : path) (i : nat) (dec : Z) :
  keeps_paths (line_from_segments segs i dec).
Proof. unfold line_from_segments. repeat keeps_step. Qed.

Lemma keeps_path_object (k : nat) : keeps_paths (path_object k).
Proof. unfold path_object. repeat keeps_step. Qed.

Lemma keeps_visualize_self_intersections (so : options) (k : nat) (pts : list point) :
  keeps_paths (visualize_self_intersections so k pts).
Proof.
  unfold visualize_self_intersections.
  apply keeps_bind; [apply keeps_path_object | intros pe].
  destruct (pe_parent pe); repeat keeps_step.
Qed.

Lemma keeps_sub_split_line so k original fl g segs i st :
  keeps_paths (sub_split_line so k original fl g segs i st).
Proof.
  unfold sub_split_line.
  apply keeps_bind; [apply keeps_line_from_segments | intros [[[x1 y1] x2] y2]].
  apply keeps_bind; [apply keeps_path_object | intros pe].
  unfold add_child. repeat keeps_step.
Qed.

Lemma keeps_scan_sub_path so k original fl g subPath vars :
  remove_self_intersecting so = false ->
  keeps_paths (scan_sub_path so k original fl g subPath vars).
Proof.
  intros Hrm. unfold scan_sub_path. rewrite Hrm.
  apply keeps_bind; [apply keeps_for_fold; intros; apply keeps_sub_split_line | intros st].
  apply keeps_bind; [apply keeps_lift_result | intros pts].
  destruct (0 <? List.length pts)%nat; [|apply keeps_ret].
  apply keeps_bind; [repeat keeps_step | intros _].
  apply keeps_bind.
  { destruct g; [|apply keeps_ret].
    apply keeps_bind; [|intros _]; apply keeps_when.
    - apply keeps_update_group.
    - apply keeps_update_group. }
  intros _.
  apply keeps_bind; [apply keeps_when, keeps_visualize_self_intersections | intros _].
  apply keeps_ret.
Qed.

Lemma highlight_off so r a m b c (s : style) :
  no_scan_edits so = true -> highlight so r a m b c s = s.
Proof.
  unfold no_scan_edits, highlight. rewrite negb_true_iff, !orb_false_iff.
  intros H'. repeat match goal with H0 : _ /\ _ |- _ => destruct H0 end.
  repeat match goal with H0 : _ = false |- _ => rewrite H0; clear H0 end.
  rewrite !andb_false_r. destruct b, c; reflexivity.
Qed.

Lemma keeps_scan_path so k vars :
  no_scan_edits so = true -> keeps_paths (scan_path so k vars).
Proof.
  intros Hoff. pose proof Hoff as Hflags.
  unfold no_scan_edits in Hflags. rewrite negb_true_iff, !orb_false_iff in Hflags.
  destruct Hflags as [[[[[[[[[[[[[[[[Hrel Habs] Hmix] Hpoly] Hbez] Hop] Hcl] Hsi]
                              _] _] _] _] _] _] _] Hhsi] Hfill].
  unfold scan_path.
  apply keeps_bind; [apply keeps_path_object | intros pe].
  destruct (path_flags_of _) as [[[r a] m] b].
  rewrite Habs, Hrel, Hmix, Hbez, Hpoly, Hop, Hcl, Hfill, Hhsi. cbn [andb].
  apply keeps_bind; [apply keeps_debug | intros _].
  destruct (closed_test _) as [c|]; [|apply keeps_raise].
  apply keeps_bind; [repeat keeps_step | intros g].
  apply keeps_bind.
  { apply keeps_for_fold. intros. now apply keeps_scan_sub_path. }
  intros vars1.
  apply keeps_bind; [apply keeps_ret | intros _].
  apply keeps_bind.
  { apply keeps_modify_doc. intros d. cbn [update_path d_paths].
    apply update_nth_unchanged. intros [par [i p s at']].
    unfold set_path_style, set_style. cbn. now rewrite highlight_off. }
  intros _. rewrite andb_false_r. apply keeps_bind; [apply keeps_ret | intros _].
  apply keeps_ret.
Qed.

Lemma keeps_scan so pathElements :
  no_scan_edits so = true -> keeps_paths (scan so pathElements).
Proof.
  intros Hoff. unfold scan.
  apply keeps_bind; [|intros vars; repeat keeps_step].
  apply keeps_for_fold. intros. now apply keeps_scan_path.
Qed.

Lemma keeps_effect_scan so :
  no_scan_edits so = true -> break_apart so = false -> keeps_paths (effect_scan so).
Proof.
  intros Hoff Hwhole. unfold effect_scan, get_path_elements. rewrite Hwhole.
  apply keeps_bind; [apply keeps_when, keeps_msg | intros _].
  apply keeps_bind; [repeat keeps_step | intros pathElements].
  apply keeps_bind; [now apply keeps_scan | intros vars; apply keeps_ret].
Qed.

End ScanKeepsPaths.

(** ** The recombiner on a trim group *)

Lemma combine_scan_shape (cs : list element) :
  forall found data n kept data' n',
    combine_scan cs found data n = (kept, data', n') ->
    (found = true ->
     Forall (fun e => marked_intersected e = true) kept
     /\ exists rest, data' = data ++ rest)
    /\ (found = false ->
        (Forall (fun e => marked_intersected e = true) kept /\ data' = data)
        \/ exists pre e post rest,
             kept = pre ++ e :: post
             /\ Forall (fun e => marked_intersected e = true) pre
             /\ marked_intersected e = false
             /\ Forall (fun e => marked_intersected e = true) post
             /\ data' = el_path e ++ rest).
Proof.
  induction cs as [|c cs IH]; intros found data n kept data' n'; cbn [combine_scan].
  - intros [= <- <- _]. split.
    + intros _. split; [constructor | exists []; now rewrite app_nil_r].
    + intros _. left. split; [constructor | reflexivity].
  - fold (marked_intersected c). destruct (marked_intersected c) eqn:Ec; cbn [negb].
    + destruct (combine_scan cs found data (S n)) as [[k d] m] eqn:R.
      intros [= <- <- _]. destruct (IH _ _ _ _ _ _ R) as [Ht Hf]. split.
      * intros Hfound. destruct (Ht Hfound) as [Hk Hd]. split; [|exact Hd].
        constructor; assumption.
      * intros Hfound. destruct (Hf Hfound) as [[Hk Hd] | (pre & e & post & rest & Hk & Hpre & He & Hpost & Hd)].
        -- left. split; [constructor; assumption | exact Hd].
        -- right. exists (c :: pre), e, post, rest. subst k.
           repeat split; try assumption. constructor; assumption.
    + destruct found.
      * intros R. destruct (IH _ _ _ _ _ _ R) as [Ht _]. split; [|discriminate].
        intros _. destruct (Ht eq_refl) as [Hk [rest ->]]. split; [exact Hk|].
        exists (el_path c ++ rest). now rewrite app_assoc.
      * destruct (combine_scan cs true (el_path c) n) as [[k d] m] eqn:R.
        intros [= <- <- _]. destruct (IH _ _ _ _ _ _ R) as [Ht _].
        destruct (Ht eq_refl) as [Hk [rest Hd]]. split; [discriminate|].
        intros _. right. exists [], c, k, rest. repeat split; try assumption. constructor.
Qed.

Lemma update_combined_marked (f : element -> element) (cs : list element) :
  Forall (fun e => marked_intersected e = true) cs -> update_combined f cs = cs.
Proof.
  induction 1 as [|e cs He _ IH]; [reflexivity|].
  cbn [update_combined]. fold (marked_intersected e). rewrite He. cbn [negb]. now rewrite IH.
Qed.

Lemma update_combined_at (f : element -> element) (pre post : list element) (e : element) :
  Forall (fun e => marked_intersected e = true) pre ->
  marked_intersected e = false ->
  update_combined f (pre ++ e :: post) = pre ++ f e :: post.
Proof.
  intros Hpre He. induction Hpre as [|x pre Hx _ IH]; cbn [app update_combined].
  - fold (marked_intersected e). now rewrite He.
  - fold (marked_intersected x). rewrite Hx. cbn [negb]. now rewrite IH.
Qed.

Lemma collapse_no_repeat (segData : path) : no_repeated_point (collapse segData).
Proof.
  destruct segData as [|c0 rest]; [exact I|]. cbn [collapse].
  apply collapse_from_no_repeat, args_eqb_refl.
Qed.

(** ** Scans that report no self-intersection *)

Lemma unflagged_ret (vars : scan_vars) :
  isSelfIntersecting vars = false -> unflagged (ret vars).
Proof. intros Hv w v w' [= <- _]. exact Hv. Qed.

Lemma unflagged_raise (e : exn) : unflagged (raise e).
Proof. intros w v w' [=]. Qed.

Lemma unflagged_bind_any {A} (c : M A) (k : A -> M scan_vars) :
  (forall a, unflagged (k a)) -> unflagged (bind c k).
Proof.
  intros Hk w v w'. unfold bind. destruct (c w) as [[a|e] w1]; [|discriminate].
  apply Hk.
Qed.

Lemma unflagged_bind_vars (c : M scan_vars) (k : scan_vars -> M scan_vars) :
  unflagged c ->
  (forall a, isSelfIntersecting a = false -> unflagged (k a)) ->
  unflagged (bind c k).
Proof.
  intros Hc Hk w v w'. unfold bind. destruct (c w) as [[a|e] w1] eqn:E; [|discriminate].
  apply Hk. eapply Hc. exact E.
Qed.

Lemma unflagged_for_fold {A} (l : list A) (body : A -> scan_vars -> M scan_vars) :
  (forall x s, unflagged (body x s)) ->
  forall s, isSelfIntersecting s = false -> unflagged (for_fold l body s).
Proof.
  intros Hbody. induction l as [|x l IH]; intros s Hs; cbn [for_fold].
  - now apply unflagged_ret.
  - apply unflagged_bind_vars; [apply Hbody | exact IH].
Qed.

Section Unflagged.
Context `{Host}.
Hypothesis nothing_found : forall segments, isect_segments segments true = Ok [].

Lemma unflagged_scan_sub_path so k original fl g subPath vars :
  unflagged (scan_sub_path so k original fl g subPath vars).
Proof.
  unfold scan_sub_path. apply unflagged_bind_any. intros st.
  rewrite nothing_found. intros w v w'. unfold bind, lift_result.
  cbn [List.length Nat.ltb Nat.leb]. intros [= <- _]. reflexivity.
Qed.

Lemma unflagged_scan_path so k vars :
  isSelfIntersecting vars = false -> unflagged (scan_path so k vars).
Proof.
  intros Hvars. unfold scan_path. apply unflagged_bind_any. intros pe.
  destruct (path_flags_of _) as [[[r a] m] b].
  assert (Hdel : unflagged (bind (delete_path k) (fun _ => ret vars))).
  { apply unflagged_bind_any. intros _. now apply unflagged_ret. }
  destruct (remove_absolute so && a); [exact Hdel|].
  destruct (remove_relative so && r); [exact Hdel|].
  destruct (remove_mixed so && m); [exact Hdel|].
  apply unflagged_bind_any. intros _.
  destruct (remove_beziers so && b); [exact Hdel|].
  destruct (remove_polylines so && negb b); [exact Hdel|].
  destruct (closed_test _) as [c|]; [|apply unflagged_raise].
  destruct (remove_opened so && negb c); [exact Hdel|].
  destruct (remove_closed so && c); [exact Hdel|].
  apply unflagged_bind_any. intros g.
  apply unflagged_bind_vars.
  - apply unflagged_for_fold; [|exact Hvars].
    intros. apply unflagged_scan_sub_path.
  - intros vars1 Hvars1. repeat (apply unflagged_bind_any; intros _).
    now apply unflagged_ret.
Qed.

End Unflagged.

(** * The claims *)

(** C1 (as amended).  The adjacency policy is not a setting of the
    extension: [effect] passes [validate=True] to the intersector at both of
    its call sites, whatever the options, so its outcome is the one it has
    with an intersector that ignores the flag and always validates.  What
    the intersector would do with the policy disabled is never consulted:
    when it finds nothing in validate mode, no value of the options makes
    the scan of a path report a self-intersection. *)
Theorem validate_is_hard_coded (H : Host) (so : options) :
  (forall w, @effect H so w = @effect (validating H) so w)
  /\ ((forall segments, isect_segments segments true = Ok []) ->
      forall k vars w vars' w',
        isSelfIntersecting vars = false ->
        scan_path so k vars w = (Ok vars', w') ->
        isSelfIntersecting vars' = false).
Proof.
  split.
  - intros w. symmetry. apply effect_validating.
  - intros Hnone k vars w vars' w' Hvars Hrun.
    exact (unflagged_scan_path Hnone so k vars Hvars w vars' w' Hrun).
Qed.

Lemma validate_is_hard_coded_witness :
  tips_only_isect corner_segments false = Ok [(1, 0)]
  /\ exists vars' w',
       @scan_path tips_only_host default_options 0 (mkScan [] None false) corner_world
       = (Ok vars', w')
       /\ isSelfIntersecting vars' = false.
Proof.
  split; [vm_compute; reflexivity|].
  eexists _, _. split; [vm_compute; reflexivity|].
  refine (proj2 (validate_is_hard_coded tips_only_host default_options)
            (fun _ => eq_refl) 0%nat (mkScan [] None false) corner_world _ _
            eq_refl eq_refl).
Defined.

(** C1, counterexample.  For the open polyline (0,0)-(1,0)-(1,1) the
    reference intersector reports the shared vertex (1,0) when called with
    the policy disabled, but no value of the options makes the scan of that
    path report a self-intersection. *)
Lemma adjacency_exclusion_cannot_be_disabled :
  Isect.isect_segments corner_segments false = Ok [(1, 0)]
  /\ ~ exists so vars w',
         @scan_path reference_host so 0 (mkScan [] None false) corner_world = (Ok vars, w')
         /\ isSelfIntersecting vars = true.
Proof.
  split; [vm_compute; reflexivity|].
  intros (so & vars & w' & Hrun & Hflag).
  destruct so as [sd ba hg tpt fb fl dec snp rrel rabs rmix rpoly rbez rop rcl rsi
                  hrel habs hmix hpoly hbez hop hcl hsi dsub vself vglob dtrim comb rdup
                  rev keep sw dot rfs bt asub atrim].
  destruct rabs; [vm_compute in Hrun; injection Hrun as <- _; discriminate Hflag|].
  destruct rpoly;
    [destruct rrel, rmix, sd, rbez;
       vm_compute in Hrun; injection Hrun as <- _; discriminate Hflag|].
  destruct rop;
    [destruct rrel, rmix, sd, rbez;
       vm_compute in Hrun; injection Hrun as <- _; discriminate Hflag|].
  destruct rrel, rmix, sd, rbez, rcl, dsub, fb, rfs;
    vm_compute in Hrun; injection Hrun as <- _; discriminate Hflag.
Qed.

(** C2 (as amended).  Two trimmed pieces are duplicates exactly when their
    paths are equal command by command: the same letters and numerically
    equal coordinates in the same order.  Of two such pieces the one met
    first in processing order stays and the other is deleted; pieces whose
    paths differ, a piece and its reversal among them, both stay. *)
Theorem duplicates_have_equal_paths (so : options) (ps : list pathElement)
    (ms : list markerGroup) (g1 g2 : group) (e1 e2 : element) :
  g_children g1 = [e1] -> g_children g2 = [e2] ->
  is_detached (g_parent g1) = false -> is_detached (g_parent g2) = false ->
  surviving_pieces (fst (remove_duplicates_doc so [0; 1]%nat (mkDoc ps [g1; g2] ms)))
  = (if path_eqb (el_path e1) (el_path e2)
     then (if reverse_removal_order so then [e2] else [e1])
     else [e1; e2])
  /\ (forall (i j : string) (a b : point),
         path_eqb (el_path (piece i a b)) (el_path (piece j b a))
         = Qeq_bool (fst a) (fst b) && Qeq_bool (snd a) (snd b)).
Proof.
  intros H1 H2 A1 A2. split.
  { unfold remove_duplicates_doc.
    destruct g1 as [i1 p1 a1 c1], g2 as [i2 p2 a2 c2]. cbn in H1, H2, A1, A2. subst c1 c2.
    destruct (reverse_removal_order so); cbn; rewrite ?orb_false_r.
    - destruct (path_eqb (el_path e1) (el_path e2)) eqn:E; cbn; rewrite ?A1, ?A2;
        reflexivity.
    - rewrite (path_eqb_sym (el_path e2)).
      destruct (path_eqb (el_path e1) (el_path e2)) eqn:E; cbn; rewrite ?A1, ?A2;
        reflexivity. }
  intros i j a b. cbn. rewrite !andb_true_r.
  destruct (Qeq_bool (fst a) (fst b)) eqn:Ex, (Qeq_bool (snd a) (snd b)) eqn:Ey; cbn;
    try reflexivity.
  apply Qeq_bool_iff in Ex, Ey.
  assert (Hx : Qeq_bool (fst b) (fst a) = true) by (apply Qeq_bool_iff; now symmetry).
  assert (Hy : Qeq_bool (snd b) (snd a) = true) by (apply Qeq_bool_iff; now symmetry).
  now rewrite Hx, Hy.
Qed.

Lemma duplicates_have_equal_paths_witness :
  surviving_pieces (fst (remove_duplicates_doc default_options [0; 1]%nat identical_pair))
  = [piece "shapely-subsplit-a-0" (1, 1) (2, 2)].
Proof.
  exact (proj1 (duplicates_have_equal_paths default_options [] []
                  (mkGroup "shapely-subsplit-a" Root []
                           [piece "shapely-subsplit-a-0" (1, 1) (2, 2)])
                  (mkGroup "shapely-subsplit-b" Root []
                           [piece "shapely-subsplit-b-1" (1, 1) (2, 2)])
                  _ _ eq_refl eq_refl eq_refl eq_refl)).
Defined.

(** C2, counterexample.  Deduplicating (1,1)-(2,2) and (2,2)-(1,1) leaves
    both pieces, under either removal order. *)
Lemma reversed_pair_both_survive :
  ~ exists so,
      List.length (surviving_pieces
                     (fst (remove_duplicates_doc so [0; 1]%nat reversed_pair))) = 1%nat.
Proof.
  intros [so Hone]. unfold remove_duplicates_doc in Hone.
  destruct (reverse_removal_order so); vm_compute in Hone; discriminate.
Qed.

(** C3 (as amended).  When the global intersection pass, the call made
    inside the [try] block once the scan is done and [draw_trimmed] is on,
    fails with an [AssertionError], [effect] returns normally: it leaves the
    document as the scan left it, shows one message, which names the
    ['decimals'] and ['flatness'] settings, and does not run the pass
    again. *)
Theorem global_sweep_failure_is_reported (H : Host) (so : options) (w w1 : world)
    (pathElements : list nat) (vars : scan_vars) (segs : list segment) :
  draw_trimmed so = true ->
  effect_scan so w = (Ok (pathElements, vars), w1) ->
  fst (all_line_strings (subSplitLineArray vars) w1) = Ok segs ->
  isect_segments segs true = Raise AssertionError ->
  effect so w
  = (Ok tt, mkWorld (w_doc w1) (w_msgs w1 ++ [Msg error_text []]) (w_next_id w1))
  /\ PyStr.contains "'decimals'" error_text = true
  /\ PyStr.contains "'flatness'" error_text = true.
Proof.
  intros Hdraw Hscan Hls Hfail. split; [|exact error_text_names_tunables].
  rewrite effect_unfold, Hscan. eapply trim_stage_assertion; eassumption.
Qed.

Lemma global_sweep_failure_is_reported_witness :
  @effect fragile_host trimming_options two_lines_world
  = (Ok tt, mkWorld (w_doc two_lines_world) [Msg error_text []] 0).
Proof.
  refine (proj1 (global_sweep_failure_is_reported fragile_host trimming_options
                   two_lines_world two_lines_world _ _ _
                   eq_refl eq_refl eq_refl eq_refl)).
Defined.

(** C3, counterexample.  The same failure in the self-intersection pass of
    a path is outside the [try] block: the [AssertionError] leaves [effect].
    So does, from the global pass, a failure that is not an
    [AssertionError]. *)
Lemma self_sweep_failure_crashes :
  fst (@effect fragile_host trimming_options corner_world) = Raise AssertionError
  /\ fst (@effect keyerror_host trimming_options two_lines_world)
     = Raise (OtherError "KeyError").
Proof. split; vm_compute; reflexivity. Qed.

(** C5 (as amended).  The flatness is not checked: no value is rejected or
    clamped.  It reaches the flattener unchanged, and only for a path with a
    curve command while [flattenbezier] is on; for any other path the
    segments of a sub-path do not depend on it, and with [flattenbezier] off
    neither does anything [effect] does. *)
Theorem flatness_is_not_validated (H : Host) (so : options) (q : Q) :
  (forall isBezier subPath,
      flattenbezier so && isBezier = false ->
      sub_path_segs (with_flatness q so) isBezier subPath
      = sub_path_segs so isBezier subPath)
  /\ (forall subPath,
         flattenbezier so = true ->
         sub_path_segs (with_flatness q so) true subPath
         = to_segments
             (CubicSuperPath (flattened_path (cspsubdiv (CubicSuperPath subPath) q))))
  /\ (forall w,
         flattenbezier so = false ->
         effect (with_flatness q so) w = effect so w).
Proof.
  split; [|split].
  - intros. now apply sub_path_segs_flatness.
  - intros subPath Hfb. unfold sub_path_segs. cbn [with_flatness flattenbezier flatness].
    now rewrite Hfb.
  - intros. now apply effect_flatness.
Qed.

Lemma flatness_is_not_validated_witness :
  @sub_path_segs reference_host (with_flatness (-1 # 1) default_options) false corner_path
  = @sub_path_segs reference_host default_options false corner_path.
Proof.
  exact (proj1 (flatness_is_not_validated reference_host default_options (-1 # 1))
               false corner_path eq_refl).
Defined.

(** C5, counterexample.  A run with [--flatness=-1] is not rejected: it
    returns normally and shows no message. *)
Lemma negative_flatness_is_accepted :
  @effect reference_host (with_flatness (-1 # 1) trimming_options) corner_world
  = (Ok tt, corner_world).
Proof. vm_compute. reflexivity. Qed.

(** C6 (as amended).  A path element is classified as closed exactly when
    the last command of its whole path is a ['Z'], or an ['L'] whose
    arguments equal those of the first command, or a ['C'] whose last two
    arguments equal those of the first command; the coordinates are compared
    exactly, with no tolerance. *)
Theorem closed_by_exact_comparison (raw : path) :
  closed_test raw = Some true <->
  exists first lastc,
    nth_error raw 0 = Some first
    /\ nth_error raw (List.length raw - 1) = Some lastc
    /\ (letter lastc = "Z"%char
        \/ (letter lastc = "L"%char /\ args_eq (args first) (args lastc))
        \/ (letter lastc = "C"%char
            /\ exists x y, last2 (args lastc) = Some (x, y)
                           /\ args_eq (args first) [x; y])).
Proof.
  unfold closed_test.
  destruct (nth_error raw (List.length raw - 1)) as [lastc|] eqn:Hlast.
  2:{ split; [discriminate | intros (? & ? & _ & [=] & _)]. }
  assert (Hfirst : exists first, nth_error raw 0 = Some first).
  { destruct raw; [destruct (List.length [] - 1)%nat; discriminate | eexists; reflexivity]. }
  destruct Hfirst as [first Hfirst]. rewrite Hfirst.
  destruct (Ascii.eqb (letter lastc) "Z") eqn:EZ.
  { apply Ascii.eqb_eq in EZ. split; [|reflexivity].
    intros _. exists first, lastc. split; [reflexivity|]. split; [reflexivity|]. now left. }
  apply Ascii.eqb_neq in EZ.
  destruct (Ascii.eqb (letter lastc) "L") eqn:EL.
  { apply Ascii.eqb_eq in EL. split.
    - intros [= Heq]. apply args_eqb_eq in Heq. exists first, lastc.
      split; [reflexivity|]. split; [reflexivity|]. right; left. now split.
    - intros (f & l & [= <-] & [= <-] & [Hz | [[_ Heq] | [Hc _]]]).
      + congruence.
      + apply args_eqb_eq in Heq. now rewrite Heq.
      + rewrite EL in Hc. discriminate. }
  apply Ascii.eqb_neq in EL.
  destruct (Ascii.eqb (letter lastc) "C") eqn:EC.
  { apply Ascii.eqb_eq in EC.
    destruct (last2 (args lastc)) as [[x y]|] eqn:Hxy.
    - cbn [fst snd]. split.
      + intros [= Heq]. apply args_eqb_eq in Heq. exists first, lastc.
        split; [reflexivity|]. split; [reflexivity|].
        right; right. split; [assumption|]. exists x, y. now split.
      + intros (f & l & [= <-] & [= <-] & [Hz | [[Hl _] | [_ (x' & y' & Hl2 & Heq)]]]).
        * congruence.
        * congruence.
        * rewrite Hxy in Hl2. injection Hl2 as <- <-.
          apply args_eqb_eq in Heq. now rewrite Heq.
    - split; [discriminate|].
      intros (f & l & [= <-] & [= <-] & [Hz | [[Hl _] | [_ (x' & y' & Hl2 & _)]]]);
        congruence. }
  apply Ascii.eqb_neq in EC.
  split; [discriminate|].
  intros (f & l & _ & [= <-] & [Hz | [[Hl _] | [Hc _]]]); congruence.
Qed.

(** C6, counterexample.  The outline that ends at (0.0001, 0), a
    ten-thousandth from its first point (0, 0) and so within the default
    snap tolerance 0.1 and below the rounding step 0.001, is classified as
    open. *)
Lemma nearly_closed_is_open :
  nth_error nearly_closed_path 0 = Some (M_ 0 0)
  /\ nth_error nearly_closed_path 4 = Some (L_ (1 # 10000) 0)
  /\ Qabs ((1 # 10000) - 0) <= snap_tolerance default_options
  /\ Qabs ((1 # 10000) - 0) < 1 # 1000
  /\ closed_test nearly_closed_path = Some false.
Proof. repeat split; vm_compute; congruence. Qed.

(** C8.  The deduplicator is idempotent: a second pass over the same trim
    groups, with the same options, deletes nothing and leaves the document
    as the first pass left it. *)
Theorem remove_duplicates_idempotent (so : options) (allTrimGroups : list nat)
    (w : world) :
  fst (remove_duplicates so allTrimGroups (snd (remove_duplicates so allTrimGroups w)))
  = Ok tt
  /\ w_doc (snd (remove_duplicates so allTrimGroups
                   (snd (remove_duplicates so allTrimGroups w))))
     = w_doc (snd (remove_duplicates so allTrimGroups w)).
Proof.
  unfold remove_duplicates.
  destruct (remove_duplicates_doc so allTrimGroups (w_doc w)) as [d1 ms1] eqn:E1.
  cbn [snd w_doc].
  destruct (remove_duplicates_doc so allTrimGroups d1) as [d2 ms2] eqn:E2.
  cbn [fst snd w_doc]. split; [reflexivity|].
  unfold remove_duplicates_doc in *.
  pose proof (dedup_groups_again so
                (if reverse_removal_order so then rev allTrimGroups else allTrimGroups)
                [] [] (w_doc w) (fun p Hp => Hp)) as Hagain.
  rewrite E1 in Hagain. cbn [fst] in Hagain. rewrite E2 in Hagain. exact Hagain.
Qed.



(** ** Further properties *)

(** The attribute [intersected='True'] marks the cuts themselves: of the
    pieces of one segment every piece but the last carries it, and the last
    piece has no attribute at all. *)
Theorem piece_attribute_marks_cuts (H : Host) (so : options) (subSplitLine : element)
    (trimGroupId : string) (subSplitIndex : nat) (T : transform)
    (trimLines : list (list point)) (w : world) :
  (apply_style_to_trimmed so = true ->
   attr "originalPathStyle" (el_attrib subSplitLine) <> None) ->
  (forall piece, In piece trimLines -> (2 <= List.length piece)%nat) ->
  (1 <= List.length trimLines)%nat ->
  exists front lastLine w',
    trim_lines so subSplitLine trimGroupId subSplitIndex T trimLines w
    = (Ok (front ++ [lastLine]), w')
    /\ Forall flagged_intersected front
    /\ el_attrib lastLine = [].
Proof.
  intros Hstyle Hpieces Hsome.
  destruct (trim_lines_inv so subSplitLine trimGroupId subSplitIndex T Hstyle
              trimLines w Hpieces)
    as (added & w' & Hrun & _ & _ & _ & _ & Hflag).
  destruct (Hflag Hsome) as (front & lastLine & Hadded & Hfront & Hlast).
  cbn [snd] in Hadded. subst added. exists front, lastLine, w'. auto.
Qed.

Lemma piece_attribute_marks_cuts_witness :
  exists front lastLine w',
    @trim_lines reference_host default_options
      (mkElement "subsplit-a_0" [M_ 0 0; L_ 10 0] basicSubSplitLineStyle
                 [("originalPathStyle"%string, "stroke:#000000"%string)])
      "shapely-subsplit-a" 0 Plain.identity
      [[(0, 0); (5, 0)]; [(5, 0); (10, 0)]] (world_of (mkDoc [] [] []))
    = (Ok (front ++ [lastLine]), w')
    /\ Forall flagged_intersected front
    /\ el_attrib lastLine = [].
Proof.
  apply (piece_attribute_marks_cuts reference_host default_options
           (mkElement "subsplit-a_0" [M_ 0 0; L_ 10 0] basicSubSplitLineStyle
                      [("originalPathStyle"%string, "stroke:#000000"%string)])
           "shapely-subsplit-a" 0 Plain.identity
           [[(0, 0); (5, 0)]; [(5, 0); (10, 0)]] (world_of (mkDoc [] [] []))).
  - intros _. discriminate.
  - intros piece [<- | [<- | []]]; cbn; lia.
  - cbn. lia.
Defined.

(** The trim lines are the pieces [split] returned, in order: each is
    written from the first two coordinates of its piece, mapped by the
    inverse of the composed transform of the source path. *)
Theorem trim_lines_copy_the_pieces (H : Host) (so : options) (subSplitLine : element)
    (trimGroupId : string) (subSplitIndex : nat) (T : transform)
    (trimLines : list (list point)) (w : world) :
  (apply_style_to_trimmed so = true ->
   attr "originalPathStyle" (el_attrib subSplitLine) <> None) ->
  (forall piece, In piece trimLines -> (2 <= List.length piece)%nat) ->
  exists added w',
    trim_lines so subSplitLine trimGroupId subSplitIndex T trimLines w = (Ok added, w')
    /\ map el_path added = map (piece_path T) trimLines.
Proof.
  intros Hstyle Hpieces.
  destruct (trim_lines_inv so subSplitLine trimGroupId subSplitIndex T Hstyle
              trimLines w Hpieces) as (added & w' & Hrun & _).
  exists added, w'. split; [exact Hrun|].
  unfold trim_lines, bind in Hrun.
  destruct (for_fold trimLines _ ([], []) w) as [[st|e] w1] eqn:Hfold; [|discriminate].
  cbn [ret] in Hrun. injection Hrun as <- _.
  apply (trim_lines_fold_paths _ _ _ _ _ _ _ _ _ _ Hfold).
Qed.

Lemma trim_lines_copy_the_pieces_witness :
  exists added w',
    @trim_lines reference_host default_options
      (mkElement "subsplit-a_0" [M_ 0 0; L_ 10 0] basicSubSplitLineStyle
                 [("originalPathStyle"%string, "stroke:#000000"%string)])
      "shapely-subsplit-a" 0 Plain.identity
      [[(0, 0); (5, 0)]; [(5, 0); (10, 0)]] (world_of (mkDoc [] [] []))
    = (Ok added, w')
    /\ map el_path added = [[M_ 0 0; L_ 5 0]; [M_ 5 0; L_ 10 0]].
Proof.
  apply (trim_lines_copy_the_pieces reference_host default_options
           (mkElement "subsplit-a_0" [M_ 0 0; L_ 10 0] basicSubSplitLineStyle
                      [("originalPathStyle"%string, "stroke:#000000"%string)])
           "shapely-subsplit-a" 0 Plain.identity
           [[(0, 0); (5, 0)]; [(5, 0); (10, 0)]] (world_of (mkDoc [] [] []))).
  - intros _. discriminate.
  - intros piece [<- | [<- | []]]; cbn; lia.
Defined.

(** The deduplicator never deletes the last piece with a given path: after
    the children of a group were gone through, every one of them has a path
    that is in [totalTrimPaths], which holds the paths seen before and those
    of the children kept; the children kept are children of the group and no
    two of them have equal paths. *)
Theorem dedup_keeps_a_representative (so : options) (cs : list element) :
  forall (seen : list path),
    (forall e, In e cs ->
               path_in (el_path e) (snd (fst (dedup_children so seen cs))) = true)
    /\ snd (fst (dedup_children so seen cs))
       = seen ++ map el_path (fst (fst (dedup_children so seen cs)))
    /\ all_new seen (fst (fst (dedup_children so seen cs)))
    /\ (forall e, In e (fst (fst (dedup_children so seen cs))) -> In e cs).
Proof.
  induction cs as [|c cs IH]; intros seen.
  - cbn. repeat split; try tauto. now rewrite app_nil_r.
  - cbn [dedup_children].
    destruct (path_in (el_path c) seen) eqn:Ec; cbn [negb].
    + specialize (IH seen).
      destruct (dedup_children so seen cs) as [[kept seen'] ms]. cbn [fst snd] in *.
      destruct IH as (Hall & Hseen & Hnew & Hsub).
      split; [|split; [|split]]; try assumption.
      * intros e [<- | He]; [|now apply Hall].
        rewrite Hseen, path_in_app, Ec. reflexivity.
      * intros e He. right. now apply Hsub.
    + specialize (IH (seen ++ [el_path c])).
      destruct (dedup_children so (seen ++ [el_path c]) cs) as [[kept seen'] ms].
      cbn [fst snd] in *. destruct IH as (Hall & Hseen & Hnew & Hsub).
      split; [|split; [|split]].
      * intros e [<- | He]; [|now apply Hall].
        rewrite Hseen, !path_in_app. cbn [path_in existsb].
        now rewrite path_eqb_refl, orb_true_r.
      * rewrite Hseen. cbn [map]. now rewrite <- app_assoc.
      * split; assumption.
      * intros e [<- | He]; [now left | right; now apply Hsub].
Qed.

(** ** Sub-paths *)

Lemma break_subpaths_concat (rest : path) :
  forall cur first, List.concat (break_subpaths cur rest first) = cur ++ rest.
Proof.
  induction rest as [|c rest IH]; intros cur first; cbn [break_subpaths].
  - cbn. now rewrite app_nil_r.
  - destruct (Ascii.eqb (letter c) "M" && negb first).
    + cbn [List.concat]. now rewrite IH.
    + rewrite IH, <- app_assoc. reflexivity.
Qed.

Lemma no_inner_M_snoc (cur : path) (c : command) :
  cur <> [] -> no_inner_M cur -> letter c <> "M"%char -> no_inner_M (cur ++ [c]).
Proof.
  destruct cur as [|c0 cur]; [congruence|]. intros _ Hcur Hc. cbn in *.
  apply Forall_app. split; [assumption | now constructor].
Qed.

Lemma break_subpaths_no_inner_M (rest : path) :
  forall cur first,
    (first = true -> cur = []) -> (first = false -> cur <> []) -> no_inner_M cur ->
    Forall no_inner_M (break_subpaths cur rest first).
Proof.
  induction rest as [|c rest IH]; intros cur first Ht Hf Hcur; cbn [break_subpaths].
  - now constructor.
  - destruct (Ascii.eqb (letter c) "M") eqn:Ec; destruct first; cbn [andb negb].
    + rewrite (Ht eq_refl). apply IH; try discriminate. constructor.
    + constructor; [assumption|]. apply IH; try discriminate. constructor.
    + rewrite (Ht eq_refl). apply IH; try discriminate. constructor.
    + apply Ascii.eqb_neq in Ec. apply IH; try discriminate.
      * intros _. destruct cur; discriminate.
      * apply no_inner_M_snoc; auto.
Qed.

Lemma break_subpaths_heads (rest : path) :
  forall cur first,
    exists x others,
      break_subpaths cur rest first = x :: others
      /\ (starts_with_M cur -> starts_with_M x)
      /\ Forall starts_with_M others.
Proof.
  induction rest as [|c rest IH]; intros cur first; cbn [break_subpaths].
  - exists cur, []. repeat split; auto.
  - destruct (Ascii.eqb (letter c) "M" && negb first) eqn:E.
    + apply andb_true_iff in E as [Ec _]. apply Ascii.eqb_eq in Ec.
      destruct (IH [c] false) as (x & others & -> & Hx & Ho).
      exists cur, (x :: others). repeat split; auto.
      constructor; [|assumption]. apply Hx. exists c, []. auto.
    + destruct (IH (cur ++ [c]) false) as (x & others & -> & Hx & Ho).
      exists x, others. repeat split; auto.
      intros (c0 & r & -> & Hc0). apply Hx. exists c0, (r ++ [c]). auto.
Qed.

Lemma break_subpaths_single (rest : path) :
  forall cur first,
    (first = true -> cur = []) ->
    (break_subpaths cur rest first = [cur ++ rest]
     <-> Forall (fun c => letter c <> "M"%char) (if first then tl rest else rest)).
Proof.
  induction rest as [|c rest IH]; intros cur first Ht; cbn [break_subpaths].
  - rewrite app_nil_r. split; [intros _; destruct first; constructor | reflexivity].
  - destruct (Ascii.eqb (letter c) "M") eqn:Ec; destruct first; cbn [andb negb tl].
    + replace (cur ++ c :: rest) with ((cur ++ [c]) ++ rest) by (now rewrite <- app_assoc).
      apply IH. discriminate.
    + apply Ascii.eqb_eq in Ec. split.
      * intros Heq. exfalso.
        destruct (break_subpaths_heads rest [c] false) as (x & others & Hb & _).
        rewrite Hb in Heq. injection Heq as Hcur _.
        apply (f_equal (@List.length _)) in Hcur. rewrite length_app in Hcur. cbn in Hcur. lia.
      * intros HF. inversion HF; subst. congruence.
    + replace (cur ++ c :: rest) with ((cur ++ [c]) ++ rest) by (now rewrite <- app_assoc).
      apply IH. discriminate.
    + apply Ascii.eqb_neq in Ec.
      replace (cur ++ c :: rest) with ((cur ++ [c]) ++ rest) by (now rewrite <- app_assoc).
      rewrite (IH (cur ++ [c]) false) by discriminate.
      split.
      * intros HF. constructor; assumption.
      * intros HF. inversion HF; subst. assumption.
Qed.

(** The loop that breaks [raw], the commands [path.to_arrays()] gives, into
    sub-paths loses nothing and cuts only before a command with the letter
    ['M'] that is not the first: the sub-paths put together give [raw]
    back, every sub-path after the first begins with ['M'], no sub-path
    has an ['M'] after its first command, and [raw] is one sub-path exactly
    when it has no ['M'] after its first command. *)
Theorem sub_paths_partition (raw : path) :
  List.concat (sub_paths raw) = raw
  /\ (exists first others,
        sub_paths raw = first :: others /\ Forall starts_with_M others)
  /\ Forall no_inner_M (sub_paths raw)
  /\ (sub_paths raw = [raw] <-> no_inner_M raw).
Proof.
  unfold sub_paths. split; [apply break_subpaths_concat|]. split; [|split].
  - destruct (break_subpaths_heads raw [] true) as (x & others & Hb & _ & Ho).
    exists x, others. auto.
  - apply break_subpaths_no_inner_M; [reflexivity | discriminate | exact I].
  - rewrite (break_subpaths_single raw [] true (fun _ => eq_refl)). cbn [app].
    destruct raw; cbn; [split; auto | reflexivity].
Qed.

(** ** The sub split lines of a sub-path *)

Section ScanLines.
Context `{Host}.

Lemma sub_split_line_appends so k original fl g segs i st w st' w' :
  sub_split_line so k original fl g segs i st w = (Ok st', w') ->
  exists line,
    subSplitLineArray (fst st') = subSplitLineArray (fst st) ++ [line]
    /\ isSelfIntersecting (fst st') = isSelfIntersecting (fst st)
    /\ List.length (snd st') = S (List.length (snd st))
    /\ el_id line = sub_split_id (el_id original) i.
Proof.
  unfold sub_split_line. unfold bind at 1.
  destruct (line_from_segments segs i (decimals so) w) as [[[[[x1 y1] x2] y2]|e] w1];
    [|discriminate].
  unfold bind at 1. destruct (path_object k w1) as [[pe|e] w2]; [|discriminate].
  unfold bind at 1.
  match goal with |- context [match ?c w2 with _ => _ end] => destruct (c w2) as [[u|e] w3] end;
    [|discriminate].
  cbn [ret]. intros [= <- _]. cbn [fst snd subSplitLineArray isSelfIntersecting].
  eexists. split; [reflexivity|]. split; [reflexivity|]. split.
  - rewrite length_app. cbn. lia.
  - reflexivity.
Qed.

Lemma sub_split_lines_append so k original fl g segs (l : list nat) :
  forall st w st' w',
    for_fold l (sub_split_line so k original fl g segs) st w = (Ok st', w') ->
    exists lines,
      subSplitLineArray (fst st') = subSplitLineArray (fst st) ++ lines
      /\ List.length lines = List.length l
      /\ List.length (snd st') = (List.length (snd st) + List.length l)%nat
      /\ map el_id lines = map (sub_split_id (el_id original)) l.
Proof.
  induction l as [|i l IH]; intros st w st' w'; cbn [for_fold].
  - intros [= <- _]. exists []. rewrite app_nil_r. repeat split. cbn. lia.
  - unfold bind at 1.
    destruct (sub_split_line so k original fl g segs i st w) as [[st1|e] w1] eqn:Hstep;
      [|discriminate].
    intros Hrest.
    destruct (sub_split_line_appends _ _ _ _ _ _ _ _ _ _ _ Hstep) as (line & Ha & _ & Hl & Hid).
    destruct (IH _ _ _ _ Hrest) as (lines & Ha' & Hn & Hl' & Hids).
    exists (line :: lines). rewrite Ha', Ha, <- app_assoc. cbn [app List.length map].
    repeat split; try lia. now rewrite Hid, Hids.
Qed.

Lemma scan_sub_path_removed so k original fl g subPath vars w vars' w' :
  remove_self_intersecting so = true ->
  scan_sub_path so k original fl g subPath vars w = (Ok vars', w') ->
  isSelfIntersecting vars' = true ->
  exists lines,
    List.length lines = (List.length (sub_path_segs so (isBezier fl) subPath) - 1)%nat
    /\ map el_id lines
       = map (sub_split_id (el_id original))
             (seq 0 (List.length (sub_path_segs so (isBezier fl) subPath) - 1))
    /\ subSplitLineArray vars'
       = slice_to (subSplitLineArray vars ++ lines)
           (Z.of_nat (List.length (subSplitLineArray vars ++ lines))
            - Z.of_nat (List.length (sub_path_segs so (isBezier fl) subPath)) - 1).
Proof.
  intros Hrm. unfold scan_sub_path. rewrite Hrm.
  set (segs := sub_path_segs so (isBezier fl) subPath).
  unfold bind at 1.
  destruct (for_fold _ _ _ w) as [[st|e] w1] eqn:Hfold; [|discriminate].
  destruct (sub_split_lines_append _ _ _ _ _ _ _ _ _ _ _ Hfold) as (lines & Ha & Hn & _ & Hids).
  cbn [fst] in Ha. rewrite length_seq in Hn.
  unfold bind at 1, lift_result at 1.
  destruct (isect_segments (snd st) true) as [pts|e]; [|discriminate].
  destruct (0 <? List.length pts)%nat.
  2:{ cbn [ret]. intros [= <- _]. discriminate. }
  unfold bind at 1.
  match goal with |- context [match ?c w1 with _ => _ end] => destruct (c w1) as [[u|e] w2] end;
    [|discriminate].
  unfold bind at 1.
  match goal with |- context [match ?c w2 with _ => _ end] => destruct (c w2) as [[u2|e] w3] end;
    [|discriminate].
  unfold bind at 1.
  match goal with |- context [match ?c w3 with _ => _ end] => destruct (c w3) as [[u3|e] w4] end;
    [|discriminate].
  unfold bind at 1, delete_path, modify_doc. cbn [ret].
  intros [= <- _] _. exists lines. split; [exact Hn|]. split; [exact Hids|].
  cbn [subSplitLineArray]. now rewrite Ha.
Qed.

Lemma slice_to_two_short {A} (arr lines : list A) (n : nat) :
  (1 <= n)%nat -> List.length lines = (n - 1)%nat ->
  (2 <= List.length arr)%nat ->
  slice_to (arr ++ lines) (Z.of_nat (List.length (arr ++ lines)) - Z.of_nat n - 1)
  = firstn (List.length arr - 2) arr.
Proof.
  intros Hn Hlines Harr. unfold slice_to. rewrite length_app, Hlines.
  replace (Z.of_nat (List.length arr + (n - 1)) - Z.of_nat n - 1)%Z
    with (Z.of_nat (List.length arr - 2)) by lia.
  replace (0 <=? Z.of_nat (List.length arr - 2))%Z with true
    by (symmetry; apply Z.leb_le; lia).
  rewrite Nat2Z.id, firstn_app.
  replace (List.length arr - 2 - List.length arr)%nat with 0%nat by lia.
  cbn [firstn]. now rewrite app_nil_r.
Qed.

Lemma slice_to_own_lines {A} (lines : list A) (n : nat) :
  (1 <= n)%nat -> List.length lines = (n - 1)%nat ->
  slice_to ([] ++ lines) (Z.of_nat (List.length ([] ++ lines)) - Z.of_nat n - 1)
  = firstn (List.length lines - 2) lines.
Proof.
  intros Hn Hlines. unfold slice_to. cbn [app]. rewrite Hlines.
  replace (Z.of_nat (n - 1) - Z.of_nat n - 1)%Z with (-2)%Z by lia.
  cbn [Z.leb Z.compare]. f_equal. lia.
Qed.

(** With [remove_self_intersecting], a sub-path found to intersect itself
    takes [len(segs) + 1] entries off the end of [subSplitLineArray], two
    more than the [len(segs) - 1] lines made for it. *)
Theorem self_intersecting_cut_is_two_too_long so k original fl g subPath vars w vars' w' :
  remove_self_intersecting so = true ->
  scan_sub_path so k original fl g subPath vars w = (Ok vars', w') ->
  isSelfIntersecting vars' = true ->
  (1 <= List.length (sub_path_segs so (isBezier fl) subPath))%nat ->
  ((2 <= List.length (subSplitLineArray vars))%nat ->
   subSplitLineArray vars'
   = firstn (List.length (subSplitLineArray vars) - 2) (subSplitLineArray vars))
  /\ (subSplitLineArray vars = [] ->
      exists lines,
        List.length lines
        = (List.length (sub_path_segs so (isBezier fl) subPath) - 1)%nat
        /\ map el_id lines
           = map (sub_split_id (el_id original))
                 (seq 0 (List.length (sub_path_segs so (isBezier fl) subPath) - 1))
        /\ subSplitLineArray vars' = firstn (List.length lines - 2) lines).
Proof.
  intros Hrm Hrun Hflag Hsegs.
  destruct (scan_sub_path_removed _ _ _ _ _ _ _ _ _ _ Hrm Hrun Hflag)
    as (lines & Hn & Hids & Harr).
  split.
  - intros Hlong. rewrite Harr. now apply slice_to_two_short.
  - intros Hempty. exists lines. split; [exact Hn|]. split; [exact Hids|].
    rewrite Harr, Hempty. now apply slice_to_own_lines.
Qed.

End ScanLines.

Lemma self_intersecting_cut_is_two_too_long_witness :
  exists vars' w',
    @scan_sub_path reference_host (with_remove_self_intersecting true default_options) 0
      (pe_elem (path_in_root "bow" bowtie_path)) (mkFlags false true false false false)
      None bowtie_path (mkScan [] None false) bowtie_world
    = (Ok vars', w')
    /\ map el_id (subSplitLineArray vars') = ["subsplit-bow_0"%string].
Proof.
  remember (@scan_sub_path reference_host (with_remove_self_intersecting true default_options)
              0 (pe_elem (path_in_root "bow" bowtie_path))
              (mkFlags false true false false false) None bowtie_path
              (mkScan [] None false) bowtie_world) as r eqn:Hr.
  pose proof Hr as Hval. vm_compute in Hval.
  destruct r as [[vars'|e] w']; [|discriminate].
  exists vars', w'. split; [reflexivity|].
  assert (Hflag : isSelfIntersecting vars' = true) by (injection Hval as -> _; reflexivity).
  destruct (proj2 (self_intersecting_cut_is_two_too_long
                     (with_remove_self_intersecting true default_options) 0
                     (pe_elem (path_in_root "bow" bowtie_path))
                     (mkFlags false true false false false) None bowtie_path
                     (mkScan [] None false) bowtie_world vars' w'
                     eq_refl (eq_sym Hr) Hflag ltac:(vm_compute; lia)) eq_refl)
    as (lines & Hn & Hids & Hrest).
  rewrite Hrest. vm_compute in Hn, Hids.
  destruct lines as [|l0 [|l1 [|l2 [|l3 lines]]]]; try discriminate.
  injection Hids as Hid0 _ _. cbn [List.length Nat.sub firstn map]. f_equal. exact Hid0.
Defined.

(** The sub split lines of a sub-path are numbered from 0, whatever was
    collected before: unless the sub-path is cut off again for intersecting
    itself, it adds [len(segs) - 1] lines with the ids
    [subsplit-<id>_0], [subsplit-<id>_1], ... after what was in the array,
    so the lines of two sub-paths of one path share their ids. *)
Theorem sub_split_lines_numbered_per_sub_path (H : Host) (so : options) (k : nat)
    (original : element) (fl : path_flags) (g : option nat) (subPath : path)
    (vars vars' : scan_vars) (w w' : world) :
  scan_sub_path so k original fl g subPath vars w = (Ok vars', w') ->
  remove_self_intersecting so && isSelfIntersecting vars' = false ->
  exists lines,
    subSplitLineArray vars' = subSplitLineArray vars ++ lines
    /\ map el_id lines
       = map (sub_split_id (el_id original))
             (seq 0 (List.length (sub_path_segs so (isBezier fl) subPath) - 1)).
Proof.
  unfold scan_sub_path.
  set (segs := sub_path_segs so (isBezier fl) subPath).
  unfold bind at 1.
  destruct (for_fold _ _ _ w) as [[st|e] w1] eqn:Hfold; [|discriminate].
  destruct (sub_split_lines_append _ _ _ _ _ _ _ _ _ _ _ Hfold) as (lines & Ha & _ & _ & Hids).
  cbn [fst] in Ha.
  unfold bind at 1, lift_result at 1.
  destruct (isect_segments (snd st) true) as [pts|e]; [|discriminate].
  destruct (0 <? List.length pts)%nat.
  2:{ cbn [ret]. intros [= <- _] _. exists lines. cbn [subSplitLineArray]. now split. }
  unfold bind at 1.
  match goal with |- context [match ?c w1 with _ => _ end] => destruct (c w1) as [[u|e] w2] end;
    [|discriminate].
  unfold bind at 1.
  match goal with |- context [match ?c w2 with _ => _ end] => destruct (c w2) as [[u2|e] w3] end;
    [|discriminate].
  unfold bind at 1.
  match goal with |- context [match ?c w3 with _ => _ end] => destruct (c w3) as [[u3|e] w4] end;
    [|discriminate].
  destruct (remove_self_intersecting so).
  - unfold bind at 1, delete_path, modify_doc. cbn [ret]. intros [= <- _]. discriminate.
  - cbn [ret]. intros [= <- _] _. exists lines. cbn [subSplitLineArray]. now split.
Qed.

Lemma sub_split_lines_numbered_per_sub_path_witness :
  exists vars' w',
    @scan_sub_path reference_host default_options 0
      (pe_elem (path_in_root "corner" corner_path)) (mkFlags false true false false false)
      None corner_path
      (mkScan [mkElement "subsplit-corner_0" [] basicSubSplitLineStyle []] None false)
      corner_world
    = (Ok vars', w')
    /\ map el_id (subSplitLineArray vars')
       = ["subsplit-corner_0"; "subsplit-corner_0"; "subsplit-corner_1"]%string.
Proof.
  remember (@scan_sub_path reference_host default_options 0
              (pe_elem (path_in_root "corner" corner_path))
              (mkFlags false true false false false) None corner_path
              (mkScan [mkElement "subsplit-corner_0" [] basicSubSplitLineStyle []] None false)
              corner_world) as r eqn:Hr.
  pose proof Hr as Hval. vm_compute in Hval.
  destruct r as [[vars'|e] w']; [|discriminate].
  exists vars', w'. split; [reflexivity|].
  destruct (sub_split_lines_numbered_per_sub_path reference_host default_options 0 _ _ _ _
              _ vars' _ w' (eq_sym Hr) eq_refl) as (lines & -> & Hids).
  rewrite map_app, Hids. reflexivity.
Defined.

(** ** Runs that only report *)

Lemma reports_ret {A} (a : A) : only_reports (ret a).
Proof. intros w; split; reflexivity. Qed.

Lemma reports_raise {A} (e : exn) : only_reports (@raise A e).
Proof. intros w; split; reflexivity. Qed.

Lemma reports_lift_result {A} (r : result A) : only_reports (lift_result r).
Proof. intros w; split; reflexivity. Qed.

Lemma reports_bind {A B} (c : M A) (k : A -> M B) :
  only_reports c -> (forall a, only_reports (k a)) -> only_reports (bind c k).
Proof.
  intros Hc Hk w. unfold bind. specialize (Hc w).
  destruct (c w) as [[a|e] w1]; cbn [snd] in *; [|exact Hc].
  destruct Hc as [Hd Hn]. destruct (Hk a w1) as [Hd' Hn']. split; congruence.
Qed.

Lemma reports_msg (m : message) : only_reports (msg m).
Proof. intros w; split; reflexivity. Qed.

Lemma reports_debug (so : options) (m : message) : only_reports (debug so m).
Proof. unfold debug. destruct (show_debug so); [apply reports_msg | apply reports_ret]. Qed.

Lemma reports_get_doc : only_reports get_doc.
Proof. intros w; split; reflexivity. Qed.

Lemma reports_index {A} (l : list A) (i : nat) : only_reports (index l i).
Proof. unfold index. destruct (nth_error l i); [apply reports_ret | apply reports_raise]. Qed.

Lemma reports_index_last2 (a : list Q) : only_reports (index_last2 a).
Proof. unfold index_last2. destruct (last2 a); [apply reports_ret | apply reports_raise]. Qed.

Lemma reports_when (b : bool) (c : M unit) : (b = true -> only_reports c) -> only_reports (when b c).
Proof. intros Hc. destruct b; [auto | apply reports_ret]. Qed.

Lemma reports_for_fold {A S} (l : list A) (body : A -> S -> M S) :
  (forall x s, only_reports (body x s)) -> forall s, only_reports (for_fold l body s).
Proof.
  intros Hbody. induction l as [|x l IH]; intros s; cbn [for_fold].
  - apply reports_ret.
  - apply reports_bind; auto.
Qed.

Lemma reports_for_each {A} (l : list A) (body : A -> M unit) :
  (forall x, only_reports (body x)) -> only_reports (for_each l body).
Proof.
  intros Hbody. induction l as [|x l IH]; cbn [for_each].
  - apply reports_ret.
  - apply reports_bind; auto.
Qed.

Lemma reports_modify_doc (f : document -> document) :
  (forall d, f d = d) -> only_reports (modify_doc f).
Proof. intros Hf w. cbn. split; [apply Hf | reflexivity]. Qed.

Create HintDb reports.

#[local] Hint Resolve reports_ret reports_raise reports_lift_result reports_msg
  reports_debug reports_get_doc reports_index reports_index_last2 : reports.

Ltac reports_step :=
  first
    [ apply reports_bind; [|intro]
    | apply reports_for_fold; intros
    | apply reports_for_each; intros
    | solve [auto with reports]
    | match goal with
      | |- only_reports (if ?b then _ else _) => destruct b
      | |- only_reports (match ?x with _ => _ end) => destruct x
      | |- only_reports (let (_, _) := ?x in _) => destruct x
      end ].

Section ScanOnly.
Context `{Host}.

Lemma reports_line_from_segments (segs : path) (i : nat) (dec : Z) :
  only_reports (line_from_segments segs i dec).
Proof. unfold line_from_segments. repeat reports_step. Qed.

Lemma reports_path_object (k : nat) : only_reports (path_object k).
Proof. unfold path_object. repeat reports_step. Qed.

Lemma reports_group_object (g : nat) : only_reports (group_object g).
Proof. unfold group_object. repeat reports_step. Qed.

Lemma reports_sub_split_line so k original fl g segs i st :
  draw_subsplit so = false ->
  only_reports (sub_split_line so k original fl g segs i st).
Proof.
  intros Hdraw. unfold sub_split_line. rewrite Hdraw.
  apply reports_bind; [apply reports_line_from_segments | intros [[[x1 y1] x2] y2]].
  apply reports_bind; [apply reports_path_object | intros pe].
  apply reports_bind; [|intros _; apply reports_ret].
  destruct g; apply reports_ret.
Qed.

Lemma reports_scan_sub_path so k original fl g subPath vars :
  scan_only so = true ->
  only_reports (scan_sub_path so k original fl g subPath vars).
Proof.
  unfold scan_only, no_scan_edits.
  rewrite !andb_true_iff, !negb_true_iff, !orb_false_iff.
  intros [[[[Hedits Hdraw] Hvis] _] _].
  destruct Hedits as [[[[[[[[[[[[[[[[_ _] _] _] _] _] _] Hsi] _] _] _] _] _] _] _] _] _].
  unfold scan_sub_path. rewrite Hsi, Hvis, Hdraw. cbn [andb when].
  apply reports_bind.
  { apply reports_for_fold. intros. now apply reports_sub_split_line. }
  intros st. apply reports_bind; [apply reports_lift_result | intros pts].
  destruct (0 <? List.length pts)%nat; [|apply reports_ret].
  apply reports_bind; [repeat reports_step | intros _].
  apply reports_bind; [destruct g; repeat reports_step | intros _].
  apply reports_bind; apply reports_ret.
Qed.

Lemma document_eta (d : document) (ps : list pathElement) :
  ps = d_paths d -> mkDoc ps (d_groups d) (d_markers d) = d.
Proof. intros ->. destruct d; reflexivity. Qed.

Lemma reports_scan_path so k vars :
  scan_only so = true -> only_reports (scan_path so k vars).
Proof.
  intros Honly. pose proof Honly as Hflags.
  unfold scan_only in Hflags.
  rewrite !andb_true_iff, !negb_true_iff in Hflags.
  destruct Hflags as [[[[Hoff Hdraw] Hvis] _] _]. pose proof Hoff as Hedits.
  unfold no_scan_edits in Hedits. rewrite negb_true_iff, !orb_false_iff in Hedits.
  destruct Hedits as [[[[[[[[[[[[[[[[Hrel Habs] Hmix] Hpoly] Hbez] Hop] Hcl] Hsi]
                              _] _] _] _] _] _] _] Hhsi] Hfill].
  unfold scan_path.
  apply reports_bind; [apply reports_path_object | intros pe].
  destruct (path_flags_of _) as [[[r a] m] b].
  rewrite Habs, Hrel, Hmix, Hbez, Hpoly, Hop, Hcl, Hfill, Hhsi, Hdraw. cbn [andb].
  apply reports_bind; [apply reports_debug | intros _].
  destruct (closed_test _) as [c|]; [|apply reports_raise].
  apply reports_bind; [apply reports_ret | intros g].
  apply reports_bind.
  { apply reports_for_fold. intros. now apply reports_scan_sub_path. }
  intros vars1.
  apply reports_bind; [apply reports_ret | intros _].
  apply reports_bind.
  { apply reports_modify_doc. intros d. unfold update_path. apply document_eta.
    apply update_nth_unchanged. intros [par [i p s at']].
    unfold set_path_style, set_style. cbn. now rewrite highlight_off. }
  intros _. rewrite andb_false_r. apply reports_bind; apply reports_ret.
Qed.

Lemma reports_effect so : scan_only so = true -> only_reports (effect so).
Proof.
  intros Honly. unfold effect, effect_scan, get_path_elements, scan.
  assert (Hwhole : break_apart so = false).
  { unfold scan_only in Honly. apply andb_true_iff in Honly as [_ Hb].
    now apply negb_true_iff. }
  rewrite Hwhole.
  apply reports_bind.
  - apply reports_bind; [apply reports_when; intros; apply reports_msg | intros _].
    apply reports_bind; [repeat reports_step | intros pathElements].
    apply reports_bind; [|intros vars; apply reports_ret].
    apply reports_bind; [|intros vars; repeat reports_step].
    apply reports_for_fold. intros. now apply reports_scan_path.
  - intros r. unfold trim_stage.
    unfold scan_only in Honly. rewrite !andb_true_iff, !negb_true_iff in Honly.
    destruct Honly as [[_ ->] _]. apply reports_ret.
Qed.

End ScanOnly.

(** With nothing but the scan asked for, which is what the defaults of
    [add_arguments] ask for, [effect] leaves the document as it is, however
    the run ends: it only reports. *)
Theorem scan_only_changes_nothing (H : Host) (so : options) (w : world) :
  scan_only so = true -> w_doc (snd (effect so w)) = w_doc w.
Proof. intros Honly. apply (reports_effect so Honly w). Qed.

Lemma scan_only_changes_nothing_witness :
  scan_only default_options = true
  /\ w_doc (snd (@effect reference_host default_options corner_world)) = w_doc corner_world.
Proof.
  split; [reflexivity|].
  apply (scan_only_changes_nothing reference_host default_options corner_world).
  reflexivity.
Defined.

(** ** An empty selection *)

(** Without a path element [effect] shows the message about the empty
    selection, after the break-apart warning if that is due, and exits;
    the document is not touched. *)
Theorem no_path_elements_exit (H : Host) (so : options) (gs : list group)
    (ms : list markerGroup) (shown : list message) (n : nat) :
  exists warning,
    effect so (mkWorld (mkDoc [] gs ms) shown n)
    = (Raise SystemExit,
       mkWorld (mkDoc [] gs ms)
         (shown ++ warning
          ++ [Msg "Selection appears to be empty or does not contain any valid svg:path nodes. Try to cast your objects to paths using CTRL + SHIFT + C or strokes to paths using CTRL + ALT + C" []])
         n)
    /\ (break_apart so && show_debug so = false -> warning = []).
Proof.
  unfold effect, effect_scan, get_path_elements, when.
  destruct (break_apart so && show_debug so).
  - eexists [_]. split; [|discriminate].
    cbn. rewrite <- app_assoc. reflexivity.
  - exists []. split; [reflexivity | reflexivity].
Qed.

(** ** [trim_bezier] *)

Section TrimBezier.
Context `{Host}.

Lemma reports_trim_bezier_group so g : only_reports (trim_bezier_group so g).
Proof.
  unfold trim_bezier_group, group_attrib_get.
  apply reports_bind; [apply reports_group_object | intros trimGroup].
  repeat reports_step.
Qed.

Lemma debug_returns (so : options) (m : message) (w : world) :
  exists w', debug so m w = (Ok tt, w').
Proof. unfold debug. destruct (show_debug so); eexists; reflexivity. Qed.

Lemma sum_of_zero_lengths (cs : list element) (acc : Q) :
  (forall e, In e cs -> csplength (el_path e) == 0) -> acc == 0 ->
  fold_left (fun a trimLine => a + csplength (el_path trimLine)) cs acc == 0.
Proof.
  revert acc. induction cs as [|c cs IH]; intros acc Hall Hacc; cbn [fold_left].
  - exact Hacc.
  - apply IH.
    + intros e He. apply Hall. now right.
    + rewrite Hacc, (Hall c) by now left. reflexivity.
Qed.

Lemma t_parameters_divide so (totalLength : Q) (n : nat) (cs : list element) :
  Qeq_bool totalLength 0 = true ->
  forall a st w,
    cs <> [] -> (a + List.length cs = n)%nat ->
    fst (for_fold (combine (seq a (List.length cs)) cs)
           (fun jt st =>
              let chainLength := fst st + csplength (el_path (snd jt)) in
              if has_key "intersected" (el_attrib (snd jt)) || (S (fst jt) =? n)%nat then
                if Qeq_bool totalLength 0 then raise ZeroDivisionError else
                let globalTParameter := chainLength / totalLength in
                debug so (Msg "chain piece length = {}" [FQ chainLength]) ;;
                debug so (Msg "t parameter = {}" [FQ globalTParameter]) ;;
                ret (0, snd st ++ [globalTParameter])
              else ret (chainLength, snd st))
           st w)
    = Raise ZeroDivisionError.
Proof.
  intros Hzero. induction cs as [|c cs IH]; intros a st w Hne Hlen; [congruence|].
  cbn [List.length seq combine for_fold]. unfold bind at 1. cbn [fst snd].
  destruct (has_key "intersected" (el_attrib c) || (S a =? n)%nat) eqn:Hcut.
  - rewrite Hzero. reflexivity.
  - cbn [ret]. destruct cs as [|c' cs].
    + cbn [List.length] in Hlen. apply orb_false_iff in Hcut as [_ Hlast].
      apply Nat.eqb_neq in Hlast. lia.
    + apply IH; [discriminate|]. cbn [List.length] in *. lia.
Qed.

End TrimBezier.

(** [trim_bezier] computes and, in debug mode, prints; it leaves the
    document and the id counter as they were, however it ends. *)
Theorem trim_bezier_changes_nothing (H : Host) (so : options) (allTrimGroups : list nat)
    (w : world) :
  w_doc (snd (trim_bezier so allTrimGroups w)) = w_doc w
  /\ w_next_id (snd (trim_bezier so allTrimGroups w)) = w_next_id w.
Proof.
  unfold trim_bezier. apply reports_for_each. intros g. apply reports_trim_bezier_group.
Qed.

(** A trim group of a bezier path whose trim lines all have length zero
    makes [trim_bezier] divide by zero. *)
Theorem trim_bezier_zero_length (H : Host) (so : options) (g : nat) (w : world)
    (trimGroup : group) :
  nth_error (d_groups (w_doc w)) g = Some trimGroup ->
  attr "originalPathIsBezier" (g_attrib trimGroup) = Some "True"%string ->
  g_children trimGroup <> [] ->
  (forall trimLine, In trimLine (g_children trimGroup) ->
                    csplength (el_path trimLine) == 0) ->
  fst (trim_bezier_group so g w) = Raise ZeroDivisionError.
Proof.
  intros Hg Hbez Hne Hzero. unfold trim_bezier_group.
  unfold bind at 1. unfold group_object, bind at 1, get_doc, index. rewrite Hg. cbn [ret].
  rewrite Hbez. cbn [String.eqb Ascii.eqb Bool.eqb].
  unfold bind at 1.
  match goal with |- context [debug so ?m ?w0] => destruct (debug_returns so m w0) as [w1 ->] end.
  unfold bind at 1.
  match goal with |- context [debug so ?m ?w0] => destruct (debug_returns so m w0) as [w2 ->] end.
  unfold bind at 1.
  match goal with
  | |- context [for_fold ?l ?body ?st w2] =>
      pose proof (t_parameters_divide so _ (List.length (g_children trimGroup))
                    (g_children trimGroup)
                    (proj2 (Qeq_bool_iff _ _)
                       (sum_of_zero_lengths _ 0 Hzero (Qeq_refl 0)))
                    0%nat st w2 Hne eq_refl) as Hdiv;
      destruct (for_fold l body st w2) as [[st'|e] w3]
  end; cbn [fst] in Hdiv; [discriminate|].
  cbn [fst]. congruence.
Qed.

Lemma trim_bezier_zero_length_witness :
  fst (@trim_bezier_group reference_host default_options 0 (world_of degenerate_bezier_group))
  = Raise ZeroDivisionError.
Proof.
  refine (trim_bezier_zero_length reference_host default_options 0
            (world_of degenerate_bezier_group) _ eq_refl eq_refl _ _).
  - discriminate.
  - intros trimLine _. reflexivity.
Defined.

(** ** Sub split lines that are not trimmed *)

Section Skipped.
Context `{Host}.

Lemma build_trim_line_group_skipped so arr i pts line w :
  nth_error arr i = Some line -> skipped so line = true ->
  build_trim_line_group so arr i pts w = (Ok None, w).
Proof.
  intros Hline Hskip. unfold build_trim_line_group, skipped in *.
  unfold bind at 1, index. rewrite Hline. cbn [ret].
  unfold bind at 1, attrib_get.
  destruct (attr "originalPathIsClosed" (el_attrib line)) as [c|]; [|discriminate].
  cbn [ret].
  destruct (trimming_path_types so); try discriminate; rewrite Hskip; reflexivity.
Qed.

Lemma no_trim_groups so arr pts (l : list nat) :
  Forall (fun line => skipped so line = true) arr ->
  Forall (fun i => (i < List.length arr)%nat) l ->
  forall acc w,
    for_fold l
      (fun subSplitIndex allTrimGroups =>
         trimGroup <- build_trim_line_group so arr subSplitIndex pts ;;
         match trimGroup with
         | Some g =>
             if negb (existsb (Nat.eqb g) allTrimGroups)
             then ret (allTrimGroups ++ [g]) else ret allTrimGroups
         | None => ret allTrimGroups
         end) acc w
    = (Ok acc, w).
Proof.
  intros Hskip. induction 1 as [|i l Hi _ IH]; intros acc w; [reflexivity|].
  cbn [for_fold]. unfold bind at 1. unfold bind at 1.
  destruct (nth_error arr i) as [line|] eqn:Hline.
  2:{ apply nth_error_None in Hline. lia. }
  rewrite (build_trim_line_group_skipped so arr i pts line w Hline).
  - cbn [ret]. apply IH.
  - rewrite Forall_forall in Hskip. apply Hskip. eapply nth_error_In. exact Hline.
Qed.

Lemma delete_paths_run (pathElements : list nat) :
  forall w,
    for_each pathElements delete_path w
    = (Ok tt, mkWorld (fold_left (fun d k => update_path k detach_path d) pathElements (w_doc w))
                      (w_msgs w) (w_next_id w)).
Proof.
  induction pathElements as [|k l IH]; intros w; cbn [for_each fold_left].
  - destruct w; reflexivity.
  - unfold bind at 1, delete_path at 1, modify_doc at 1. rewrite IH. reflexivity.
Qed.

Lemma update_nth_length {A} (f : A -> A) (l : list A) (n : nat) :
  List.length (update_nth n f l) = List.length l.
Proof. revert n; induction l as [|x l IH]; intros [|n]; cbn; auto. Qed.

Lemma deleted_paths (pathElements : list nat) :
  forall d,
    d_groups (fold_left (fun d k => update_path k detach_path d) pathElements d) = d_groups d
    /\ d_markers (fold_left (fun d k => update_path k detach_path d) pathElements d)
       = d_markers d
    /\ forall k pe,
         nth_error (d_paths d) k = Some pe ->
         nth_error (d_paths (fold_left (fun d k => update_path k detach_path d)
                                       pathElements d)) k
         = Some (if existsb (Nat.eqb k) pathElements then detach_path pe else pe).
Proof.
  induction pathElements as [|j l IH]; intros d; cbn [fold_left existsb].
  - repeat split. auto.
  - destruct (IH (update_path j detach_path d)) as (Hg & Hm & Hp).
    split; [exact Hg|]. split; [exact Hm|].
    intros k pe Hk. destruct (Nat.eqb k j) eqn:Ekj; cbn [orb].
    + apply Nat.eqb_eq in Ekj. subst j.
      rewrite (Hp k (detach_path pe)).
      * now destruct (existsb (Nat.eqb k) l).
      * cbn [update_path d_paths]. now rewrite nth_error_update_nth_same, Hk.
    + apply Nat.eqb_neq in Ekj. apply Hp.
      cbn [update_path d_paths]. rewrite nth_error_update_nth_other by congruence.
      exact Hk.
Qed.

End Skipped.

(** When every sub split line is skipped by the path-type filter (with the
    default [closed_paths]: when every path is open), the trimming stage
    draws nothing, says so, and still deletes every original path unless
    [keep_original_after_trim] is on. *)
Theorem skipped_lines_still_delete_originals (H : Host) (so : options)
    (pathElements : list nat) (subSplitLineArray : list element)
    (globalIntersectionPoints : list point) (w : world) :
  Forall (fun line => skipped so line = true) subSplitLineArray ->
  visualize_global_intersections_opt so = false ->
  keep_original_after_trim so = false ->
  exists w',
    trim_all so pathElements subSplitLineArray globalIntersectionPoints w = (Ok tt, w')
    /\ d_groups (w_doc w') = d_groups (w_doc w)
    /\ d_markers (w_doc w') = d_markers (w_doc w)
    /\ (forall k pe,
          In k pathElements -> nth_error (d_paths (w_doc w)) k = Some pe ->
          nth_error (d_paths (w_doc w')) k = Some (detach_path pe))
    /\ In (Msg "You selected to draw trimmed lines but no intersections could be calculated." [])
          (w_msgs w').
Proof.
  intros Hskip Hvis Hkeep. unfold trim_all. rewrite Hvis, Hkeep. cbn [when negb].
  unfold bind at 1. cbn [ret]. unfold bind at 1.
  rewrite (no_trim_groups so subSplitLineArray globalIntersectionPoints _ Hskip).
  2:{ apply Forall_forall. intros i Hi. apply in_seq in Hi. lia. }
  unfold bind at 1.
  match goal with |- context [debug so ?m ?w0] => destruct (debug_returns so m w0) as [w1 Hdbg] end.
  assert (Hw1 : w_doc w1 = w_doc w /\ exists ms, w_msgs w1 = w_msgs w ++ ms).
  { revert Hdbg. unfold debug, msg, ret. destruct (show_debug so); intros [= <-].
    - cbn. split; [reflexivity | eexists; reflexivity].
    - split; [reflexivity | exists []; now rewrite app_nil_r]. }
  rewrite Hdbg. clear Hdbg. destruct Hw1 as [Hd1 [ms Hm1]].
  cbn [List.length Nat.eqb when]. unfold bind at 1, msg at 1.
  unfold bind at 1.
  assert (Hbez : forall w0, when (bezier_trimming so) (trim_bezier so []) w0 = (Ok tt, w0)).
  { intros w0. destruct (bezier_trimming so); reflexivity. }
  rewrite Hbez. unfold bind at 1.
  assert (Hdup : forall w0, when (remove_duplicates_opt so) (remove_duplicates so []) w0
                            = (Ok tt, w0)).
  { intros w0. destruct (remove_duplicates_opt so); [|reflexivity].
    unfold when, remove_duplicates, remove_duplicates_doc.
    destruct (reverse_removal_order so); cbn; now rewrite world_eta. }
  rewrite Hdup. unfold bind at 1.
  assert (Hcomb : forall w0, when (combine_nonintersects_opt so) (combine_nonintersects so []) w0
                             = (Ok tt, w0)).
  { intros w0. destruct (combine_nonintersects_opt so); reflexivity. }
  rewrite Hcomb, delete_paths_run. cbn [w_doc w_msgs w_next_id].
  eexists. split; [reflexivity|]. cbn [w_doc w_msgs].
  destruct (deleted_paths pathElements (w_doc w1)) as (Hg & Hm & Hp).
  rewrite Hg, Hm, Hd1. split; [reflexivity|]. split; [reflexivity|]. split.
  - intros k pe Hin Hk. rewrite Hd1 in Hp. rewrite (Hp k pe Hk).
    replace (existsb (Nat.eqb k) pathElements) with true; [reflexivity|].
    symmetry. apply existsb_exists. exists k. split; [exact Hin | apply Nat.eqb_refl].
  - apply in_or_app. right. now left.
Qed.

Lemma skipped_lines_still_delete_originals_witness :
  exists w',
    @trim_all reference_host trimming_options [0; 1]%nat [open_sub_split_line] [(1 # 2, 0)]
      two_lines_world = (Ok tt, w')
    /\ d_groups (w_doc w') = d_groups (w_doc two_lines_world)
    /\ d_markers (w_doc w') = d_markers (w_doc two_lines_world)
    /\ (forall k pe,
          In k [0; 1]%nat -> nth_error (d_paths (w_doc two_lines_world)) k = Some pe ->
          nth_error (d_paths (w_doc w')) k = Some (detach_path pe))
    /\ In (Msg "You selected to draw trimmed lines but no intersections could be calculated." [])
          (w_msgs w').
Proof.
  apply (skipped_lines_still_delete_originals reference_host trimming_options [0; 1]%nat
           [open_sub_split_line] [(1 # 2, 0)] two_lines_world).
  - repeat constructor.
  - reflexivity.
  - reflexivity.
Defined.

(** ** Ids of sub split lines *)

Lemma str_app_nil_r (s : string) : (s ++ "")%string = s.
Proof. induction s as [|c s IH]; cbn; [reflexivity | now rewrite IH]. Qed.

Lemma str_app_assoc (a b c : string) : ((a ++ b) ++ c)%string = (a ++ b ++ c)%string.
Proof. induction a as [|x a IH]; cbn; [reflexivity | now rewrite IH]. Qed.

Lemma split_char_head (c : ascii) (s : string) :
  forall cur,
    hd EmptyString (PyStr.split_go (String c EmptyString) s 0 cur)
    = (cur ++ before_char c s)%string.
Proof.
  induction s as [|x s IH]; intros cur; cbn [PyStr.split_go before_char hd].
  - now rewrite str_app_nil_r.
  - cbn [PyStr.startswith]. rewrite andb_true_r, Ascii.eqb_sym.
    destruct (Ascii.eqb x c); cbn [hd].
    + now rewrite str_app_nil_r.
    + rewrite IH, str_app_assoc. reflexivity.
Qed.

Lemma split_without_separator (sep s : string) :
  PyStr.contains sep s = false ->
  forall cur, PyStr.split_go sep s 0 cur = [(cur ++ s)%string].
Proof.
  induction s as [|x s IH]; intros Hs cur; cbn [PyStr.split_go].
  - now rewrite str_app_nil_r.
  - cbn [PyStr.contains] in Hs. apply orb_false_iff in Hs as [Hhere Hlater].
    rewrite Hhere, (IH Hlater), str_app_assoc. reflexivity.
Qed.

Lemma before_char_app (c : ascii) (a b : string) :
  before_char c (a ++ String c b) = before_char c a.
Proof.
  induction a as [|x a IH]; cbn [append before_char].
  - now rewrite Ascii.eqb_refl.
  - destruct (Ascii.eqb x c); [reflexivity | now rewrite IH].
Qed.

Lemma before_char_absent (c : ascii) (s : string) :
  PyStr.contains (String c EmptyString) s = false -> before_char c s = s.
Proof.
  induction s as [|x s IH]; [reflexivity|].
  cbn [PyStr.contains PyStr.startswith before_char]. rewrite andb_true_r, Ascii.eqb_sym.
  intros Hs. apply orb_false_iff in Hs as [-> Hlater]. now rewrite IH.
Qed.

Lemma split_str_head (sep s : string) :
  forall cur,
    nth_error (PyStr.split_go sep s 0 cur) 0 = Some (cur ++ before_str sep s)%string.
Proof.
  induction s as [|x s IH]; intros cur; cbn [PyStr.split_go before_str].
  - cbn [nth_error]. now rewrite str_app_nil_r.
  - destruct (PyStr.startswith sep (String x s)).
    + cbn [nth_error]. now rewrite str_app_nil_r.
    + rewrite IH, str_app_assoc. reflexivity.
Qed.

Lemma startswith_underscore (sep : string) :
  PyStr.contains "_" sep = false ->
  forall a b, PyStr.startswith sep (a ++ String "_" b) = PyStr.startswith sep a.
Proof.
  induction sep as [|x sep IH]; intros Hfree a b; [now destruct a|].
  cbn [PyStr.contains PyStr.startswith] in Hfree.
  rewrite andb_true_r in Hfree. apply orb_false_iff in Hfree as [Hx Hsep].
  destruct a as [|y a]; cbn [append PyStr.startswith].
  - now rewrite Ascii.eqb_sym, Hx.
  - now rewrite (IH Hsep).
Qed.

Lemma before_str_underscore (sep a b : string) :
  PyStr.contains "_" sep = false -> sep <> EmptyString ->
  before_char "_" (before_str sep (a ++ String "_" b)) = before_char "_" (before_str sep a).
Proof.
  intros Hfree Hsep. induction a as [|y a IH].
  - cbn [append before_str].
    replace (PyStr.startswith sep (String "_" b)) with false.
    + cbn [before_char]. now rewrite Ascii.eqb_refl.
    + symmetry. change (String "_" b) with (EmptyString ++ String "_" b)%string.
      rewrite (startswith_underscore sep Hfree).
      destruct sep; [congruence | reflexivity].
  - cbn [append before_str].
    change (String y (a ++ String "_" b)) with (String y a ++ String "_" b)%string.
    rewrite (startswith_underscore sep Hfree).
    destruct (PyStr.startswith sep (String y a)); [reflexivity|].
    cbn [before_char]. now rewrite IH.
Qed.

Lemma trim_group_ids (oid : string) (j : nat) :
  hd EmptyString (PyStr.split "_" (sub_split_id oid j))
  = (idPrefix ++ "-" ++ before_char "_" oid)%string
  /\ exists afterPrefix,
       nth_error (PyStr.split (idPrefix ++ "-") (sub_split_id oid j)) 1 = Some afterPrefix
       /\ hd EmptyString (PyStr.split "_" afterPrefix) = trim_group_parent_id oid.
Proof.
  unfold sub_split_id. split.
  - unfold PyStr.split. rewrite split_char_head.
    change (before_char "_" (idPrefix ++ "-" ++ oid ++ "_" ++ str_nat j))
      with (idPrefix ++ "-" ++ before_char "_" (oid ++ String "_" (str_nat j)))%string.
    now rewrite before_char_app.
  - exists (before_str (idPrefix ++ "-") (oid ++ "_" ++ str_nat j)). split.
    + unfold PyStr.split, idPrefix. cbn.
      apply (split_str_head "subsplit-" (oid ++ String "_" (str_nat j)) EmptyString).
    + unfold PyStr.split. rewrite split_char_head. cbn [append].
      apply before_str_underscore; [reflexivity | discriminate].
Qed.

Section ParentId.
Context `{Host}.

(** Under the conditions on the sub split line, the call comes down to the
    search for the original path and the statements that follow it. *)
Lemma build_trim_line_group_body so arr i pts w line oid j
    l0 x0 y0 a0 l1 x1 y1 a1 rest :
  nth_error arr i = Some line ->
  attr "originalPathIsClosed" (el_attrib line) <> None ->
  el_id line = sub_split_id oid j ->
  skipped so line = false ->
  to_arrays (el_path line) = Cmd l0 (x0 :: y0 :: a0) :: Cmd l1 (x1 :: y1 :: a1) :: rest ->
  build_trim_line_group so arr i pts w
  = match getElementById (w_doc w) (trim_group_parent_id oid) with
    | None => (Raise AttributeError, w)
    | Some grandparent =>
        (trimGroup <- match find_group (w_doc w) (trim_group_id oid) with
                      | Some g => ret g
                      | None => add_group grandparent (trim_group_id oid)
                      end ;;
         isBezier <- attrib_get "originalPathIsBezier" line ;;
         modify_doc (update_group trimGroup (set_group_attr "originalPathIsBezier" isBezier)) ;;
         originalPathId <- attrib_get "originalPathId" line ;;
         modify_doc (update_group trimGroup (set_group_attr "originalPathId" originalPathId)) ;;
         added <- trim_lines so line (trim_group_id oid) i
                    (composed_transform (trim_group_parent_id oid))
                    (trim_pieces so (x0, y0) (x1, y1) pts) ;;
         for_each added (add_child trimGroup) ;;
         ret (Some trimGroup)) w
    end.
Proof.
  intros Hline Hattr Hid Hskip Harr.
  unfold build_trim_line_group, skipped in *.
  unfold bind at 1, index at 1. rewrite Hline. cbn [ret].
  unfold bind at 1, attrib_get at 1.
  destruct (attr "originalPathIsClosed" (el_attrib line)) as [c|]; [|congruence].
  cbn [ret].
  replace (match trimming_path_types so with
           | open_paths => String.eqb c "True"
           | closed_paths => String.eqb c "False"
           | _ => false
           end) with false by (destruct (trimming_path_types so); congruence).
  rewrite Harr.
  unfold bind at 1, index at 1. cbn [nth_error ret args].
  unfold bind at 1. cbn [first2 ret].
  unfold bind at 1, index at 1. cbn [nth_error ret args].
  unfold bind at 1. cbn [first2 ret].
  rewrite Hid.
  destruct (trim_group_ids oid j) as (Hgid & afterPrefix & Hafter & Hparent).
  rewrite Hgid. unfold bind at 1, index at 1. rewrite Hafter. cbn [ret].
  unfold bind at 1, get_doc at 1. rewrite !Hparent.
  destruct (getElementById (w_doc w) (trim_group_parent_id oid)); reflexivity.
Qed.

End ParentId.

Lemma before_str_absent (sep s : string) :
  PyStr.contains sep s = false -> before_str sep s = s.
Proof.
  induction s as [|x s IH]; [reflexivity|].
  cbn [PyStr.contains before_str]. intros Hs.
  apply orb_false_iff in Hs as [-> Hlater]. now rewrite IH.
Qed.

(** The id under which [build_trim_line_group] looks up the original path
    is cut out of the id of the sub split line: it is the id of the
    original path cut at its first ['subsplit-'] and at its first
    underscore.  The call ends in an [AttributeError], with nothing
    changed, when the document has no element of that id; only an id with
    neither an underscore nor a ['subsplit-'] is looked up whole. *)
Theorem underscore_cuts_the_parent_id (H : Host) (so : options)
    (subSplitLineArray : list element) (subSplitIndex : nat)
    (globalIntersectionPoints : list point) (w : world) (line : element)
    (originalPathId : string) (j : nat)
    (l0 l1 : ascii) (x0 y0 x1 y1 : Q) (a0 a1 : list Q) (rest : path) :
  nth_error subSplitLineArray subSplitIndex = Some line ->
  el_id line = sub_split_id originalPathId j ->
  attr "originalPathIsClosed" (el_attrib line) <> None ->
  skipped so line = false ->
  to_arrays (el_path line) = Cmd l0 (x0 :: y0 :: a0) :: Cmd l1 (x1 :: y1 :: a1) :: rest ->
  (getElementById (w_doc w) (trim_group_parent_id originalPathId) = None ->
   build_trim_line_group so subSplitLineArray subSplitIndex globalIntersectionPoints w
   = (Raise AttributeError, w))
  /\ (forall a b : string,
         trim_group_parent_id (a ++ "_" ++ b) = trim_group_parent_id a)
  /\ (PyStr.contains "_" originalPathId = false ->
      PyStr.contains (idPrefix ++ "-") originalPathId = false ->
      trim_group_parent_id originalPathId = originalPathId).
Proof.
  intros Hline Hid Hattr Hskip Harr. split; [|split].
  - intros Hnone.
    rewrite (build_trim_line_group_body so subSplitLineArray subSplitIndex
               globalIntersectionPoints w line originalPathId j
               l0 x0 y0 a0 l1 x1 y1 a1 rest Hline Hattr Hid Hskip Harr).
    now rewrite Hnone.
  - intros a b. unfold trim_group_parent_id.
    apply before_str_underscore; [reflexivity | discriminate].
  - intros Hunder Hprefix. unfold trim_group_parent_id.
    rewrite (before_str_absent _ _ Hprefix). now apply before_char_absent.
Qed.

Lemma underscore_cuts_the_parent_id_witness :
  getElementById (w_doc underscore_world) "my_path" = Some Root
  /\ trim_group_parent_id "my_path" = "my"%string
  /\ @build_trim_line_group reference_host default_options [underscore_line] 0 [(5, 0)]
       underscore_world
     = (Raise AttributeError, underscore_world).
Proof.
  split; [reflexivity|]. split; [reflexivity|].
  refine (proj1 (underscore_cuts_the_parent_id reference_host default_options
                   [underscore_line] 0 [(5, 0)] underscore_world underscore_line
                   "my_path" 0 "M" "L" 0 0 10 0 [] [] []
                   eq_refl eq_refl _ eq_refl eq_refl) eq_refl).
  discriminate.
Defined.

(** ** What the recombiner merges *)

Lemma combine_scan_found (cs : list element) :
  forall data n,
    combine_scan cs true data n
    = (marked_pieces cs, data ++ flat_map el_path (unmarked_pieces cs),
       (n + List.length (marked_pieces cs))%nat).
Proof.
  unfold marked_pieces, unmarked_pieces.
  induction cs as [|c cs IH]; intros data n; cbn [combine_scan filter flat_map].
  - now rewrite app_nil_r, Nat.add_0_r.
  - fold (marked_intersected c). destruct (marked_intersected c); cbn [negb].
    + rewrite IH. cbn [List.length]. now rewrite Nat.add_succ_r.
    + rewrite IH. cbn [flat_map]. now rewrite app_assoc.
Qed.

Lemma marked_pieces_all (cs : list element) :
  Forall (fun e => marked_intersected e = true) cs ->
  marked_pieces cs = cs /\ unmarked_pieces cs = [].
Proof.
  unfold marked_pieces, unmarked_pieces.
  induction 1 as [|e cs He _ [IHm IHu]]; cbn [filter]; [split; reflexivity|].
  rewrite He, IHm, IHu. split; reflexivity.
Qed.

Lemma combine_scan_all_marked (cs : list element) :
  Forall (fun e => marked_intersected e = true) cs ->
  forall data n, combine_scan cs false data n = (cs, data, (n + List.length cs)%nat).
Proof.
  induction 1 as [|e cs He _ IH]; intros data n; cbn [combine_scan].
  - now rewrite Nat.add_0_r.
  - fold (marked_intersected e). rewrite He. cbn [negb]. rewrite IH.
    cbn [List.length]. now rewrite Nat.add_succ_r.
Qed.

Lemma combine_scan_first (pre post : list element) (u : element) :
  Forall (fun e => marked_intersected e = true) pre ->
  marked_intersected u = false ->
  forall data n,
    combine_scan (pre ++ u :: post) false data n
    = (pre ++ u :: marked_pieces post,
       el_path u ++ flat_map el_path (unmarked_pieces post),
       (n + List.length pre + List.length (marked_pieces post))%nat).
Proof.
  intros Hpre Hu. induction Hpre as [|e pre He _ IH]; intros data n;
    cbn [app combine_scan].
  - fold (marked_intersected u). rewrite Hu. cbn [negb].
    rewrite combine_scan_found. cbn [List.length]. now rewrite Nat.add_0_r.
  - fold (marked_intersected e). rewrite He. cbn [negb]. rewrite IH.
    cbn [List.length]. now rewrite Nat.add_succ_r.
Qed.

Lemma first_unmarked (cs : list element) :
  Forall (fun e => marked_intersected e = true) cs
  \/ exists pre u post,
       cs = pre ++ u :: post
       /\ Forall (fun e => marked_intersected e = true) pre
       /\ marked_intersected u = false.
Proof.
  induction cs as [|c cs IH]; [left; constructor|].
  destruct (marked_intersected c) eqn:Ec.
  - destruct IH as [Hall | (pre & u & post & -> & Hpre & Hu)].
    + left. now constructor.
    + right. exists (c :: pre), u, post. repeat split; auto.
  - right. exists [], c, cs. repeat split; auto.
Qed.

Lemma pieces_app (a b : list element) :
  marked_pieces (a ++ b) = marked_pieces a ++ marked_pieces b
  /\ unmarked_pieces (a ++ b) = unmarked_pieces a ++ unmarked_pieces b.
Proof. unfold marked_pieces, unmarked_pieces. now rewrite !filter_app. Qed.

Lemma pieces_of_marked (cs : list element) :
  marked_pieces (marked_pieces cs) = marked_pieces cs
  /\ unmarked_pieces (marked_pieces cs) = [].
Proof.
  apply marked_pieces_all. unfold marked_pieces. apply Forall_forall.
  intros e He. apply filter_In in He. tauto.
Qed.

Lemma pieces_around (pre post : list element) (u : element) :
  Forall (fun e => marked_intersected e = true) pre ->
  marked_intersected u = false ->
  marked_pieces (pre ++ u :: post) = pre ++ marked_pieces post
  /\ unmarked_pieces (pre ++ u :: post) = u :: unmarked_pieces post.
Proof.
  intros Hpre Hu. destruct (pieces_app pre (u :: post)) as [-> ->].
  destruct (marked_pieces_all _ Hpre) as [-> ->].
  unfold marked_pieces, unmarked_pieces. cbn [filter]. rewrite Hu. split; reflexivity.
Qed.

Section Recombiner.
Context `{Host}.

Lemma combine_group_merges (so : options) (g : nat) (w : world) (grp : group) :
  nth_error (d_groups (w_doc w)) g = Some grp ->
  (forall p, p <> [] -> to_arrays p <> []) ->
  exists w' grp',
    combine_group so g w = (Ok tt, w')
    /\ nth_error (d_groups (w_doc w')) g = Some grp'
    /\ d_paths (w_doc w') = d_paths (w_doc w)
    /\ marked_pieces (g_children grp') = marked_pieces (g_children grp)
    /\ match unmarked_pieces (g_children grp) with
       | [] => g_children grp' = g_children grp
       | u :: others =>
           exists merged,
             unmarked_pieces (g_children grp') = [merged]
             /\ el_id merged = el_id u
             /\ el_attrib merged = el_attrib u
             /\ (flat_map el_path (u :: others) <> [] ->
                 el_path merged = collapse (to_arrays (flat_map el_path (u :: others)))
                 /\ el_style merged
                    = if apply_style_to_trimmed so then el_style u
                      else if (List.length (marked_pieces (g_children grp)) =? 0)%nat
                           then nonTrimLineStyle else trimNonIntersectedStyle)
       end.
Proof.
  intros Hg Harr. unfold combine_group.
  unfold bind at 1. unfold group_object, bind at 1, get_doc, index. rewrite Hg.
  cbn [ret].
  assert (Hdbg : forall m w0, exists ms,
             debug so m w0 = (Ok tt, mkWorld (w_doc w0) (w_msgs w0 ++ ms) (w_next_id w0))).
  { intros m w0. unfold debug, msg, ret. destruct (show_debug so).
    - eexists; reflexivity.
    - exists []. now rewrite world_eta. }
  unfold bind at 1.
  match goal with |- context [debug so ?m ?w0] => destruct (Hdbg m w0) as [ms1 ->] end.
  destruct (first_unmarked (g_children grp)) as [Hall | (pre & u & post & Hcs & Hpre & Hu)].
  - (* only pieces at cuts: nothing is merged *)
    rewrite (combine_scan_all_marked _ Hall). cbn [List.length Nat.ltb Nat.leb].
    unfold bind at 1, modify_doc at 1. cbn [w_doc w_msgs w_next_id].
    match goal with |- context [debug so ?m ?w0] => destruct (Hdbg m w0) as [ms2 ->] end.
    cbn [w_doc].
    assert (Hsame : update_group g (set_children (g_children grp)) (w_doc w) = w_doc w).
    { apply (update_group_fixed _ _ _ grp Hg). destruct grp; reflexivity. }
    rewrite Hsame. eexists _, grp. split; [reflexivity|]. cbn [w_doc].
    split; [exact Hg|]. split; [reflexivity|]. split; [reflexivity|].
    destruct (marked_pieces_all _ Hall) as [_ ->]. reflexivity.
  - rewrite Hcs, (combine_scan_first pre post u Hpre Hu).
    destruct (pieces_around pre post u Hpre Hu) as [-> ->].
    unfold bind at 1, modify_doc at 1. cbn [w_doc w_msgs w_next_id].
    assert (Hg1 : nth_error (d_groups (update_group g (set_children
                     (pre ++ u :: marked_pieces post)) (w_doc w))) g
                  = Some (set_children (pre ++ u :: marked_pieces post) grp)).
    { cbn [update_group d_groups]. now rewrite nth_error_update_nth_same, Hg. }
    destruct (pieces_of_marked post) as [Hmm Hmu].
    destruct (0 <? List.length (el_path u ++ flat_map el_path (unmarked_pieces post)))%nat
      eqn:Hlen.
    + destruct (to_arrays (el_path u ++ flat_map el_path (unmarked_pieces post)))
        as [|c0 segRest] eqn:Hseg.
      { exfalso. apply (Harr _ ltac:(intros E; rewrite E in Hlen; discriminate) Hseg). }
      unfold bind at 1. cbn [index nth_error ret].
      unfold bind at 1.
      match goal with |- context [debug so ?m ?w0] => destruct (Hdbg m w0) as [ms2 ->] end.
      unfold bind at 1.
      match goal with |- context [debug so ?m ?w0] => destruct (Hdbg m w0) as [ms3 ->] end.
      unfold modify_doc. cbn [w_doc w_msgs w_next_id].
      eexists _, _. split; [reflexivity|]. split.
      { cbn [w_doc update_group d_groups].
        rewrite nth_error_update_nth_same. cbn [update_group d_groups] in Hg1.
        rewrite Hg1. reflexivity. }
      split; [reflexivity|].
      cbn [g_children set_children option_map].
      rewrite update_combined_at by assumption.
      match goal with
      | |- context [pre ++ ?m :: marked_pieces post] =>
          destruct (pieces_around pre (marked_pieces post) m Hpre Hu) as [-> ->];
          rewrite Hmm, Hmu; split; [reflexivity|]; exists m
      end.
      split; [reflexivity|]. split; [reflexivity|]. split; [reflexivity|].
      intros _. cbn [el_path el_style flat_map]. rewrite <- Hseg.
      split; [reflexivity|].
      rewrite length_app. replace (0 + List.length pre + List.length (marked_pieces post))%nat
        with (List.length pre + List.length (marked_pieces post))%nat by lia.
      reflexivity.
    + match goal with |- context [debug so ?m ?w0] => destruct (Hdbg m w0) as [ms2 ->] end.
      eexists _, _. split; [reflexivity|]. split; [exact Hg1|]. split; [reflexivity|].
      cbn [g_children set_children].
      destruct (pieces_around pre (marked_pieces post) u Hpre Hu) as [-> ->].
      rewrite Hmm, Hmu.
      split; [reflexivity|]. exists u. split; [reflexivity|].
      split; [reflexivity|]. split; [reflexivity|]. intros Hdata. exfalso.
      apply Nat.ltb_ge in Hlen. apply Hdata.
      cbn [flat_map]. destruct (el_path u ++ flat_map el_path (unmarked_pieces post));
        [reflexivity | cbn in Hlen; lia].
Qed.

End Recombiner.



Lemma collapse_from_without_repeats (rest : path) :
  forall prev,
    collapse_from prev rest
    = map snd (filter (fun pc => negb (args_eqb (args (snd pc)) (args (fst pc))))
                      (combine (prev :: rest) rest)).
Proof.
  induction rest as [|c rest IH]; intros prev; [reflexivity|].
  cbn [collapse_from combine filter fst snd]. rewrite IH.
  destruct (negb (args_eqb (args c) (args prev))); reflexivity.
Qed.

Lemma collapse_without_repeats (segData : path) : collapse segData = without_repeats segData.
Proof.
  destruct segData as [|c0 rest]; [reflexivity|].
  cbn [collapse without_repeats]. now rewrite collapse_from_without_repeats.
Qed.



(** ** Intersection markers *)

Section Markers.
Context `{Host}.

Lemma marker_loop (so : options) (prefix : string) (t : option transform) (sty : style)
    (pts : list point) :
  forall acc w,
    exists circles,
      for_fold pts
        (fun pt acc =>
           cid <- get_unique_id prefix ;;
           ret (acc ++ [mkCircle cid (fst pt) (snd pt) (marker_radius so) t sty]))
        acc w
      = (Ok (acc ++ circles),
         mkWorld (w_doc w) (w_msgs w) (w_next_id w + List.length pts))
      /\ map centre circles = pts
      /\ map c_id circles = unique_ids prefix (w_next_id w) (List.length pts)
      /\ Forall (fun c => c_r c = marker_radius so /\ c_transform c = t /\ c_style c = sty)
                circles.
Proof.
  induction pts as [|pt pts IH]; intros acc w; cbn [for_fold].
  - exists []. rewrite app_nil_r, Nat.add_0_r. destruct w. repeat split. constructor.
  - unfold bind at 1. unfold bind at 1, get_unique_id at 1. cbn [ret].
    match goal with |- context [for_fold pts _ ?a ?w0] => destruct (IH a w0)
      as (circles & -> & Hc & Hids & Hall) end.
    cbn [w_doc w_msgs w_next_id] in *.
    eexists (_ :: circles). split; [|split; [|split]].
    + rewrite <- app_assoc. cbn [app List.length]. now rewrite Nat.add_succ_r.
    + cbn [map centre c_cx c_cy]. rewrite Hc. now destruct pt.
    + cbn [map c_id List.length]. unfold unique_ids in *. cbn [seq map].
      rewrite Nat.add_0_r. f_equal. rewrite Hids, <- seq_shift, map_map.
      apply map_ext. intros j. now rewrite Nat.add_succ_r.
    + constructor; [repeat split | exact Hall].
Qed.

End Markers.

(** [visualize_global_intersections] does nothing for no points; for
    [n > 0] points it adds one marker group [globalIntersectionPoints] under
    the root with one circle per point, centred on the points in their
    order, each with a fresh id, and touches nothing else in the
    document. *)
Theorem global_markers (H : Host) (so : options) (pts : list point) (w : world) :
  exists w',
    visualize_global_intersections so pts w = (Ok tt, w')
    /\ match pts with
       | [] => w' = w
       | _ :: _ =>
           exists circles,
             w_doc w'
             = mkDoc (d_paths (w_doc w)) (d_groups (w_doc w))
                     (d_markers (w_doc w)
                      ++ [mkMarkers "globalIntersectionPoints" Root circles])
             /\ map centre circles = pts
             /\ map c_id circles
                = unique_ids "globalIntersectionPoint-" (w_next_id w) (List.length pts)
             /\ Forall (fun c => c_r c = marker_radius so /\ c_transform c = None
                                 /\ c_style c = globalIntersectionPointStyle) circles
             /\ w_next_id w' = (w_next_id w + List.length pts)%nat
       end.
Proof.
  unfold visualize_global_intersections. destruct pts as [|pt pts].
  - exists w. split; reflexivity.
  - cbn [List.length Nat.ltb Nat.leb]. unfold bind at 1.
    destruct (marker_loop so "globalIntersectionPoint-" None globalIntersectionPointStyle
                (pt :: pts) [] w) as (circles & -> & Hc & Hids & Hall).
    cbn [app]. unfold add_markers, modify_doc. cbn [w_doc w_msgs w_next_id].
    eexists. split; [reflexivity|]. exists circles. cbn [w_doc w_next_id].
    repeat split; assumption.
Qed.

(** [visualize_self_intersections] adds one marker group
    [selfIntersectionPoints-<id>] beside the path element, with one circle
    per point in order; the circles carry the inverse of the composed
    transform of the parent when the parent is not the root.  On a path
    element that was deleted it raises [AttributeError]. *)
Theorem self_markers (H : Host) (so : options) (k : nat) (pts : list point) (w : world)
    (pe : pathElement) :
  nth_error (d_paths (w_doc w)) k = Some pe ->
  match pe_parent pe with
  | Detached => visualize_self_intersections so k pts w = (Raise AttributeError, w)
  | parent =>
      exists w' circles,
        visualize_self_intersections so k pts w = (Ok tt, w')
        /\ w_doc w'
           = mkDoc (d_paths (w_doc w)) (d_groups (w_doc w))
                   (d_markers (w_doc w)
                    ++ [mkMarkers ("selfIntersectionPoints-" ++ el_id (pe_elem pe)) parent
                                  circles])
        /\ map centre circles = pts
        /\ map c_id circles
           = unique_ids "selfIntersectionPoint-" (w_next_id w) (List.length pts)
        /\ Forall (fun c => c_transform c
                            = match parent with
                              | InGroup gid => Some (neg_transform (composed_transform gid))
                              | _ => None
                              end) circles
  end.
Proof.
  intros Hk.
  assert (Hrun : forall B (k' : pathElement -> M B),
             bind (path_object k) k' w = k' pe w).
  { intros B k'. unfold bind at 1. unfold path_object, bind at 1, get_doc, index.
    now rewrite Hk. }
  unfold visualize_self_intersections. rewrite Hrun.
  destruct (pe_parent pe) as [|gid|] eqn:Hpar; [| |reflexivity].
  - unfold bind at 1.
    destruct (marker_loop so "selfIntersectionPoint-" None selfIntersectionPointStyle
                pts [] w) as (circles & -> & Hc & Hids & Hall).
    cbn [app]. unfold add_markers, modify_doc. cbn [w_doc w_msgs w_next_id].
    eexists _, circles. split; [reflexivity|]. cbn [w_doc].
    repeat split; try assumption.
    eapply Forall_impl; [|exact Hall]. cbn. tauto.
  - unfold bind at 1.
    destruct (marker_loop so "selfIntersectionPoint-"
                (Some (neg_transform (composed_transform gid))) selfIntersectionPointStyle
                pts [] w) as (circles & -> & Hc & Hids & Hall).
    cbn [app]. unfold add_markers, modify_doc. cbn [w_doc w_msgs w_next_id].
    eexists _, circles. split; [reflexivity|]. cbn [w_doc].
    repeat split; try assumption.
    eapply Forall_impl; [|exact Hall]. cbn. tauto.
Qed.

Lemma self_markers_witness :
  @visualize_self_intersections reference_host default_options 0 [(1, 1)] layer_world
  = (Raise AttributeError, layer_world)
  /\ exists w' circles,
       @visualize_self_intersections reference_host default_options 1 [(1, 1)] layer_world
       = (Ok tt, w')
       /\ w_doc w'
          = mkDoc (d_paths (w_doc layer_world)) (d_groups (w_doc layer_world))
                  (d_markers (w_doc layer_world)
                   ++ [mkMarkers "selfIntersectionPoints-bow" (InGroup "layer") circles])
       /\ map centre circles = [(1, 1)]
       /\ map c_id circles = ["selfIntersectionPoint-0"%string]
       /\ Forall (fun c => c_transform c = Some Plain.identity) circles.
Proof.
  split.
  - exact (self_markers reference_host default_options 0 [(1, 1)] layer_world _ eq_refl).
  - exact (self_markers reference_host default_options 1 [(1, 1)] layer_world _ eq_refl).
Defined.

(** ** Looking up groups *)

Lemma find_group_from_spec (gs : list group) (gid : string) :
  forall pos,
    match find_group_from pos gs gid with
    | Some g =>
        exists before grp after,
          gs = before ++ grp :: after
          /\ g = (pos + List.length before)%nat
          /\ names gid grp = true
          /\ Forall (fun grp' => names gid grp' = false) before
    | None => Forall (fun grp' => names gid grp' = false) gs
    end.
Proof.
  induction gs as [|grp gs IH]; intros pos; cbn [find_group_from].
  - constructor.
  - fold (names gid grp). destruct (names gid grp) eqn:E.
    + exists [], grp, gs. cbn. rewrite Nat.add_0_r. repeat split; auto.
    + specialize (IH (S pos)). destruct (find_group_from (S pos) gs gid) as [g|].
      * destruct IH as (before & grp' & after & -> & -> & Hn & Hb).
        exists (grp :: before), grp', after. cbn [app List.length].
        split; [reflexivity|]. split; [lia|]. split; [assumption|]. now constructor.
      * now constructor.
Qed.

Lemma find_group_from_app (gs gs' : list group) (gid : string) :
  forall pos,
    find_group_from pos (gs ++ gs') gid
    = match find_group_from pos gs gid with
      | Some g => Some g
      | None => find_group_from (pos + List.length gs) gs' gid
      end.
Proof.
  induction gs as [|grp gs IH]; intros pos; cbn [app find_group_from List.length].
  - now rewrite Nat.add_0_r.
  - destruct (negb (is_detached (g_parent grp)) && String.eqb (g_id grp) gid);
      [reflexivity|].
    rewrite IH. now rewrite Nat.add_succ_r.
Qed.

Lemma marker_id_apart (s : string) :
  is_marker_id s = true -> PyStr.startswith "shapely-" s = false.
Proof.
  unfold is_marker_id. intros Hs. apply orb_true_iff in Hs as [Hself | Hglobal].
  - destruct s as [|c1 [|c2 s]]; cbn [PyStr.startswith] in Hself; try discriminate.
    + apply andb_true_iff in Hself as [_ Hself]. discriminate.
    + apply andb_true_iff in Hself as [H1 Hself].
      apply andb_true_iff in Hself as [H2 _].
      apply Ascii.eqb_eq in H1, H2. subst c1 c2. reflexivity.
  - apply String.eqb_eq in Hglobal. subst s. reflexivity.
Qed.

(** [find_group] gets the ids of trim groups, which start with
    ['shapely-'].  Under such an id it returns the first group of the
    document with that id, a group that was deleted not being in the
    document, and [None] exactly when the document has no such group; the
    marker groups, named as the extension names them, never carry such an
    id.  A group added under an id that was not found is found from then
    on, and what is found under other ids is as before. *)
Theorem find_group_finds_the_first (d : document) (gid : string) :
  PyStr.startswith "shapely-" gid = true ->
  Forall (fun m => is_marker_id (m_id m) = true) (d_markers d) ->
  match find_group d gid with
  | Some g =>
      exists before grp after,
        d_groups d = before ++ grp :: after
        /\ g = List.length before
        /\ names gid grp = true
        /\ Forall (fun grp' => names gid grp' = false) before
  | None => Forall (fun grp' => names gid grp' = false) (d_groups d)
  end
  /\ Forall (fun m => String.eqb (m_id m) gid = false) (d_markers d)
  /\ (forall oid, PyStr.startswith "shapely-" (trim_group_id oid) = true)
  /\ forall (parent : parent_ref) (w : world),
       w_doc w = d -> is_detached parent = false -> find_group d gid = None ->
       exists g w',
         add_group parent gid w = (Ok g, w')
         /\ find_group (w_doc w') gid = Some g
         /\ forall other, String.eqb gid other = false ->
                          find_group (w_doc w') other = find_group d other.
Proof.
  intros Hgid Hmarkers. split; [|split; [|split]].
  - exact (find_group_from_spec (d_groups d) gid 0).
  - eapply Forall_impl; [|exact Hmarkers]. cbn. intros m Hm.
    destruct (String.eqb (m_id m) gid) eqn:E; [|reflexivity].
    apply String.eqb_eq in E. rewrite E in Hm.
    apply marker_id_apart in Hm. congruence.
  - reflexivity.
  - intros parent w <- Hpar Hnone. unfold add_group.
    eexists _, _. split; [reflexivity|]. unfold find_group in *. cbn [w_doc d_groups].
    split.
    + rewrite find_group_from_app, Hnone. cbn [find_group_from g_parent g_id].
      now rewrite Hpar, String.eqb_refl.
    + intros other Hother. rewrite find_group_from_app.
      destruct (find_group_from 0 (d_groups (w_doc w)) other); [reflexivity|].
      cbn [find_group_from g_parent g_id]. now rewrite Hother, andb_false_r.
Qed.

Lemma find_group_finds_the_first_witness :
  find_group marked_document "shapely-subsplit-a" = Some 0%nat
  /\ Forall (fun m => String.eqb (m_id m) "shapely-subsplit-b" = false)
            (d_markers marked_document)
  /\ exists g w',
       add_group Root "shapely-subsplit-b" (world_of marked_document) = (Ok g, w')
       /\ find_group (w_doc w') "shapely-subsplit-b" = Some g
       /\ forall other, String.eqb "shapely-subsplit-b" other = false ->
                        find_group (w_doc w') other = find_group marked_document other.
Proof.
  split; [reflexivity|].
  destruct (find_group_finds_the_first marked_document "shapely-subsplit-b" eq_refl)
    as (_ & Hmarkers & _ & Hadd).
  - repeat constructor.
  - split; [exact Hmarkers|].
    exact (Hadd Root (world_of marked_document) eq_refl eq_refl eq_refl).
Defined.

(** ** The sub split lines the scan collects *)

Lemma collects_ret (vars : scan_vars) :
  Forall sub_split_line_ok (subSplitLineArray vars) -> collects_ok (ret vars).
Proof. intros Hv w v w' [= <- _]. exact Hv. Qed.

Lemma collects_raise (e : exn) : collects_ok (raise e).
Proof. intros w v w' [=]. Qed.

Lemma collects_bind_any {A} (c : M A) (k : A -> M scan_vars) :
  (forall a, collects_ok (k a)) -> collects_ok (bind c k).
Proof.
  intros Hk w v w'. unfold bind. destruct (c w) as [[a|e] w1]; [|discriminate].
  apply Hk.
Qed.

Lemma collects_bind_vars (c : M scan_vars) (k : scan_vars -> M scan_vars) :
  collects_ok c ->
  (forall a, Forall sub_split_line_ok (subSplitLineArray a) -> collects_ok (k a)) ->
  collects_ok (bind c k).
Proof.
  intros Hc Hk w v w'. unfold bind. destruct (c w) as [[a|e] w1] eqn:E; [|discriminate].
  apply Hk. eapply Hc. exact E.
Qed.

Lemma collects_for_fold {A} (l : list A) (body : A -> scan_vars -> M scan_vars) :
  (forall x s, Forall sub_split_line_ok (subSplitLineArray s) -> collects_ok (body x s)) ->
  forall s, Forall sub_split_line_ok (subSplitLineArray s) -> collects_ok (for_fold l body s).
Proof.
  intros Hbody. induction l as [|x l IH]; intros s Hs; cbn [for_fold].
  - now apply collects_ret.
  - apply collects_bind_vars; [now apply Hbody | exact IH].
Qed.

Section Collects.
Context `{Host}.

Lemma sub_split_line_ok_step so k original fl g segs i st w st' w' :
  Forall sub_split_line_ok (subSplitLineArray (fst st)) ->
  sub_split_line so k original fl g segs i st w = (Ok st', w') ->
  Forall sub_split_line_ok (subSplitLineArray (fst st')).
Proof.
  intros Hst. unfold sub_split_line. unfold bind at 1.
  destruct (line_from_segments segs i (decimals so) w) as [[[[[x1 y1] x2] y2]|e] w1];
    [|discriminate].
  unfold bind at 1. destruct (path_object k w1) as [[pe|e] w2]; [|discriminate].
  unfold bind at 1.
  match goal with |- context [match ?c w2 with _ => _ end] => destruct (c w2) as [[u|e] w3] end;
    [|discriminate].
  cbn [ret]. intros [= <- _]. cbn [fst subSplitLineArray].
  apply Forall_app. split; [exact Hst|]. constructor; [|constructor].
  unfold sub_split_line_ok, bool_attr. cbn [el_id el_attrib].
  split; [eexists _, _; split; reflexivity|].
  repeat split; try (eexists; reflexivity). discriminate.
Qed.

Lemma sub_split_lines_ok so k original fl g segs (l : list nat) :
  forall st w st' w',
    Forall sub_split_line_ok (subSplitLineArray (fst st)) ->
    for_fold l (sub_split_line so k original fl g segs) st w = (Ok st', w') ->
    Forall sub_split_line_ok (subSplitLineArray (fst st')).
Proof.
  induction l as [|i l IH]; intros st w st' w' Hst; cbn [for_fold].
  - intros [= <- _]. exact Hst.
  - unfold bind at 1.
    destruct (sub_split_line so k original fl g segs i st w) as [[st1|e] w1] eqn:Hstep;
      [|discriminate].
    apply IH. eapply sub_split_line_ok_step; eassumption.
Qed.

Lemma firstn_Forall {A} (P : A -> Prop) (l : list A) :
  Forall P l -> forall n, Forall P (firstn n l).
Proof.
  induction 1 as [|x l Hx _ IH]; intros [|n]; cbn [firstn]; try constructor; auto.
Qed.

Lemma slice_to_Forall {A} (P : A -> Prop) (l : list A) (stop : Z) :
  Forall P l -> Forall P (slice_to l stop).
Proof.
  intros Hl. unfold slice_to. destruct (0 <=? stop)%Z; now apply firstn_Forall.
Qed.

Lemma collects_scan_sub_path so k original fl g subPath vars :
  Forall sub_split_line_ok (subSplitLineArray vars) ->
  collects_ok (scan_sub_path so k original fl g subPath vars).
Proof.
  intros Hvars w v w'. unfold scan_sub_path. unfold bind at 1.
  destruct (for_fold _ _ _ w) as [[st|e] w1] eqn:Hfold; [|discriminate].
  pose proof (sub_split_lines_ok _ _ _ _ _ _ _ (vars, []) _ _ _ Hvars Hfold) as Hst.
  unfold bind at 1, lift_result at 1.
  destruct (isect_segments (snd st) true) as [pts|e]; [|discriminate].
  destruct (0 <? List.length pts)%nat.
  2:{ cbn [ret]. intros [= <- _]. exact Hst. }
  unfold bind at 1.
  match goal with |- context [match ?c w1 with _ => _ end] => destruct (c w1) as [[u|e] w2] end;
    [|discriminate].
  unfold bind at 1.
  match goal with |- context [match ?c w2 with _ => _ end] => destruct (c w2) as [[u2|e] w3] end;
    [|discriminate].
  unfold bind at 1.
  match goal with |- context [match ?c w3 with _ => _ end] => destruct (c w3) as [[u3|e] w4] end;
    [|discriminate].
  destruct (remove_self_intersecting so).
  - unfold bind at 1, delete_path, modify_doc. cbn [ret]. intros [= <- _].
    cbn [subSplitLineArray]. now apply slice_to_Forall.
  - cbn [ret]. intros [= <- _]. exact Hst.
Qed.

Lemma collects_scan_path so k vars :
  Forall sub_split_line_ok (subSplitLineArray vars) -> collects_ok (scan_path so k vars).
Proof.
  intros Hvars. unfold scan_path. apply collects_bind_any. intros pe.
  destruct (path_flags_of _) as [[[r a] m] b].
  assert (Hdel : collects_ok (bind (delete_path k) (fun _ => ret vars))).
  { apply collects_bind_any. intros _. now apply collects_ret. }
  destruct (remove_absolute so && a); [exact Hdel|].
  destruct (remove_relative so && r); [exact Hdel|].
  destruct (remove_mixed so && m); [exact Hdel|].
  apply collects_bind_any. intros _.
  destruct (remove_beziers so && b); [exact Hdel|].
  destruct (remove_polylines so && negb b); [exact Hdel|].
  destruct (closed_test _) as [c|]; [|apply collects_raise].
  destruct (remove_opened so && negb c); [exact Hdel|].
  destruct (remove_closed so && c); [exact Hdel|].
  apply collects_bind_any. intros g.
  apply collects_bind_vars.
  - apply collects_for_fold; [|exact Hvars].
    intros. now apply collects_scan_sub_path.
  - intros vars1 Hvars1. repeat (apply collects_bind_any; intros _).
    now apply collects_ret.
Qed.

End Collects.

(** Every sub split line [effect] has collected when its scan is over has
    an id of the form [subsplit-<id>_<i>], where [<id>] is the value of its
    attribute [originalPathId], and carries the attributes the trimming
    stage reads: the five flags, each ['True'] or ['False'], and the style
    of the original path. *)
Theorem scan_collects_well_formed_lines (H : Host) (so : options) (w w' : world)
    (pathElements : list nat) (vars : scan_vars) :
  effect_scan so w = (Ok (pathElements, vars), w') ->
  Forall sub_split_line_ok (subSplitLineArray vars).
Proof.
  unfold effect_scan. unfold bind at 1.
  destruct (when _ _ w) as [[u|e] w1]; [|discriminate].
  unfold bind at 1. destruct (get_path_elements so w1) as [[ps|e] w2]; [|discriminate].
  unfold bind at 1. destruct (scan so ps w2) as [[v|e] w3] eqn:Hscan; [|discriminate].
  cbn [ret]. intros [= _ <- _].
  revert Hscan. unfold scan. unfold bind at 1.
  destruct (for_fold ps (scan_path so) _ w2) as [[v1|e] w4] eqn:Hfold; [|discriminate].
  unfold bind at 1. destruct (debug so _ w4) as [[u'|e] w5]; [|discriminate].
  cbn [ret]. intros [= <- _].
  eapply (collects_for_fold ps (scan_path so)); [| |exact Hfold].
  - intros. now apply collects_scan_path.
  - constructor.
Qed.

Lemma scan_collects_well_formed_lines_witness :
  exists w' pathElements vars,
    @effect_scan reference_host default_options corner_world = (Ok (pathElements, vars), w')
    /\ List.length (subSplitLineArray vars) = 2%nat
    /\ Forall sub_split_line_ok (subSplitLineArray vars).
Proof.
  remember (@effect_scan reference_host default_options corner_world) as r eqn:Hr.
  pose proof Hr as Hval. vm_compute in Hval.
  destruct r as [[[pathElements vars]|e] w']; [|discriminate].
  exists w', pathElements, vars. split; [reflexivity|]. split.
  - injection Hval as _ -> _. reflexivity.
  - exact (scan_collects_well_formed_lines reference_host default_options corner_world w'
             pathElements vars (eq_sym Hr)).
Defined.

(** ** The original paths after trimming *)

Lemma dedup_groups_paths (so : options) (gs : list nat) :
  forall seen d, d_paths (fst (dedup_groups so seen gs d)) = d_paths d.
Proof.
  induction gs as [|g gs IH]; intros seen d; cbn [dedup_groups]; [reflexivity|].
  destruct (nth_error (d_groups d) g) as [grp|]; [|apply IH].
  destruct (dedup_children so seen (g_children grp)) as [[kept seen'] ms].
  specialize (IH seen' (keep_children g kept d)).
  destruct (dedup_groups so seen' gs (keep_children g kept d)) as [d3 ms3].
  cbn [fst] in *. rewrite IH. unfold keep_children.
  destruct (List.length kept =? 0)%nat; reflexivity.
Qed.

Lemma keeps_remove_duplicates (so : options) (gs : list nat) :
  keeps_paths (remove_duplicates so gs).
Proof.
  intros w. unfold remove_duplicates, remove_duplicates_doc.
  pose proof (dedup_groups_paths so
                (if reverse_removal_order so then rev gs else gs) [] (w_doc w)) as Hd.
  destruct (dedup_groups so [] _ (w_doc w)) as [d ms]. exact Hd.
Qed.

Section AfterTrimming.
Context `{Host}.

Lemma keeps_attrib_get (k : string) (e : element) : keeps_paths (attrib_get k e).
Proof. unfold attrib_get. destruct (attr k (el_attrib e)); auto with keeps. Qed.

Lemma keeps_first2 (a : list Q) : keeps_paths (first2 a).
Proof. unfold first2. destruct a as [|x [|y a]]; auto with keeps. Qed.

Lemma keeps_trim_lines so line gid i T pieces :
  keeps_paths (trim_lines so line gid i T pieces).
Proof.
  unfold trim_lines. apply keeps_bind; [|intros; apply keeps_ret].
  apply keeps_for_fold. intros piece st. unfold trim_line_step.
  apply keeps_bind; [repeat keeps_step | intros named].
  apply keeps_bind; [apply keeps_index | intros p0].
  apply keeps_bind; [apply keeps_index | intros p1].
  apply keeps_bind; [|intros; apply keeps_ret].
  destruct (apply_style_to_trimmed so); [|apply keeps_ret].
  apply keeps_bind; [apply keeps_attrib_get | intros; apply keeps_ret].
Qed.

Lemma keeps_build_trim_line_group so arr i pts :
  keeps_paths (build_trim_line_group so arr i pts).
Proof.
  unfold build_trim_line_group.
  apply keeps_bind; [apply keeps_index | intros line].
  apply keeps_bind; [apply keeps_attrib_get | intros isClosed].
  match goal with |- keeps_paths (if ?b then _ else _) => destruct b end;
    [apply keeps_ret|].
  apply keeps_bind; [apply keeps_index | intros c0].
  apply keeps_bind; [apply keeps_first2 | intros a].
  apply keeps_bind; [apply keeps_index | intros c1].
  apply keeps_bind; [apply keeps_first2 | intros b].
  apply keeps_bind; [apply keeps_index | intros afterPrefix].
  apply keeps_bind; [apply keeps_get_doc | intros d].
  destruct (getElementById d _) as [grandparent|]; [|apply keeps_raise].
  apply keeps_bind; [destruct (find_group d _); auto with keeps | intros trimGroup].
  apply keeps_bind; [apply keeps_attrib_get | intros isBezier].
  apply keeps_bind; [apply keeps_update_group | intros _].
  apply keeps_bind; [apply keeps_attrib_get | intros originalPathId].
  apply keeps_bind; [apply keeps_update_group | intros _].
  apply keeps_bind; [apply keeps_trim_lines | intros added].
  apply keeps_bind; [|intros; apply keeps_ret].
  apply keeps_for_each. intros e. apply keeps_update_group.
Qed.

Lemma keeps_visualize_global_intersections so pts :
  keeps_paths (visualize_global_intersections so pts).
Proof. unfold visualize_global_intersections. repeat keeps_step. Qed.

Lemma keeps_trim_bezier so gs : keeps_paths (trim_bezier so gs).
Proof.
  unfold trim_bezier. apply keeps_for_each. intros g. unfold trim_bezier_group.
  apply keeps_bind; [unfold group_object; repeat keeps_step | intros trimGroup].
  unfold group_attrib_get. repeat keeps_step.
Qed.

Lemma keeps_combine_nonintersects so gs : keeps_paths (combine_nonintersects so gs).
Proof.
  unfold combine_nonintersects. apply keeps_for_each. intros g. unfold combine_group.
  apply keeps_bind; [unfold group_object; repeat keeps_step | intros trimGroup].
  apply keeps_bind; [apply keeps_debug | intros _].
  destruct (combine_scan _ _ _ _) as [[kept data] total].
  repeat keeps_step.
Qed.

Lemma deleted_path_elements (pathElements : list nat) :
  forall d,
    d_paths (fold_left (fun d k => update_path k detach_path d) pathElements d)
    = fold_left (fun ps k => update_nth k detach_path ps) pathElements (d_paths d).
Proof.
  induction pathElements as [|k l IH]; intros d; cbn [fold_left]; [reflexivity|].
  now rewrite IH.
Qed.

Lemma trim_all_paths so pathElements arr pts w w' :
  trim_all so pathElements arr pts w = (Ok tt, w') ->
  d_paths (w_doc w')
  = if keep_original_after_trim so then d_paths (w_doc w)
    else fold_left (fun ps k => update_nth k detach_path ps) pathElements (d_paths (w_doc w)).
Proof.
  unfold trim_all.
  set (body := fun subSplitIndex allTrimGroups => _).
  assert (Hbody : forall l acc, keeps_paths (for_fold l body acc)).
  { intros l. apply keeps_for_fold. intros i acc. unfold body.
    apply keeps_bind; [apply keeps_build_trim_line_group | intros [g|]];
      repeat keeps_step. }
  unfold bind at 1.
  pose proof (keeps_when (visualize_global_intersections_opt so) _
                (keeps_visualize_global_intersections so pts) w) as H1.
  destruct (when _ _ w) as [[u|e] w1]; [|discriminate]. cbn [snd] in H1.
  unfold bind at 1. pose proof (Hbody (seq 0 (List.length arr)) [] w1) as H2.
  destruct (for_fold _ body [] w1) as [[gs|e] w2]; [|discriminate]. cbn [snd] in H2.
  unfold bind at 1. pose proof (keeps_debug so
    (Msg "trim groups count: {}" [FInt (Z.of_nat (List.length gs))]) w2) as H3.
  destruct (debug so _ w2) as [[u3|e] w3]; [|discriminate]. cbn [snd] in H3.
  unfold bind at 1.
  match goal with |- context [when ?b ?c w3] =>
    pose proof (keeps_when b c (keeps_msg _) w3) as H4; destruct (when b c w3) as [[u4|e] w4]
  end; [|discriminate]. cbn [snd] in H4.
  unfold bind at 1.
  pose proof (keeps_when (bezier_trimming so) _ (keeps_trim_bezier so gs) w4) as H5.
  destruct (when _ _ w4) as [[u5|e] w5]; [|discriminate]. cbn [snd] in H5.
  unfold bind at 1.
  pose proof (keeps_when (remove_duplicates_opt so) _ (keeps_remove_duplicates so gs) w5)
    as H6.
  destruct (when _ _ w5) as [[u6|e] w6]; [|discriminate]. cbn [snd] in H6.
  unfold bind at 1.
  pose proof (keeps_when (combine_nonintersects_opt so) _
                (keeps_combine_nonintersects so gs) w6) as H7.
  destruct (when _ _ w6) as [[u7|e] w7]; [|discriminate]. cbn [snd] in H7.
  assert (Hw7 : d_paths (w_doc w7) = d_paths (w_doc w)) by congruence.
  destruct (keep_original_after_trim so); cbn [negb when].
  - intros [= <-]. exact Hw7.
  - rewrite delete_paths_run. intros [= <-]. cbn [w_doc].
    now rewrite deleted_path_elements, Hw7.
Qed.

End AfterTrimming.

(** Once the trimming stage went through, [keep_original_after_trim]
    decides alone what became of the original paths: with it every path
    element is exactly as the scan left it, without it every path element
    the scan was given is deleted. *)
Theorem originals_after_trimming (H : Host) (so : options) (pathElements : list nat)
    (subSplitLineArray : list element) (globalIntersectionPoints : list point)
    (w w' : world) :
  trim_all so pathElements subSplitLineArray globalIntersectionPoints w = (Ok tt, w') ->
  (keep_original_after_trim so = true -> d_paths (w_doc w') = d_paths (w_doc w))
  /\ (keep_original_after_trim so = false ->
      forall k pe,
        In k pathElements -> nth_error (d_paths (w_doc w)) k = Some pe ->
        nth_error (d_paths (w_doc w')) k = Some (detach_path pe)).
Proof.
  intros Hrun. pose proof (trim_all_paths _ _ _ _ _ _ Hrun) as Hpaths. split.
  - intros Hkeep. now rewrite Hkeep in Hpaths.
  - intros Hkeep k pe Hin Hk. rewrite Hkeep in Hpaths. rewrite Hpaths.
    destruct (deleted_paths pathElements (mkDoc (d_paths (w_doc w)) [] [])) as (_ & _ & Hp).
    rewrite deleted_path_elements in Hp. cbn [d_paths] in Hp. rewrite (Hp k pe Hk).
    replace (existsb (Nat.eqb k) pathElements) with true; [reflexivity|].
    symmetry. apply existsb_exists. exists k. split; [exact Hin | apply Nat.eqb_refl].
Qed.

Lemma originals_after_trimming_witness :
  exists w',
    @trim_all reference_host trimming_options [0%nat] [square_line] [(5, 0)] square_world
    = (Ok tt, w')
    /\ map g_id (d_groups (w_doc w')) = ["shapely-subsplit-sq"%string]
    /\ forall k pe,
         In k [0%nat] -> nth_error (d_paths (w_doc square_world)) k = Some pe ->
         nth_error (d_paths (w_doc w')) k = Some (detach_path pe).
Proof.
  remember (@trim_all reference_host trimming_options [0%nat] [square_line] [(5, 0)]
              square_world) as r eqn:Hr.
  pose proof Hr as Hval. vm_compute in Hval.
  destruct r as [[[]|e] w']; [|discriminate].
  exists w'. split; [reflexivity|]. split.
  - injection Hval as ->. reflexivity.
  - exact (proj2 (originals_after_trimming reference_host trimming_options [0%nat]
                    [square_line] [(5, 0)] square_world w' (eq_sym Hr)) eq_refl).
Defined.

(** ** The trim group of a sub split line *)

Lemma attr_set_attr_same (k v : string) (a : list (string * string)) :
  attr k (set_attr k v a) = Some v.
Proof.
  unfold attr. induction a as [|[k' v'] a IH]; cbn [set_attr find fst snd].
  - now rewrite String.eqb_refl.
  - destruct (String.eqb k' k) eqn:E; cbn [find fst snd].
    + now rewrite String.eqb_refl.
    + rewrite E. exact IH.
Qed.

Lemma attr_set_attr_other (k k' v : string) (a : list (string * string)) :
  String.eqb k' k = false -> attr k (set_attr k' v a) = attr k a.
Proof.
  intros Hk. unfold attr. induction a as [|[k0 v0] a IH]; cbn [set_attr find fst snd].
  - now rewrite Hk.
  - destruct (String.eqb k0 k') eqn:E; cbn [find fst snd].
    + apply String.eqb_eq in E. subst k0. now rewrite Hk.
    + destruct (String.eqb k0 k); [reflexivity | exact IH].
Qed.

Lemma keeps_document_ret {A} (a : A) : keeps_document (ret a).
Proof. intros w; reflexivity. Qed.

Lemma keeps_document_raise {A} (e : exn) : keeps_document (@raise A e).
Proof. intros w; reflexivity. Qed.

Lemma keeps_document_bind {A B} (c : M A) (k : A -> M B) :
  keeps_document c -> (forall a, keeps_document (k a)) -> keeps_document (bind c k).
Proof.
  intros Hc Hk w. unfold bind. specialize (Hc w).
  destruct (c w) as [[a|e] w1]; cbn [snd] in *; [|exact Hc].
  now rewrite Hk.
Qed.

Lemma keeps_document_for_fold {A S} (l : list A) (body : A -> S -> M S) :
  (forall x s, keeps_document (body x s)) -> forall s, keeps_document (for_fold l body s).
Proof.
  intros Hbody. induction l as [|x l IH]; intros s; cbn [for_fold].
  - apply keeps_document_ret.
  - apply keeps_document_bind; auto.
Qed.

Lemma keeps_document_index {A} (l : list A) (i : nat) : keeps_document (index l i).
Proof.
  unfold index. destruct (nth_error l i);
    [apply keeps_document_ret | apply keeps_document_raise].
Qed.

Section TrimGroup.
Context `{Host}.

Lemma keeps_document_trim_lines so line gid i T pieces :
  keeps_document (trim_lines so line gid i T pieces).
Proof.
  unfold trim_lines. apply keeps_document_bind; [|intros; apply keeps_document_ret].
  apply keeps_document_for_fold. intros piece st. unfold trim_line_step.
  apply keeps_document_bind.
  { destruct (1 <? _)%nat; [|apply keeps_document_ret].
    apply keeps_document_bind; [intros w; reflexivity | intros u].
    apply keeps_document_bind; [intros w; reflexivity | intros u'].
    apply keeps_document_ret. }
  intros named.
  apply keeps_document_bind; [apply keeps_document_index | intros p0].
  apply keeps_document_bind; [apply keeps_document_index | intros p1].
  apply keeps_document_bind; [|intros; apply keeps_document_ret].
  destruct (apply_style_to_trimmed so); [|apply keeps_document_ret].
  apply keeps_document_bind; [|intros; apply keeps_document_ret].
  unfold attrib_get. destruct (attr _ _);
    [apply keeps_document_ret | apply keeps_document_raise].
Qed.

Lemma add_children (g : nat) (l : list element) :
  forall w grp,
    nth_error (d_groups (w_doc w)) g = Some grp ->
    exists w',
      for_each l (add_child g) w = (Ok tt, w')
      /\ nth_error (d_groups (w_doc w')) g = Some (set_children (g_children grp ++ l) grp)
      /\ (forall h, h <> g -> nth_error (d_groups (w_doc w')) h
                              = nth_error (d_groups (w_doc w)) h)
      /\ d_paths (w_doc w') = d_paths (w_doc w)
      /\ d_markers (w_doc w') = d_markers (w_doc w).
Proof.
  induction l as [|e l IH]; intros w grp Hg; cbn [for_each].
  - exists w. split; [reflexivity|]. rewrite app_nil_r.
    split; [rewrite Hg; now destruct grp | repeat split].
  - unfold bind at 1, add_child at 1, modify_doc at 1.
    match goal with |- context [for_each l _ ?w1] =>
      destruct (IH w1 (set_children (g_children grp ++ [e]) grp))
        as (w' & Hrun & Hg' & Hother & Hp & Hm)
    end.
    { cbn [w_doc update_group d_groups]. now rewrite nth_error_update_nth_same, Hg. }
    exists w'. split; [exact Hrun|]. cbn [w_doc update_group d_groups d_paths d_markers] in *.
    split; [|split; [|split]]; try assumption.
    + rewrite Hg'. cbn [set_children g_children g_id g_parent g_attrib].
      now rewrite <- app_assoc.
    + intros h Hh. rewrite (Hother h Hh). apply nth_error_update_nth_other. congruence.
Qed.

Lemma trim_group_found (d : document) (gid : string) (grandparent : parent_ref) :
  forall g, find_group d gid = Some g ->
            nth_error (d_groups d) g = Some (trim_group_before d gid grandparent)
            /\ g_id (trim_group_before d gid grandparent) = gid.
Proof.
  intros g Hfind. unfold trim_group_before. rewrite Hfind.
  pose proof (find_group_from_spec (d_groups d) gid 0) as Hspec.
  unfold find_group in Hfind. rewrite Hfind in Hspec.
  destruct Hspec as (before & grp & after & Hgs & -> & Hnames & _).
  cbn [Nat.add]. rewrite Hgs, nth_error_app2, Nat.sub_diag by lia. cbn [nth_error].
  rewrite app_nth2, Nat.sub_diag by lia. cbn [nth].
  split; [reflexivity|].
  unfold names in Hnames. apply andb_true_iff in Hnames as [_ Hid].
  now apply String.eqb_eq.
Qed.

End TrimGroup.

Section TrimGroupSteps.
Context `{Host}.

Lemma trim_lines_paths so line gid i T pieces w added w' :
  trim_lines so line gid i T pieces w = (Ok added, w') ->
  map el_path added = map (piece_path T) pieces.
Proof.
  unfold trim_lines, bind.
  destruct (for_fold pieces _ ([], []) w) as [[st|e] w1] eqn:Hfold; [|discriminate].
  cbn [ret]. intros [= <- _].
  apply (trim_lines_fold_paths _ _ _ _ _ _ _ _ _ _ Hfold).
Qed.

(** When the original path is found, the call returns the trim group,
    found or made, with the attributes of the line and with the trim lines
    of the loop appended. *)
Lemma build_trim_line_group_run so arr i pts w line oid j
    l0 x0 y0 a0 l1 x1 y1 a1 rest grandparent :
  nth_error arr i = Some line ->
  sub_split_line_ok line ->
  el_id line = sub_split_id oid j ->
  skipped so line = false ->
  to_arrays (el_path line) = Cmd l0 (x0 :: y0 :: a0) :: Cmd l1 (x1 :: y1 :: a1) :: rest ->
  getElementById (w_doc w) (trim_group_parent_id oid) = Some grandparent ->
  (forall piece, In piece (trim_pieces so (x0, y0) (x1, y1) pts) ->
                 (2 <= List.length piece)%nat) ->
  exists w' added isBezier originalPathId,
    build_trim_line_group so arr i pts w
    = (Ok (Some (trim_group_position (w_doc w) (trim_group_id oid))), w')
    /\ attr "originalPathIsBezier" (el_attrib line) = Some isBezier
    /\ attr "originalPathId" (el_attrib line) = Some originalPathId
    /\ nth_error (d_groups (w_doc w')) (trim_group_position (w_doc w) (trim_group_id oid))
       = Some (set_children
                 (g_children (trim_group_before (w_doc w) (trim_group_id oid) grandparent)
                  ++ added)
                 (set_group_attr "originalPathId" originalPathId
                    (set_group_attr "originalPathIsBezier" isBezier
                       (trim_group_before (w_doc w) (trim_group_id oid) grandparent))))
    /\ g_id (trim_group_before (w_doc w) (trim_group_id oid) grandparent) = trim_group_id oid
    /\ trim_inv (trim_group_id oid) i
                (List.length (trim_pieces so (x0, y0) (x1, y1) pts))
                (repeat (trim_group_id oid)
                        (List.length (trim_pieces so (x0, y0) (x1, y1) pts)), added)
    /\ map el_path added
       = map (piece_path (composed_transform (trim_group_parent_id oid)))
             (trim_pieces so (x0, y0) (x1, y1) pts)
    /\ (forall h,
          h <> trim_group_position (w_doc w) (trim_group_id oid) ->
          nth_error (d_groups (w_doc w')) h = nth_error (d_groups (w_doc w)) h)
    /\ d_paths (w_doc w') = d_paths (w_doc w)
    /\ d_markers (w_doc w') = d_markers (w_doc w).
Proof.
  intros Hline Hok Hid Hskip Harr Hfound Hpieces.
  destruct Hok as ((opid' & i' & _ & Hopid) & _ & _ & _ & [b Hbez] & [c Hclosed] & Hstyle).
  rewrite (build_trim_line_group_body so arr i pts w line oid j l0 x0 y0 a0 l1 x1 y1 a1 rest);
    try assumption; [|congruence].
  rewrite Hfound.
  set (gid := trim_group_id oid).
  set (pieces := trim_pieces so (x0, y0) (x1, y1) pts) in *.
  set (before := trim_group_before (w_doc w) gid grandparent).
  set (g := trim_group_position (w_doc w) gid).
  (* the group is found or made *)
  assert (Hgroup : exists w1,
             match find_group (w_doc w) gid with
             | Some g0 => ret g0
             | None => add_group grandparent gid
             end w = (Ok g, w1)
             /\ nth_error (d_groups (w_doc w1)) g = Some before
             /\ g_id before = gid
             /\ (forall h, h <> g -> nth_error (d_groups (w_doc w1)) h
                                     = nth_error (d_groups (w_doc w)) h)
             /\ d_paths (w_doc w1) = d_paths (w_doc w)
             /\ d_markers (w_doc w1) = d_markers (w_doc w)).
  { unfold g, before, trim_group_position.
    destruct (find_group (w_doc w) gid) as [g0|] eqn:Hfind.
    - destruct (trim_group_found (w_doc w) gid grandparent g0 Hfind) as [Hnth Hgid].
      exists w. repeat split; assumption.
    - unfold add_group, trim_group_before. rewrite Hfind.
      eexists. split; [reflexivity|]. cbn [w_doc d_groups d_paths d_markers].
      split; [|split; [|split; [|split]]].
      + rewrite nth_error_app2, Nat.sub_diag by lia. reflexivity.
      + reflexivity.
      + intros h Hh. destruct (Nat.lt_ge_cases h (List.length (d_groups (w_doc w)))).
        * now rewrite nth_error_app1.
        * rewrite (proj2 (nth_error_None _ _)) by (rewrite length_app; cbn; lia).
          symmetry. apply nth_error_None. lia.
      + reflexivity.
      + reflexivity. }
  destruct Hgroup as (w1 & Hrun1 & Hg1 & Hgid & Hother1 & Hpaths1 & Hmarkers1).
  unfold bind at 1. rewrite Hrun1.
  unfold bind at 1, attrib_get at 1. rewrite Hbez. cbn [ret].
  unfold bind at 1, modify_doc at 1.
  unfold bind at 1, attrib_get at 1. rewrite Hopid. cbn [ret].
  unfold bind at 1, modify_doc at 1. cbn [w_doc w_msgs w_next_id].
  set (d3 := update_group g (set_group_attr "originalPathId" opid')
               (update_group g (set_group_attr "originalPathIsBezier" (PyStr.str_bool b))
                  (w_doc w1))).
  set (w3 := mkWorld d3 (w_msgs w1) (w_next_id w1)).
  assert (Hg3 : nth_error (d_groups d3) g
                = Some (set_group_attr "originalPathId" opid'
                          (set_group_attr "originalPathIsBezier" (PyStr.str_bool b) before))).
  { unfold d3. cbn [update_group d_groups].
    now rewrite !nth_error_update_nth_same, Hg1. }
  assert (Hother3 : forall h, h <> g -> nth_error (d_groups d3) h
                                        = nth_error (d_groups (w_doc w)) h).
  { intros h Hh. unfold d3. cbn [update_group d_groups].
    rewrite !nth_error_update_nth_other by congruence. now apply Hother1. }
  (* the trim lines *)
  destruct (trim_lines_inv so line gid i (composed_transform (trim_group_parent_id oid))
              (fun _ => Hstyle) pieces w3 Hpieces) as (added & w4 & Hrun4 & Hinv).
  pose proof (keeps_document_trim_lines so line gid i
                (composed_transform (trim_group_parent_id oid)) pieces w3) as Hdoc4.
  unfold bind at 1. fold w3. rewrite Hrun4 in *. cbn [snd] in Hdoc4.
  (* and their place in the group *)
  destruct (add_children g added w4 _ ltac:(rewrite Hdoc4; exact Hg3))
    as (w5 & Hrun5 & Hg5 & Hother5 & Hpaths5 & Hmarkers5).
  unfold bind at 1. rewrite Hrun5. cbn [ret].
  exists w5, added, (PyStr.str_bool b), opid'.
  split; [reflexivity|]. split; [reflexivity|]. split; [reflexivity|].
  split; [exact Hg5|]. split; [exact Hgid|]. split; [exact Hinv|].
  split; [exact (trim_lines_paths _ _ _ _ _ _ _ _ _ Hrun4)|]. split; [|split].
  - intros h Hh. rewrite (Hother5 h Hh), Hdoc4. now apply Hother3.
  - rewrite Hpaths5, Hdoc4. unfold w3, d3. cbn [w_doc update_group d_paths]. exact Hpaths1.
  - rewrite Hmarkers5, Hdoc4. unfold w3, d3. cbn [w_doc update_group d_markers].
    exact Hmarkers1.
Qed.

End TrimGroupSteps.

(** For a sub split line of the scan that is not skipped,
    [build_trim_line_group] returns the trim group when the element it
    looks up as the original path is in the document: the first group with
    the id of the trim group if there is one, otherwise a new group beside
    the element found.  The group gets the attributes
    [originalPathIsBezier] and [originalPathId] of the line, and the trim
    lines, one for each piece of the split and in their order, are
    appended to its children.  No other group, no path element and no
    marker is touched. *)
Theorem trim_group_receives_the_lines (H : Host) (so : options)
    (subSplitLineArray : list element) (subSplitIndex : nat)
    (globalIntersectionPoints : list point) (w : world) (line : element)
    (oid : string) (j : nat) (l0 l1 : ascii) (x0 y0 x1 y1 : Q) (a0 a1 : list Q)
    (rest : path) (grandparent : parent_ref) :
  nth_error subSplitLineArray subSplitIndex = Some line ->
  sub_split_line_ok line ->
  el_id line = sub_split_id oid j ->
  skipped so line = false ->
  to_arrays (el_path line) = Cmd l0 (x0 :: y0 :: a0) :: Cmd l1 (x1 :: y1 :: a1) :: rest ->
  getElementById (w_doc w) (trim_group_parent_id oid) = Some grandparent ->
  (forall piece,
      In piece (trim_pieces so (x0, y0) (x1, y1) globalIntersectionPoints) ->
      (2 <= List.length piece)%nat) ->
  exists w' added isBezier originalPathId,
    build_trim_line_group so subSplitLineArray subSplitIndex globalIntersectionPoints w
    = (Ok (Some (trim_group_position (w_doc w) (trim_group_id oid))), w')
    /\ attr "originalPathIsBezier" (el_attrib line) = Some isBezier
    /\ attr "originalPathId" (el_attrib line) = Some originalPathId
    /\ nth_error (d_groups (w_doc w')) (trim_group_position (w_doc w) (trim_group_id oid))
       = Some (set_children
                 (g_children (trim_group_before (w_doc w) (trim_group_id oid) grandparent)
                  ++ added)
                 (set_group_attr "originalPathId" originalPathId
                    (set_group_attr "originalPathIsBezier" isBezier
                       (trim_group_before (w_doc w) (trim_group_id oid) grandparent))))
    /\ g_id (trim_group_before (w_doc w) (trim_group_id oid) grandparent) = trim_group_id oid
    /\ map el_path added
       = map (piece_path (composed_transform (trim_group_parent_id oid)))
             (trim_pieces so (x0, y0) (x1, y1) globalIntersectionPoints)
    /\ (forall h,
          h <> trim_group_position (w_doc w) (trim_group_id oid) ->
          nth_error (d_groups (w_doc w')) h = nth_error (d_groups (w_doc w)) h)
    /\ d_paths (w_doc w') = d_paths (w_doc w)
    /\ d_markers (w_doc w') = d_markers (w_doc w).
Proof.
  intros Hline Hok Hid Hskip Harr Hfound Hpieces.
  destruct (build_trim_line_group_run so subSplitLineArray subSplitIndex
              globalIntersectionPoints w line oid j l0 x0 y0 a0 l1 x1 y1 a1 rest grandparent
              Hline Hok Hid Hskip Harr Hfound Hpieces)
    as (w' & added & isBezier & originalPathId & Hrun & Hb & Ho & Hg & Hgid & _ & Hpaths
        & Hothers & Hp & Hm).
  exists w', added, isBezier, originalPathId. repeat split; assumption.
Qed.

Lemma trim_group_receives_the_lines_witness :
  exists w' added,
    @build_trim_line_group cutting_host default_options [square_line] 0 [(5, 0)]
      square_world = (Ok (Some 0%nat), w')
    /\ nth_error (d_groups (w_doc w')) 0
       = Some (mkGroup "shapely-subsplit-sq" Root
                 [("originalPathIsBezier", "False"); ("originalPathId", "sq")]%string added)
    /\ map el_path added = [[M_ 0 0; L_ 5 0]; [M_ 5 0; L_ 10 0]].
Proof.
  destruct (trim_group_receives_the_lines cutting_host default_options [square_line] 0
              [(5, 0)] square_world square_line "sq" 0 "M" "L" 0 0 10 0 [] [] [] Root
              eq_refl) as (w' & added & isBezier & originalPathId & Hrun & Hb & Hid & Hg & _
                           & Hpaths & _).
  - split; [exists "sq"%string, 0%nat; split; reflexivity|].
    split; [exists false; reflexivity|]. split; [exists true; reflexivity|].
    split; [exists false; reflexivity|]. split; [exists false; reflexivity|].
    split; [exists true; reflexivity | discriminate].
  - reflexivity.
  - reflexivity.
  - reflexivity.
  - reflexivity.
  - intros piece [<- | [<- | []]]; cbn; lia.
  - exists w', added. split; [exact Hrun|]. split; [|exact Hpaths].
    injection Hb as <-. injection Hid as <-. exact Hg.
Defined.

(** ** The marking of the trim lines *)




(** ** Trim lines under a transform *)

(** C4.  The trim lines do not rebuild the segment when the original path
    has a composed transform other than the identity.  In a layer scaled by
    two and moved by ten, the sub split line of [a] runs from (0,0) to
    (2,0) in the coordinates of the layer and is cut at (1,0); the two trim
    lines, put into the same layer, run from (-5,0) to (-9/2,0) and from
    there to (-4,0): they do not lead from the start of the segment to its
    end, by far more than the snap tolerance, and each has the length 1/2
    (the square 1/4), so that they add up to 1 where the segment has the
    length 2 (the square 4).
    Without the transform the same two lines give the trim lines
    (0,0)-(1,0) and (1,0)-(2,0), which do. *)
Theorem trim_lines_leave_the_segment :
  match fst (@effect_scan crossing_host trim_both_options crossing_world) with
  | Ok (_, vars) =>
      paths_eqb (map el_path (subSplitLineArray vars))
                [[M_ 0 0; L_ 2 0]; [M_ 1 (-1); L_ 1 1]]
  | Raise _ => false
  end = true
  /\ fst (@effect crossing_host trim_both_options crossing_world) = Ok tt
  /\ map (fun g => (g_id g, g_parent g))
         (d_groups (w_doc (snd (@effect crossing_host trim_both_options crossing_world))))
     = [("layer", Root); ("shapely-subsplit-a", InGroup "layer");
        ("shapely-subsplit-b", InGroup "layer")]%string
  /\ match trim_paths (w_doc (snd (@effect crossing_host trim_both_options crossing_world)))
                      "shapely-subsplit-a" with
     | Some ps => paths_eqb ps [[M_ (-5) 0; L_ (-9 # 2) 0]; [M_ (-9 # 2) 0; L_ (-4) 0]]
     | None => false
     end = true
  /\ option_map (leads (snap_tolerance trim_both_options) (0, 0) (2, 0))
       (trim_paths (w_doc (snd (@effect crossing_host trim_both_options crossing_world)))
                   "shapely-subsplit-a")
     = Some false
  /\ has_length2 4 [M_ 0 0; L_ 2 0] = true
  /\ option_map (map (has_length2 (1 # 4)))
       (trim_paths (w_doc (snd (@effect crossing_host trim_both_options crossing_world)))
                   "shapely-subsplit-a")
     = Some [true; true]
  /\ match trim_paths (w_doc (snd (@effect cutting_host trim_both_options crossing_world)))
                      "shapely-subsplit-a" with
     | Some ps => paths_eqb ps [[M_ 0 0; L_ 1 0]; [M_ 1 0; L_ 2 0]]
     | None => false
     end = true
  /\ option_map (leads (snap_tolerance trim_both_options) (0, 0) (2, 0))
       (trim_paths (w_doc (snd (@effect cutting_host trim_both_options crossing_world)))
                   "shapely-subsplit-a")
     = Some true.
Proof. vm_compute. repeat split. Qed.

(** ** What the deduplicator leaves of a group *)

Lemma thinned_refl (grp : group) : thinned grp grp.
Proof. repeat split; auto. Qed.

Lemma thinned_trans (a b c : group) : thinned a b -> thinned b c -> thinned a c.
Proof.
  intros (Hi & Ha & Hc & Hp & Hd) (Hi' & Ha' & Hc' & Hp' & Hd').
  split; [congruence|]. split; [congruence|]. split; [auto|]. split.
  - intros Hne. rewrite (Hp' Hne). apply Hp.
    destruct (g_children c) as [|e cs]; [congruence|].
    intros Hb. specialize (Hc' e (or_introl eq_refl)). rewrite Hb in Hc'. exact Hc'.
  - destruct Hd' as [-> | ->]; [exact Hd | now right].
Qed.

Lemma dedup_children_sub (so : options) (cs : list element) :
  forall seen e, In e (fst (fst (dedup_children so seen cs))) -> In e cs.
Proof.
  induction cs as [|c cs IH]; intros seen e; cbn [dedup_children]; [auto|].
  destruct (negb (path_in (el_path c) seen)).
  - specialize (IH (seen ++ [el_path c]) e).
    destruct (dedup_children so (seen ++ [el_path c]) cs) as [[kept s] ms].
    cbn [fst] in *. intros [<- | He]; [now left | right; auto].
  - specialize (IH seen e). destruct (dedup_children so seen cs) as [[kept s] ms].
    cbn [fst] in *. intros He. right. auto.
Qed.

Lemma keep_children_thinned (g : nat) (kept : list element) (d : document) (grp : group) :
  nth_error (d_groups d) g = Some grp ->
  (forall e, In e kept -> In e (g_children grp)) ->
  exists grp',
    nth_error (d_groups (keep_children g kept d)) g = Some grp'
    /\ thinned grp grp'
    /\ (g_children grp' = [] -> g_parent grp' = Detached).
Proof.
  intros Hg Hsub. rewrite (keep_children_same g kept d grp Hg).
  eexists. split; [reflexivity|].
  destruct kept as [|e kept]; cbn [List.length Nat.eqb].
  - split; [|reflexivity]. repeat split; cbn; auto. contradiction.
  - split; [|discriminate]. repeat split; cbn; auto.
Qed.

Lemma keep_children_frame (g : nat) (kept : list element) (d : document) :
  d_paths (keep_children g kept d) = d_paths d
  /\ d_markers (keep_children g kept d) = d_markers d.
Proof.
  unfold keep_children. destruct (List.length kept =? 0)%nat; split; reflexivity.
Qed.

Lemma dedup_groups_thins (so : options) (gs : list nat) :
  forall seen d,
    (forall g grp, nth_error (d_groups d) g = Some grp ->
       exists grp',
         nth_error (d_groups (fst (dedup_groups so seen gs d))) g = Some grp'
         /\ thinned grp grp'
         /\ (~ In g gs -> grp' = grp)
         /\ (In g gs -> g_children grp' = [] -> g_parent grp' = Detached))
    /\ d_paths (fst (dedup_groups so seen gs d)) = d_paths d
    /\ d_markers (fst (dedup_groups so seen gs d)) = d_markers d.
Proof.
  induction gs as [|h gs IH]; intros seen d.
  - cbn [dedup_groups fst]. split; [|split; reflexivity].
    intros g grp Hg. exists grp. split; [exact Hg|]. split; [apply thinned_refl|].
    split; [reflexivity | contradiction].
  - destruct (nth_error (d_groups d) h) as [hgrp|] eqn:Hh.
    2:{ rewrite dedup_groups_missing by assumption.
        destruct (IH seen d) as (Hgroups & Hp & Hm). split; [|split; assumption].
        intros g grp Hg. destruct (Hgroups g grp Hg) as (grp' & Hn & Ht & Hout & Hin).
        exists grp'. split; [exact Hn|]. split; [exact Ht|]. split.
        - intros Hnot. apply Hout. intros Hgs. apply Hnot. now right.
        - intros [-> | Hgs]; [congruence | now apply Hin]. }
    destruct (dedup_children so seen (g_children hgrp)) as [[kept seen1] ms] eqn:Hc.
    rewrite (dedup_groups_step _ _ _ _ _ _ _ _ _ Hh Hc).
    destruct (IH seen1 (keep_children h kept d)) as (Hgroups & Hp & Hm).
    destruct (keep_children_frame h kept d) as [Hp1 Hm1].
    split; [|split; congruence].
    intros g grp Hg. destruct (Nat.eq_dec h g) as [->|Hne].
    + destruct (keep_children_thinned g kept d grp Hg) as (grp1 & Hn1 & Ht1 & He1).
      { intros e He. assert (hgrp = grp) by congruence. subst hgrp.
        apply (dedup_children_sub so _ seen). now rewrite Hc. }
      destruct (Hgroups g grp1 Hn1) as (grp' & Hn & Ht & Hout & Hin).
      exists grp'. split; [exact Hn|]. split; [eapply thinned_trans; eassumption|].
      split; [intros Hnot; exfalso; apply Hnot; now left|].
      intros _ Hempty. destruct (in_dec Nat.eq_dec g gs) as [Hgs | Hgs].
      * now apply Hin.
      * rewrite (Hout Hgs) in *. now apply He1.
    + assert (Hg1 : nth_error (d_groups (keep_children h kept d)) g = Some grp)
        by (now rewrite keep_children_other).
      destruct (Hgroups g grp Hg1) as (grp' & Hn & Ht & Hout & Hin).
      exists grp'. split; [exact Hn|]. split; [exact Ht|]. split.
      * intros Hnot. apply Hout. intros Hgs. apply Hnot. now right.
      * intros [Heq | Hgs]; [congruence | now apply Hin].
Qed.

(** [remove_duplicates] only deletes: of each group it keeps the id and
    the attributes, its children afterwards are among its children before,
    and it stays in the document as long as a child is left.  A group
    that was gone through and has no child left is deleted, so no empty trim
    group stays behind; groups not in the list, path elements and markers
    are left as they are. *)
Theorem remove_duplicates_only_thins (so : options) (allTrimGroups : list nat)
    (d : document) (g : nat) (grp : group) :
  nth_error (d_groups d) g = Some grp ->
  (exists grp',
      nth_error (d_groups (fst (remove_duplicates_doc so allTrimGroups d))) g = Some grp'
      /\ thinned grp grp'
      /\ (~ In g allTrimGroups -> grp' = grp)
      /\ (In g allTrimGroups -> g_children grp' = [] -> g_parent grp' = Detached))
  /\ d_paths (fst (remove_duplicates_doc so allTrimGroups d)) = d_paths d
  /\ d_markers (fst (remove_duplicates_doc so allTrimGroups d)) = d_markers d.
Proof.
  intros Hg. unfold remove_duplicates_doc.
  destruct (dedup_groups_thins so
              (if reverse_removal_order so then rev allTrimGroups else allTrimGroups) [] d)
    as (Hgroups & Hp & Hm).
  split; [|split; assumption].
  destruct (Hgroups g grp Hg) as (grp' & Hn & Ht & Hout & Hin).
  exists grp'. split; [exact Hn|]. split; [exact Ht|].
  destruct (reverse_removal_order so).
  - split.
    + intros Hnot. apply Hout. intros Hr. apply Hnot. now apply in_rev.
    + intros Hgs. apply Hin. now apply in_rev in Hgs.
  - split; assumption.
Qed.

Lemma remove_duplicates_only_thins_witness :
  exists grp',
    nth_error (d_groups (fst (remove_duplicates_doc default_options [0; 1]%nat
                                identical_pair))) 1 = Some grp'
    /\ thinned (mkGroup "shapely-subsplit-b" Root []
                  [piece "shapely-subsplit-b-1" (1, 1) (2, 2)]) grp'
    /\ (In 1%nat [0; 1]%nat -> g_children grp' = [] -> g_parent grp' = Detached).
Proof.
  destruct (proj1 (remove_duplicates_only_thins default_options [0; 1]%nat identical_pair 1
                     _ eq_refl)) as (grp' & Hn & Ht & _ & Hin).
  exists grp'. repeat split; try assumption; apply Ht.
Defined.

(** ** A path element without path data *)

(** A path element whose path data is empty has no last command:
    [effect] raises [IndexError] at the test for a closed path and the
    document stays as it is, unless [remove_polylines] is on, in which case
    the element counts as a polyline and is deleted. *)
Theorem empty_path_raises (H : Host) (so : options) (k : nat) (vars : scan_vars)
    (w : world) (pe : pathElement) :
  nth_error (d_paths (w_doc w)) k = Some pe ->
  path_transform (el_path (pe_elem pe)) (composed_transform (el_id (pe_elem pe))) = [] ->
  to_arrays [] = [] ->
  (remove_polylines so = false ->
   fst (scan_path so k vars w) = Raise IndexError
   /\ w_doc (snd (scan_path so k vars w)) = w_doc w)
  /\ (remove_polylines so = true ->
      fst (scan_path so k vars w) = Ok vars
      /\ w_doc (snd (scan_path so k vars w)) = update_path k detach_path (w_doc w)).
Proof.
  intros Hk Hp Harr.
  destruct (debug_returns so (Msg "sub path in {} is bezier: {}"
                                  [FStr (el_id (pe_elem pe)); FBool false]) w) as [w1 Hdbg].
  assert (Hw1 : w_doc w1 = w_doc w).
  { revert Hdbg. unfold debug, msg, ret. destruct (show_debug so); now intros [= <-]. }
  assert (Hrun : scan_path so k vars w
                 = if remove_polylines so
                   then (Ok vars, mkWorld (update_path k detach_path (w_doc w1))
                                          (w_msgs w1) (w_next_id w1))
                   else (Raise IndexError, w1)).
  { unfold scan_path.
    unfold bind at 1. unfold path_object, bind at 1, get_doc, index. rewrite Hk. cbn [ret].
    rewrite Hp. cbn [path_flags_of relCmds existsb has_letter andb orb negb].
    rewrite !andb_false_r. cbn [andb].
    unfold bind at 1. rewrite Hdbg, Harr.
    cbn [closed_test List.length Nat.sub nth_error].
    destruct (remove_polylines so); reflexivity. }
  rewrite Hrun. split; intros ->; cbn [fst snd w_doc]; split;
    try reflexivity; congruence.
Qed.

Lemma empty_path_raises_witness :
  fst (@effect reference_host default_options empty_path_world) = Raise IndexError
  /\ fst (@scan_path reference_host default_options 0 (mkScan [] None false)
            empty_path_world) = Raise IndexError
  /\ fst (@scan_path reference_host (with_remove_polylines true default_options) 0
            (mkScan [] None false) empty_path_world) = Ok (mkScan [] None false).
Proof.
  split; [reflexivity|]. split.
  - exact (proj1 (proj1 (empty_path_raises reference_host default_options 0
                           (mkScan [] None false) empty_path_world _
                           eq_refl eq_refl eq_refl) eq_refl)).
  - exact (proj1 (proj2 (empty_path_raises reference_host
                           (with_remove_polylines true default_options) 0
                           (mkScan [] None false) empty_path_world _
                           eq_refl eq_refl eq_refl) eq_refl)).
Defined.

(** ** The group of sub split lines *)

Lemma update_nth_last {A} (f : A -> A) (l : list A) (x : A) :
  update_nth (List.length l) f (l ++ [x]) = l ++ [f x].
Proof. induction l as [|y l IH]; cbn; [reflexivity | now rewrite IH]. Qed.

Lemma Forall2_same_refl (l : list element) : Forall2 same_but_style l l.
Proof. induction l; constructor; [repeat split | assumption]. Qed.

Lemma Forall2_restyled (s : style) (cs lines : list element) :
  Forall2 same_but_style cs lines ->
  Forall2 same_but_style (map (set_style s) cs) lines.
Proof.
  induction 1 as [|c l cs lines Hc _ IH]; cbn [map]; constructor; [|exact IH].
  destruct Hc as (Hi & Hp & Ha). repeat split; assumption.
Qed.

Section DrawSubsplit.
Context `{Host}.
Variables (so : options) (k : nat) (original : element) (fl : path_flags)
          (groups : list group) (collected : list element) (name : string)
          (parent : parent_ref).

Hypothesis drawing : draw_subsplit so = true.
Hypothesis keeping : remove_self_intersecting so = false.

Lemma keeps_document_line_from_segments (segs : path) (i : nat) (dec : Z) :
  keeps_document (line_from_segments segs i dec).
Proof.
  intros w. apply (reports_line_from_segments segs i dec w).
Qed.

Lemma drawn_sub_split_line segs i st w st' w' :
  drawn_so_far groups collected name parent w (fst st) ->
  sub_split_line so k original fl (Some (List.length groups)) segs i st w = (Ok st', w') ->
  drawn_so_far groups collected name parent w' (fst st').
Proof.
  intros (grp & lines & Hgs & Hname & Hpar & Harr & Hsame).
  unfold sub_split_line. unfold bind at 1.
  pose proof (keeps_document_line_from_segments segs i (decimals so) w) as Hd1.
  destruct (line_from_segments segs i (decimals so) w) as [[[[[x1 y1] x2] y2]|e] w1];
    [|discriminate]. cbn [snd] in Hd1.
  unfold bind at 1.
  pose proof (reports_path_object k w1) as [Hd2 _].
  destruct (path_object k w1) as [[pe|e] w2]; [|discriminate]. cbn [snd] in Hd2.
  rewrite drawing. cbn [when].
  unfold bind at 1, add_child at 1, modify_doc at 1. cbn [ret].
  intros [= <- <-]. unfold drawn_so_far.
  cbn [fst subSplitLineArray w_doc update_group d_groups].
  rewrite Hd2, Hd1, Hgs, update_nth_last. eexists _, (lines ++ [_]). split; [reflexivity|]. cbn [g_id g_parent set_children].
  split; [exact Hname|]. split; [exact Hpar|]. split.
  - rewrite Harr, <- app_assoc. reflexivity.
  - cbn [g_children]. apply Forall2_app; [exact Hsame|].
    constructor; [repeat split | constructor].
Qed.

Lemma drawn_sub_split_lines segs (l : list nat) :
  forall st w st' w',
    drawn_so_far groups collected name parent w (fst st) ->
    for_fold l (sub_split_line so k original fl (Some (List.length groups)) segs) st w
    = (Ok st', w') ->
    drawn_so_far groups collected name parent w' (fst st').
Proof.
  induction l as [|i l IH]; intros st w st' w' Hinv; cbn [for_fold].
  - intros [= <- <-]. exact Hinv.
  - unfold bind at 1.
    destruct (sub_split_line so k original fl _ segs i st w) as [[st1|e] w1] eqn:Hstep;
      [|discriminate].
    apply IH. eapply drawn_sub_split_line; eassumption.
Qed.

Lemma visualize_self_intersections_groups (pts : list point) (w : world) :
  d_groups (w_doc (snd (visualize_self_intersections so k pts w))) = d_groups (w_doc w).
Proof.
  unfold visualize_self_intersections. unfold bind at 1.
  pose proof (reports_path_object k w) as [Hd _].
  destruct (path_object k w) as [[pe|e] w1]; cbn [snd] in *; [|now rewrite Hd].
  rewrite <- Hd.
  destruct (pe_parent pe) as [|gid|]; [| |reflexivity].
  - unfold bind at 1.
    destruct (marker_loop so "selfIntersectionPoint-" None selfIntersectionPointStyle
                pts [] w1) as (circles & -> & _). reflexivity.
  - unfold bind at 1.
    destruct (marker_loop so "selfIntersectionPoint-"
                (Some (neg_transform (composed_transform gid))) selfIntersectionPointStyle
                pts [] w1) as (circles & -> & _). reflexivity.
Qed.

Lemma drawn_scan_sub_path subPath vars w vars' w' :
  drawn_so_far groups collected name parent w vars ->
  scan_sub_path so k original fl (Some (List.length groups)) subPath vars w = (Ok vars', w') ->
  drawn_so_far groups collected name parent w' vars'.
Proof.
  intros Hinv. unfold scan_sub_path. rewrite keeping, drawing. cbn [andb when].
  unfold bind at 1.
  destruct (for_fold _ _ _ w) as [[st|e] w1] eqn:Hfold; [|discriminate].
  pose proof (drawn_sub_split_lines _ _ (vars, []) _ _ _ Hinv Hfold) as Hinv1.
  unfold bind at 1, lift_result at 1.
  destruct (isect_segments (snd st) true) as [pts|e]; [|discriminate].
  assert (Hvars : forall flag w0,
             drawn_so_far groups collected name parent w0 (fst st) ->
             drawn_so_far groups collected name parent w0
               (mkScan (subSplitLineArray (fst st)) (subSplitId (fst st)) flag)).
  { intros flag w0 Hw0. exact Hw0. }
  destruct (0 <? List.length pts)%nat.
  2:{ cbn [ret]. intros [= <- <-]. now apply Hvars. }
  unfold bind at 1.
  match goal with |- context [match ?c w1 with _ => _ end] =>
    assert (Hmsg : forall r w0, c w1 = (r, w0) -> w_doc w0 = w_doc w1);
    [|destruct (c w1) as [[u|e] w2] eqn:E1; [|discriminate]] end.
  { destruct (show_debug so); [|now intros r w0 [= _ <-]].
    destruct (subSplitId (fst st)); now intros r w0 [= _ <-]. }
  pose proof (Hmsg _ _ eq_refl) as Hd2. clear Hmsg.
  assert (Hinv2 : drawn_so_far groups collected name parent w2 (fst st)).
  { destruct Hinv1 as (grp & lines & Hgs & Hrest). exists grp, lines.
    rewrite Hd2. now split. }
  unfold bind at 1. unfold bind at 1.
  assert (Hinv3 : exists w3,
             when (highlight_self_intersecting so)
               (modify_doc (update_group (List.length groups) (fun grp =>
                  set_children (map (set_style selfIntersectingPathStyle) (g_children grp))
                               grp))) w2 = (Ok tt, w3)
             /\ drawn_so_far groups collected name parent w3 (fst st)).
  { destruct (highlight_self_intersecting so); cbn [when].
    - eexists. split; [reflexivity|].
      destruct Hinv2 as (grp & lines & Hgs & Hname & Hpar & Harr & Hsame).
      eexists _, lines. cbn [modify_doc w_doc update_group d_groups].
      rewrite Hgs, update_nth_last. split; [reflexivity|].
      cbn [set_children g_id g_parent g_children].
      repeat split; try assumption. now apply Forall2_restyled.
    - exists w2. split; [reflexivity | exact Hinv2]. }
  destruct Hinv3 as (w3 & -> & Hinv3). cbn [ret].
  unfold bind at 1.
  pose proof (visualize_self_intersections_groups pts w3) as Hvis.
  match goal with |- context [when ?b ?c w3] =>
    assert (Hw4 : d_groups (w_doc (snd (when b c w3))) = d_groups (w_doc w3))
      by (destruct b; [exact Hvis | reflexivity]);
    destruct (when b c w3) as [[u4|e] w4]; [|discriminate]
  end.
  cbn [snd] in Hw4. cbn [ret]. intros [= <- <-].
  destruct Hinv3 as (grp & lines & Hgs & Hrest). exists grp, lines.
  rewrite Hw4. cbn [subSplitLineArray]. now split.
Qed.

Lemma drawn_scan_sub_paths (subPaths : list path) :
  forall vars w vars' w',
    drawn_so_far groups collected name parent w vars ->
    for_fold subPaths (scan_sub_path so k original fl (Some (List.length groups))) vars w
    = (Ok vars', w') ->
    drawn_so_far groups collected name parent w' vars'.
Proof.
  induction subPaths as [|subPath rest IH]; intros vars w vars' w' Hinv; cbn [for_fold].
  - intros [= <- <-]. exact Hinv.
  - unfold bind at 1.
    destruct (scan_sub_path so k original fl _ subPath vars w) as [[v1|e] w1] eqn:Hstep;
      [|discriminate].
    apply IH. eapply drawn_scan_sub_path; eassumption.
Qed.

End DrawSubsplit.



(** ** [adjust_style] *)

Lemma char_free_cons (c x : ascii) (s : string) :
  char_free c (String x s) <-> Ascii.eqb c x = false /\ char_free c s.
Proof.
  unfold char_free. cbn [PyStr.contains PyStr.startswith].
  rewrite andb_true_r, orb_false_iff. reflexivity.
Qed.

Lemma char_free_app (c : ascii) (a b : string) :
  char_free c (a ++ b) <-> char_free c a /\ char_free c b.
Proof.
  induction a as [|x a IH]; cbn [append].
  - split; [intros Hb; split; [reflexivity | exact Hb] | tauto].
  - rewrite !char_free_cons, IH. tauto.
Qed.

Lemma split_char_app (c : ascii) (a b : string) :
  char_free c a ->
  forall cur,
    PyStr.split_go (String c EmptyString) (a ++ String c b) 0 cur
    = (cur ++ a)%string :: PyStr.split_go (String c EmptyString) b 0 EmptyString.
Proof.
  induction a as [|x a IH]; intros Ha cur; cbn [append PyStr.split_go].
  - cbn [PyStr.startswith]. rewrite Ascii.eqb_refl. cbn [andb String.length Nat.sub].
    now rewrite str_app_nil_r.
  - apply char_free_cons in Ha as [Hx Ha]. cbn [PyStr.startswith].
    rewrite Hx. cbn [andb]. rewrite (IH Ha), str_app_assoc. reflexivity.
Qed.

Lemma split_join (c : ascii) (parts : list string) :
  parts <> [] -> Forall (char_free c) parts ->
  PyStr.split (String c EmptyString) (PyText.join (String c EmptyString) parts) = parts.
Proof.
  intros Hne Hfree. unfold PyStr.split.
  induction Hfree as [|x rest Hx Hrest IH]; [congruence|].
  destruct rest as [|y rest].
  - cbn [PyText.join]. now rewrite (split_without_separator _ x Hx).
  - change (PyText.join (String c EmptyString) (x :: y :: rest))
      with (x ++ String c (PyText.join (String c EmptyString) (y :: rest)))%string.
    rewrite (split_char_app c x _ Hx). cbn [append].
    rewrite IH by discriminate. reflexivity.
Qed.

Lemma split_parts_free (c : ascii) (s : string) :
  forall cur, char_free c cur ->
              Forall (char_free c) (PyStr.split_go (String c EmptyString) s 0 cur).
Proof.
  induction s as [|x s IH]; intros cur Hcur; cbn [PyStr.split_go].
  - now constructor.
  - cbn [PyStr.startswith]. rewrite andb_true_r.
    destruct (Ascii.eqb c x) eqn:E; cbn [String.length Nat.sub].
    + constructor; [exact Hcur | now apply IH].
    + apply IH. apply char_free_app. split; [exact Hcur|].
      apply char_free_cons. split; [exact E | reflexivity].
Qed.

Lemma join_snoc2 (sep : string) (parts : list string) (a b : string) :
  parts <> [] ->
  PyText.join sep (parts ++ [a; b])
  = (PyText.join sep parts ++ sep ++ a ++ sep ++ b)%string.
Proof.
  induction parts as [|x rest IH]; [congruence|]. intros _.
  destruct rest as [|y rest].
  - reflexivity.
  - change (PyText.join sep ((x :: y :: rest) ++ [a; b]))
      with (x ++ sep ++ PyText.join sep ((y :: rest) ++ [a; b]))%string.
    rewrite IH by discriminate. cbn [PyText.join].
    now rewrite !str_app_assoc.
Qed.

Lemma adjust_declaration_cases (width decl : string) :
  adjust_declaration width decl = decl
  \/ adjust_declaration width decl = ("stroke-width:" ++ width)%string
  \/ adjust_declaration width decl = "fill:none"%string.
Proof.
  unfold adjust_declaration.
  destruct (PyText.split_max ":" 2 decl "") as [|prop [|val [|x rest]]]; auto.
  destruct (String.eqb (PyText.lower (PyText.strip prop)) "fill") eqn:Efill.
  - apply String.eqb_eq in Efill. rewrite Efill. auto.
  - destruct (String.eqb (PyText.lower (PyText.strip prop)) "stroke-width") eqn:Ew; auto.
    apply String.eqb_eq in Ew. rewrite Ew. auto.
Qed.

Lemma adjust_declaration_free (width decl : string) :
  char_free ";" width -> char_free ";" decl ->
  char_free ";" (adjust_declaration width decl).
Proof.
  intros Hw Hd.
  destruct (adjust_declaration_cases width decl) as [-> | [-> | ->]].
  - exact Hd.
  - apply char_free_app. split; [reflexivity | exact Hw].
  - reflexivity.
Qed.

Lemma split_max_rest (c : ascii) (s : string) :
  char_free c s -> forall n cur, PyText.split_max c n s cur = [(cur ++ s)%string].
Proof.
  induction s as [|x s IH]; intros Hs n cur; cbn [PyText.split_max].
  - now rewrite str_app_nil_r.
  - destruct n as [|n]; [reflexivity|].
    apply char_free_cons in Hs as [Hx Hs]. rewrite Ascii.eqb_sym, Hx.
    rewrite (IH Hs), str_app_assoc. reflexivity.
Qed.

Lemma split_max_first (c : ascii) (a b : string) :
  char_free c a ->
  forall n cur,
    PyText.split_max c (S n) (a ++ String c b) cur
    = (cur ++ a)%string :: PyText.split_max c n b EmptyString.
Proof.
  induction a as [|x a IH]; intros Ha n cur; cbn [append PyText.split_max].
  - now rewrite Ascii.eqb_refl, str_app_nil_r.
  - apply char_free_cons in Ha as [Hx Ha]. rewrite Ascii.eqb_sym, Hx.
    rewrite (IH Ha), str_app_assoc. reflexivity.
Qed.





(** ** Walking the element tree *)

Lemma node_induction (P : Tree.node -> Prop) :
  (forall t e children, Forall P children -> P (Tree.Node t e children)) ->
  forall n, P n.
Proof.
  intros HP. fix IH 1. intros [t e children]. apply HP.
  induction children as [|c cs IHcs]; constructor; [apply IH | exact IHcs].
Qed.

Lemma get_child_paths_children (children : list Tree.node) :
  Forall (fun c => forall acc, Tree.get_child_paths c acc = acc ++ Tree.descendant_paths c)
         children ->
  forall acc,
    fold_left (fun acc child => Tree.get_child_paths child acc) children acc
    = acc ++ flat_map Tree.descendant_paths children.
Proof.
  induction 1 as [|c cs Hc _ IH]; intros acc; cbn [fold_left flat_map].
  - now rewrite app_nil_r.
  - now rewrite Hc, IH, app_assoc.
Qed.

Lemma get_child_paths_appends (element : Tree.node) :
  forall elements,
    Tree.get_child_paths element elements = elements ++ Tree.descendant_paths element.
Proof.
  induction element as [t e children IH] using node_induction. intros elements.
  cbn [Tree.get_child_paths Tree.descendant_paths].
  rewrite (get_child_paths_children children IH).
  destruct t; cbn [app]; [now rewrite <- app_assoc | reflexivity].
Qed.

(** [get_child_paths] appends to [elements] the path elements at and below
    the element, in document order; and [get_path_elements] therefore picks:
    with nothing selected, the paths of the document; without
    [handle_groups], the selected elements that are paths themselves, so
    nothing for a selected group; with [handle_groups], the paths at and
    below each selected element in turn, a path once for every selected
    element it is or lies under. *)
Theorem selection_picks_paths (so : options) (document : Tree.node)
    (selected : list Tree.node) :
  (forall element elements,
      Tree.get_child_paths element elements
      = elements ++ Tree.descendant_paths element)
  /\ Tree.selected_path_elements so document selected
     = match selected with
       | [] => Tree.descendant_paths document
       | _ :: _ =>
           if handle_groups so then flat_map Tree.descendant_paths selected
           else filter Tree.is_path selected
       end.
Proof.
  split; [intros; apply get_child_paths_appends|].
  unfold Tree.selected_path_elements. destruct selected as [|s rest]; [reflexivity|].
  cbn [List.length Nat.eqb]. destruct (handle_groups so); cbn [negb]; [|reflexivity].
  apply (get_child_paths_children (s :: rest)).
  apply Forall_forall. intros c _. apply get_child_paths_appends.
Qed.

(** ** Breaking paths apart *)

Section BreakContours.
Context `{Host}.

Lemma replacements_made (element : Tree.node) (subPaths : list path) :
  forall idSuffix made,
    Tree.replacements element idSuffix subPaths = Ok made ->
    map node_path made
    = filter (fun subPath => match Tree.worth_keeping subPath with
                             | Ok true => true
                             | _ => false
                             end) subPaths
    /\ map node_id made
       = map (fun j => (node_id element ++ str_nat j)%string)
             (seq idSuffix (List.length made))
    /\ Forall (copy_of element) made.
Proof.
  induction subPaths as [|subPath rest IH]; intros idSuffix made; cbn [Tree.replacements].
  - intros [= <-]. repeat split. constructor.
  - cbn [filter].
    destruct (Tree.worth_keeping subPath) as [[|]|x]; [| |discriminate].
    + destruct (Tree.replacements element (S idSuffix) rest) as [made'|x] eqn:E;
        [|discriminate].
      intros [= <-]. destruct (IH _ _ E) as (Hp & Hi & Hc).
      cbn [map List.length seq]. rewrite Hp, Hi.
      destruct element as [t e cs].
      split; [reflexivity|]. split; [reflexivity|].
      constructor; [|exact Hc]. repeat split.
    + apply IH.
Qed.

Lemma filter_all {A} (f : A -> bool) (l : list A) :
  List.length (filter f l) = List.length l -> filter f l = l.
Proof.
  induction l as [|x l IH]; cbn [filter List.length]; [reflexivity|].
  destruct (f x); cbn [List.length]; intros Hlen.
  - f_equal. apply IH. lia.
  - pose proof (filter_length_le f l). lia.
Qed.

Lemma worth_keeping_long (subPath : path) :
  Tree.worth_keeping subPath = Ok true -> (2 <= List.length subPath)%nat.
Proof.
  unfold Tree.worth_keeping. destruct (1 <? List.length subPath)%nat eqn:E; [|discriminate].
  intros _. apply Nat.ltb_lt in E. lia.
Qed.

Lemma replacements_simple (element : Tree.node) (raw : path) (made : list Tree.node) :
  Tree.is_path element = true ->
  Tree.replacements element 0 (sub_paths raw) = Ok made ->
  Forall simple_path_element made.
Proof.
  intros Hpath Hmade. destruct (replacements_made _ _ _ _ Hmade) as (Hp & _ & Hc).
  apply Forall_forall. intros n Hn.
  assert (Hin : In (node_path n) (map node_path made)) by now apply in_map.
  rewrite Hp in Hin. apply filter_In in Hin as [Hsub Hkeep].
  rewrite Forall_forall in Hc. destruct (Hc n Hn) as (Htag & _).
  split; [|split].
  - unfold Tree.is_path in *. now rewrite Htag.
  - apply worth_keeping_long. destruct (Tree.worth_keeping (node_path n)) as [[|]|];
      congruence.
  - pose proof (break_subpaths_no_inner_M raw [] true (fun _ => eq_refl)
                  ltac:(discriminate) I) as Hall.
    rewrite Forall_forall in Hall. now apply Hall.
Qed.

(** What a call adds to [breakelements] are path elements with one
    sub-path each, and what was in it stays in front. *)
Lemma break_contours_extends (element : Tree.node) :
  forall breakelements here acc,
    Tree.break_contours element breakelements = Ok (here, acc) ->
    exists more, acc = breakelements ++ more /\ Forall simple_path_element more.
Proof.
  induction element as [t e children IH] using node_induction.
  intros breakelements here acc. cbn [Tree.break_contours].
  set (break_children := fix break_children (cs : list Tree.node) (acc : list Tree.node)
         : result (list Tree.node * list Tree.node) := _).
  assert (Hchildren : forall cs, Forall (fun c =>
              forall b h a, Tree.break_contours c b = Ok (h, a) ->
                            exists more, a = b ++ more /\ Forall simple_path_element more) cs ->
            forall b h a, break_children cs b = Ok (h, a) ->
                          exists more, a = b ++ more /\ Forall simple_path_element more).
  { induction 1 as [|c cs Hc _ IHcs]; intros b h a; cbn [break_children].
    - intros [= _ <-]. exists []. split; [now rewrite app_nil_r | constructor].
    - destruct (Tree.break_contours c b) as [[h1 a1]|x] eqn:E1; [|discriminate].
      fold break_children.
      destruct (break_children cs a1) as [[h2 a2]|x] eqn:E2; [|discriminate].
      intros [= _ <-].
      destruct (Hc _ _ _ E1) as (m1 & -> & Hm1).
      destruct (IHcs _ _ _ E2) as (m2 & -> & Hm2).
      exists (m1 ++ m2). split; [now rewrite app_assoc | now apply Forall_app]. }
  destruct t.
  - destruct (Tree.replacements _ 0 _) as [made|x] eqn:Hmade; [|discriminate].
    destruct (break_children children (breakelements ++ made)) as [[h a]|x] eqn:E;
      [|discriminate].
    intros [= _ <-]. destruct (Hchildren children IH _ _ _ E) as (more & -> & Hmore).
    exists (made ++ more). split; [now rewrite app_assoc|].
    apply Forall_app. split; [|exact Hmore].
    eapply replacements_simple; [|exact Hmade]. reflexivity.
  - destruct (break_children children breakelements) as [[h a]|x] eqn:E; [|discriminate].
    intros [= _ <-]. exact (Hchildren children IH _ _ _ E).
Qed.

(** An element with no path at or below it is left as it is. *)
Lemma break_contours_no_paths (element : Tree.node) :
  Tree.descendant_paths element = [] ->
  forall breakelements,
    Tree.break_contours element breakelements = Ok ([element], breakelements).
Proof.
  induction element as [t e children IH] using node_induction.
  intros Hnone breakelements. cbn [Tree.break_contours].
  set (break_children := fix break_children (cs : list Tree.node) (acc : list Tree.node)
         : result (list Tree.node * list Tree.node) := _).
  destruct t; [discriminate|]. cbn [Tree.descendant_paths app] in Hnone.
  assert (Hchildren : forall b, break_children children b = Ok (children, b)).
  { clear -IH Hnone. induction children as [|c cs IHcs]; intros b; cbn [break_children].
    - reflexivity.
    - cbn [flat_map] in Hnone. apply app_eq_nil in Hnone as [Hc Hcs].
      inversion IH as [|? ? Hhere Hlater]; subst.
      rewrite (Hhere Hc). fold break_children. rewrite (IHcs Hlater Hcs). reflexivity. }
  now rewrite Hchildren.
Qed.

Lemma break_path_element (e : element) (breakelements here acc : list Tree.node) :
  Tree.break_contours (Tree.Node Tree.svg_path e []) breakelements = Ok (here, acc) ->
  exists made,
    here = rev made
    /\ acc = breakelements ++ made
    /\ map node_path made = kept_sub_paths (to_arrays (el_path e))
    /\ map node_id made = map (fun j => (el_id e ++ str_nat j)%string)
                              (seq 0 (List.length made))
    /\ Forall (copy_of (Tree.Node Tree.svg_path e [])) made
    /\ (List.length made = List.length (sub_paths (to_arrays (el_path e))) ->
        List.concat (map node_path made) = to_arrays (el_path e)).
Proof.
  cbn [Tree.break_contours].
  destruct (Tree.replacements _ 0 _) as [made|x] eqn:Hmade; [|discriminate].
  intros [= <- <-]. exists made.
  destruct (replacements_made _ _ _ _ Hmade) as (Hp & Hi & Hc).
  split; [reflexivity|]. split; [reflexivity|]. split; [exact Hp|].
  split; [exact Hi|]. split; [exact Hc|].
  intros Hlen. rewrite Hp.
  rewrite filter_all.
  - unfold sub_paths. apply break_subpaths_concat.
  - rewrite <- Hp, length_map. exact Hlen.
Qed.

End BreakContours.

(** [break_contours] on a path element puts one new element in its place
    for every sub-path of more than one command whose first two nodes
    differ: a copy of the element with that sub-path as its path and the
    old id followed by a running number from 0.  The new elements stand in
    the parent in reverse order and are appended to [breakelements] in
    order; the element itself is gone.  When no sub-path is left out, the
    paths of the new elements strung together are the path of the
    element. *)
Theorem break_contours_replaces_a_path (H : Host) (e : element)
    (breakelements here acc : list Tree.node) :
  Tree.break_contours (Tree.Node Tree.svg_path e []) breakelements = Ok (here, acc) ->
  exists made,
    here = rev made
    /\ acc = breakelements ++ made
    /\ map node_path made = kept_sub_paths (to_arrays (el_path e))
    /\ map node_id made = map (fun j => (el_id e ++ str_nat j)%string)
                              (seq 0 (List.length made))
    /\ Forall (copy_of (Tree.Node Tree.svg_path e [])) made
    /\ (List.length made = List.length (sub_paths (to_arrays (el_path e))) ->
        List.concat (map node_path made) = to_arrays (el_path e)).
Proof. apply break_path_element. Qed.

Lemma break_contours_replaces_a_path_witness :
  exists here acc,
    @Tree.break_contours reference_host compound_node [] = Ok (here, acc)
    /\ map node_id here = ["p1"; "p0"]%string
    /\ map node_id acc = ["p0"; "p1"]%string
    /\ List.concat (map node_path acc) = two_squares.
Proof.
  remember (@Tree.break_contours reference_host compound_node []) as r eqn:Hr.
  pose proof Hr as Hval. vm_compute in Hval.
  destruct r as [[here acc]|x]; [|discriminate].
  exists here, acc. split; [reflexivity|].
  destruct (break_contours_replaces_a_path reference_host _ [] here acc (eq_sym Hr))
    as (made & Hhere & Hacc & Hpaths & Hids & _ & Hround).
  cbn [app] in Hacc. subst acc here.
  assert (Hlen : List.length made = 2%nat).
  { rewrite <- (length_map node_path), Hpaths. reflexivity. }
  rewrite Hlen in Hids. split; [|split].
  - rewrite map_rev, Hids. reflexivity.
  - rewrite Hids. reflexivity.
  - apply Hround. rewrite Hlen. reflexivity.
Defined.

(** Whatever the element, a call of [break_contours] that returns has only
    added to [breakelements], and what it added are path elements with a
    single sub-path of at least two commands each; an element with no path
    at or below it is left as it is and adds nothing. *)
Theorem break_contours_yields_simple_paths (H : Host) (element : Tree.node)
    (breakelements : list Tree.node) :
  (forall here acc,
      Tree.break_contours element breakelements = Ok (here, acc) ->
      exists more, acc = breakelements ++ more /\ Forall simple_path_element more)
  /\ (Tree.descendant_paths element = [] ->
      Tree.break_contours element breakelements = Ok ([element], breakelements)).
Proof.
  split.
  - apply break_contours_extends.
  - intros Hnone. now apply break_contours_no_paths.
Qed.

Lemma break_contours_yields_simple_paths_witness :
  exists here more,
    @Tree.break_contours reference_host svg_node [lone_node] = Ok (here, [lone_node] ++ more)
    /\ List.length more = 3%nat
    /\ Forall simple_path_element more.
Proof.
  remember (@Tree.break_contours reference_host svg_node [lone_node]) as r eqn:Hr.
  pose proof Hr as Hval. vm_compute in Hval.
  destruct r as [[here acc]|x]; [|discriminate].
  destruct (proj1 (break_contours_yields_simple_paths reference_host svg_node [lone_node])
              here acc (eq_sym Hr)) as (more & -> & Hmore).
  exists here, more. split; [reflexivity|]. split; [|exact Hmore].
  injection Hval as _ Hacc. apply (f_equal (@List.length _)) in Hacc.
  cbn [List.length] in Hacc. lia.
Defined.

(** ** Breaking apart in the document *)

Lemma update_nth_app_l {A} (f : A -> A) (l l' : list A) :
  forall k, (k < List.length l)%nat -> update_nth k f (l ++ l') = update_nth k f l ++ l'.
Proof.
  induction l as [|x l IH]; intros k Hk; cbn in Hk; [lia|].
  destruct k as [|k]; cbn [app update_nth]; [reflexivity|].
  rewrite IH by lia. reflexivity.
Qed.

Section BreakApart.
Context `{Host}.

(** The loop over the sub-paths: the copies are appended to the path
    elements, and their references to [breakelements], in order. *)
Lemma break_contours_loop (parent : parent_ref) (original : element)
    (subPaths : list path) :
  (forall subPath, In subPath subPaths -> exists b, Tree.worth_keeping subPath = Ok b) ->
  forall idSuffix breakelements w,
    let kept := filter (fun subPath => match Tree.worth_keeping subPath with
                                       | Ok true => true
                                       | _ => false
                                       end) subPaths in
    for_fold subPaths
      (fun subPath st =>
         keep <- lift_result (Tree.worth_keeping subPath) ;;
         if keep then
           replacedelement <-
             add_path parent
               (mkElement (el_id original ++ str_nat (fst st)) subPath
                          (el_style original) (el_attrib original)) ;;
           ret (S (fst st), snd st ++ [replacedelement])
         else ret st)
      (idSuffix, breakelements) w
    = (Ok ((idSuffix + List.length kept)%nat,
           breakelements ++ seq (List.length (d_paths (w_doc w))) (List.length kept)),
       mkWorld (mkDoc (d_paths (w_doc w)
                       ++ map (mkPathElement parent) (copies original idSuffix kept))
                      (d_groups (w_doc w)) (d_markers (w_doc w)))
               (w_msgs w) (w_next_id w)).
Proof.
  induction subPaths as [|subPath subPaths IH]; intros Hok idSuffix breakelements w kept.
  - cbn. rewrite Nat.add_0_r, !app_nil_r. destruct w as [[ps gs ms] shown n]. reflexivity.
  - cbn [for_fold]. unfold bind at 1. unfold bind at 1, lift_result at 1.
    destruct (Hok subPath (or_introl eq_refl)) as [b Hb].
    assert (Hrest : forall sp, In sp subPaths -> exists b', Tree.worth_keeping sp = Ok b').
    { intros sp Hsp. apply Hok. now right. }
    subst kept. cbn [filter]. rewrite Hb. destruct b.
    + unfold bind at 1, add_path at 1. cbn [ret fst snd w_doc w_msgs w_next_id].
      rewrite (IH Hrest). cbn [w_doc d_paths d_groups d_markers w_msgs w_next_id].
      cbn [List.length]. unfold copies. cbn [List.length seq combine map fst snd].
      rewrite length_app. cbn [List.length].
      rewrite <- !app_assoc. cbn [app].
      replace (List.length (d_paths (w_doc w)) + 1)%nat
        with (S (List.length (d_paths (w_doc w)))) by lia.
      replace (S idSuffix + List.length
                 (filter (fun subPath0 => match Tree.worth_keeping subPath0 with
                                          | Ok true => true
                                          | _ => false
                                          end) subPaths))%nat
        with (idSuffix + S (List.length
                (filter (fun subPath0 => match Tree.worth_keeping subPath0 with
                                         | Ok true => true
                                         | _ => false
                                         end) subPaths)))%nat by lia.
      reflexivity.
    + cbn [ret]. rewrite (IH Hrest). reflexivity.
Qed.

End BreakApart.

(** What one call of [break_contours] does to the document. *)
Lemma break_contours_run (H : Host) (k : nat) (breakelements : list nat)
    (w : world) (pe : pathElement) :
  nth_error (d_paths (w_doc w)) k = Some pe ->
  (forall subPath, In subPath (sub_paths (to_arrays (el_path (pe_elem pe)))) ->
                   exists b, Tree.worth_keeping subPath = Ok b) ->
  match pe_parent pe with
  | Detached => break_contours k breakelements w = (Raise AttributeError, w)
  | parent =>
      break_contours k breakelements w
      = (Ok (breakelements
             ++ seq (List.length (d_paths (w_doc w)))
                    (List.length (kept_sub_paths (to_arrays (el_path (pe_elem pe)))))),
         mkWorld
           (mkDoc (update_nth k detach_path (d_paths (w_doc w))
                   ++ map (mkPathElement parent)
                          (copies (pe_elem pe) 0
                                  (kept_sub_paths (to_arrays (el_path (pe_elem pe))))))
                  (d_groups (w_doc w)) (d_markers (w_doc w)))
           (w_msgs w) (w_next_id w))
  end.
Proof.
  intros Hk Hok.
  assert (Hlt : (k < List.length (d_paths (w_doc w)))%nat).
  { apply nth_error_Some. congruence. }
  assert (Hrun : forall B (k' : pathElement -> M B),
             bind (path_object k) k' w = k' pe w).
  { intros B k'. unfold bind at 1. unfold path_object, bind at 1, get_doc, index.
    now rewrite Hk. }
  unfold break_contours. rewrite Hrun.
  destruct (pe_parent pe) as [|gid|] eqn:Hpar; [| |reflexivity].
  - unfold bind at 1. rewrite (break_contours_loop Root (pe_elem pe) _ Hok).
    unfold bind at 1, delete_path, modify_doc. cbn [ret snd w_doc w_msgs w_next_id].
    unfold update_path. cbn [d_paths d_groups d_markers].
    rewrite update_nth_app_l by exact Hlt. reflexivity.
  - unfold bind at 1. rewrite (break_contours_loop (InGroup gid) (pe_elem pe) _ Hok).
    unfold bind at 1, delete_path, modify_doc. cbn [ret snd w_doc w_msgs w_next_id].
    unfold update_path. cbn [d_paths d_groups d_markers].
    rewrite update_nth_app_l by exact Hlt. reflexivity.
Qed.

(** [break_contours] on a path element of the document deletes the element
    and puts, under the same parent, one copy of it for every sub-path of
    more than one command whose first two nodes differ: the copy has that
    sub-path as its path data and the id of the element followed by a
    running number from 0, and the references to the copies are appended
    to [breakelements] in order.  Groups, markers and the other path
    elements stay as they are.  On an element that was deleted already the
    call raises [AttributeError]. *)
Theorem break_apart_replaces_the_element (H : Host) (k : nat) (breakelements : list nat)
    (w : world) (pe : pathElement) :
  nth_error (d_paths (w_doc w)) k = Some pe ->
  (forall subPath, In subPath (sub_paths (to_arrays (el_path (pe_elem pe)))) ->
                   exists b, Tree.worth_keeping subPath = Ok b) ->
  match pe_parent pe with
  | Detached => break_contours k breakelements w = (Raise AttributeError, w)
  | parent =>
      break_contours k breakelements w
      = (Ok (breakelements
             ++ seq (List.length (d_paths (w_doc w)))
                    (List.length (kept_sub_paths (to_arrays (el_path (pe_elem pe)))))),
         mkWorld
           (mkDoc (update_nth k detach_path (d_paths (w_doc w))
                   ++ map (mkPathElement parent)
                          (copies (pe_elem pe) 0
                                  (kept_sub_paths (to_arrays (el_path (pe_elem pe))))))
                  (d_groups (w_doc w)) (d_markers (w_doc w)))
           (w_msgs w) (w_next_id w))
  end.
Proof. apply break_contours_run. Qed.

Lemma break_apart_replaces_the_element_witness :
  @break_contours reference_host 0 [] compound_world
  = (Ok [1%nat; 2%nat],
     world_of (mkDoc [mkPathElement Detached
                        (mkElement "p" two_squares (OwnStyle "stroke:#000000") []);
                      path_in_root "p0" [M_ 0 0; L_ 1 0; L_ 1 1; L_ 0 0];
                      path_in_root "p1" [M_ 5 5; L_ 6 5; L_ 6 6; L_ 5 5]] [] [])).
Proof.
  refine (break_apart_replaces_the_element reference_host 0 [] compound_world _ eq_refl _).
  intros subPath [<- | [<- | []]]; eexists; reflexivity.
Defined.

Lemma detach_path_detached (pe : pathElement) :
  is_detached (pe_parent pe) = true -> detach_path pe = pe.
Proof. destruct pe as [[|gid|] e]; cbn; intros Hd; try discriminate. reflexivity. Qed.

Section BreakApartAll.
Context `{Host}.

(** When the loop over the sub-paths runs to its end, no sub-path made
    the test of its first two nodes fail. *)
Lemma break_contours_loop_ok (parent : parent_ref) (original : element)
    (subPaths : list path) :
  forall st w st' w',
    for_fold subPaths
      (fun subPath st =>
         keep <- lift_result (Tree.worth_keeping subPath) ;;
         if keep then
           replacedelement <-
             add_path parent
               (mkElement (el_id original ++ str_nat (fst st)) subPath
                          (el_style original) (el_attrib original)) ;;
           ret (S (fst st), snd st ++ [replacedelement])
         else ret st)
      st w = (Ok st', w') ->
    forall subPath, In subPath subPaths -> exists b, Tree.worth_keeping subPath = Ok b.
Proof.
  induction subPaths as [|sp subPaths IH]; intros st w st' w' Hrun subPath Hin;
    [destruct Hin|].
  cbn [for_fold] in Hrun. unfold bind at 1 in Hrun.
  unfold bind at 1, lift_result at 1 in Hrun.
  destruct (Tree.worth_keeping sp) as [b|e] eqn:Hsp; [|discriminate].
  destruct Hin as [<- | Hin]; [now exists b|].
  destruct b.
  - unfold bind at 1, add_path at 1 in Hrun. cbn [ret] in Hrun.
    exact (IH _ _ _ _ Hrun subPath Hin).
  - cbn [ret] in Hrun. exact (IH _ _ _ _ Hrun subPath Hin).
Qed.

(** One call of [break_contours] that returns: the element is deleted, new
    path elements that are in the document come after the old ones, and
    their references after [breakelements]. *)
Lemma break_contours_step (k : nat) (breakelements out : list nat) (w w' : world) :
  break_contours k breakelements w = (Ok out, w') ->
  exists made,
    d_paths (w_doc w') = update_nth k detach_path (d_paths (w_doc w)) ++ made
    /\ Forall (fun pe => is_detached (pe_parent pe) = false) made
    /\ out = breakelements ++ seq (List.length (d_paths (w_doc w))) (List.length made)
    /\ (k < List.length (d_paths (w_doc w)))%nat
    /\ d_groups (w_doc w') = d_groups (w_doc w)
    /\ d_markers (w_doc w') = d_markers (w_doc w).
Proof.
  intros Hrun.
  destruct (nth_error (d_paths (w_doc w)) k) as [pe|] eqn:Hk.
  2:{ unfold break_contours, bind at 1 in Hrun.
      unfold path_object, bind at 1, get_doc, index in Hrun. rewrite Hk in Hrun.
      discriminate. }
  assert (Hlt : (k < List.length (d_paths (w_doc w)))%nat).
  { apply nth_error_Some. congruence. }
  assert (Hok : forall subPath,
             In subPath (sub_paths (to_arrays (el_path (pe_elem pe)))) ->
             exists b, Tree.worth_keeping subPath = Ok b).
  { revert Hrun. unfold break_contours. unfold bind at 1.
    unfold path_object, bind at 1, get_doc, index. rewrite Hk. cbn [ret].
    destruct (pe_parent pe) as [|gid|]; [| |discriminate]; unfold bind at 1;
      match goal with |- context [for_fold ?l ?b ?s w] =>
        destruct (for_fold l b s w) as [[st|e] w1] eqn:Hfold; [|discriminate]
      end; intros _; exact (break_contours_loop_ok _ _ _ _ _ _ _ Hfold). }
  pose proof (break_contours_run _ k breakelements w pe Hk Hok) as Hspec.
  destruct (pe_parent pe) as [|gid|] eqn:Hpar.
  - rewrite Hspec in Hrun. injection Hrun as <- <-.
    eexists. cbn [w_doc d_paths d_groups d_markers].
    split; [reflexivity|]. split.
    { apply Forall_forall. intros q Hq. apply in_map_iff in Hq as (c & <- & _). reflexivity. }
    rewrite length_map. unfold copies. rewrite length_map, length_combine, length_seq, Nat.min_id.
    repeat split; auto.
  - rewrite Hspec in Hrun. injection Hrun as <- <-.
    eexists. cbn [w_doc d_paths d_groups d_markers].
    split; [reflexivity|]. split.
    { apply Forall_forall. intros q Hq. apply in_map_iff in Hq as (c & <- & _). reflexivity. }
    rewrite length_map. unfold copies. rewrite length_map, length_combine, length_seq, Nat.min_id.
    repeat split; auto.
  - rewrite Hspec in Hrun. discriminate.
Qed.

Lemma in_document_step (l made : list pathElement) (k i : nat) (gs : list group)
    (ms : list markerGroup) :
  i <> k ->
  Forall (fun pe => is_detached (pe_parent pe) = false) made ->
  in_document (mkDoc l gs ms) i = true \/ (List.length l <= i < List.length l + List.length made)%nat ->
  in_document (mkDoc (update_nth k detach_path l ++ made) gs ms) i = true.
Proof.
  intros Hik Hmade Hi. unfold in_document in *. cbn [d_paths] in *.
  destruct (Nat.lt_ge_cases i (List.length l)) as [Hlt | Hge].
  - rewrite nth_error_app1 by (now rewrite update_nth_length).
    rewrite nth_error_update_nth_other by congruence.
    destruct Hi as [Hi | Hi]; [exact Hi | lia].
  - rewrite nth_error_app2 by (now rewrite update_nth_length).
    rewrite update_nth_length.
    destruct Hi as [Hi | Hi].
    + rewrite (proj2 (nth_error_None _ _) Hge) in Hi. discriminate.
    + destruct (nth_error made (i - List.length l)) as [pe|] eqn:E.
      * rewrite Forall_forall in Hmade. rewrite (Hmade pe (nth_error_In _ _ E)). reflexivity.
      * apply nth_error_None in E. lia.
Qed.

(** The loop of [get_path_elements] over the path elements [ks], all of
    them among the first [n] path elements. *)
Lemma break_contours_all (n : nat) (ks : list nat) :
  Forall (fun k => (k < n)%nat) ks ->
  forall breakelements out w w',
    for_fold ks break_contours breakelements w = (Ok out, w') ->
    (n <= List.length (d_paths (w_doc w)))%nat ->
    Forall (fun i => (n <= i)%nat /\ in_document (w_doc w) i = true) breakelements ->
    (n <= List.length (d_paths (w_doc w')))%nat
    /\ (forall k pe, (k < n)%nat -> nth_error (d_paths (w_doc w)) k = Some pe ->
                     nth_error (d_paths (w_doc w')) k
                     = Some (if existsb (Nat.eqb k) ks then detach_path pe else pe))
    /\ Forall (fun i => (n <= i)%nat /\ in_document (w_doc w') i = true) out
    /\ d_groups (w_doc w') = d_groups (w_doc w)
    /\ d_markers (w_doc w') = d_markers (w_doc w).
Proof.
  induction ks as [|k ks IH]; intros Hks breakelements out w w' Hrun Hn Hacc.
  - cbn in Hrun. injection Hrun as <- <-. repeat split; auto.
  - inversion Hks as [|? ? Hk Hks']; subst.
    cbn [for_fold] in Hrun. unfold bind at 1 in Hrun.
    destruct (break_contours k breakelements w) as [[out1|e] w1] eqn:Hstep; [|discriminate].
    destruct (break_contours_step k breakelements out1 w w1 Hstep)
      as (made & Hpaths & Hmade & Hout1 & Hlt & Hgroups & Hmarkers).
    assert (Hn1 : (n <= List.length (d_paths (w_doc w1)))%nat).
    { rewrite Hpaths, length_app, update_nth_length. lia. }
    assert (Hdoc1 : w_doc w1
                    = mkDoc (update_nth k detach_path (d_paths (w_doc w)) ++ made)
                            (d_groups (w_doc w)) (d_markers (w_doc w))).
    { destruct (w_doc w1) as [ps gs ms]. cbn in *. now subst. }
    assert (Hacc1 : Forall (fun i => (n <= i)%nat /\ in_document (w_doc w1) i = true) out1).
    { subst out1. apply Forall_app. split.
      - eapply Forall_impl; [|exact Hacc]. cbn. intros i [Hi Hin]. split; [exact Hi|].
        rewrite Hdoc1. apply in_document_step; [lia | exact Hmade |].
        left. destruct (w_doc w); exact Hin.
      - apply Forall_forall. intros i Hi. apply in_seq in Hi. split; [lia|].
        rewrite Hdoc1. apply in_document_step; [lia | exact Hmade | right; lia]. }
    destruct (IH Hks' out1 out w1 w' Hrun Hn1 Hacc1)
      as (Hn' & Hold & Hout & Hgroups' & Hmarkers').
    split; [exact Hn'|]. split; [|split; [exact Hout|split; congruence]].
    intros k0 pe Hk0 Hpe.
    assert (Hpe1 : nth_error (d_paths (w_doc w1)) k0
                   = Some (if Nat.eqb k0 k then detach_path pe else pe)).
    { rewrite Hpaths, nth_error_app1 by (rewrite update_nth_length; lia).
      destruct (Nat.eqb k0 k) eqn:E.
      - apply Nat.eqb_eq in E. subst k0. now rewrite nth_error_update_nth_same, Hpe.
      - apply Nat.eqb_neq in E. rewrite nth_error_update_nth_other by congruence.
        exact Hpe. }
    rewrite (Hold k0 _ Hk0 Hpe1). cbn [existsb].
    destruct (Nat.eqb k0 k), (existsb (Nat.eqb k0) ks); reflexivity.
Qed.

Lemma existsb_filter_seq (f : nat -> bool) (n k : nat) :
  (k < n)%nat -> existsb (Nat.eqb k) (filter f (seq 0 n)) = f k.
Proof.
  intros Hk. destruct (f k) eqn:E.
  - apply existsb_exists. exists k. split; [|apply Nat.eqb_refl].
    apply filter_In. split; [apply in_seq; lia | exact E].
  - destruct (existsb (Nat.eqb k) (filter f (seq 0 n))) eqn:Ex; [|reflexivity].
    apply existsb_exists in Ex as (i & Hi & Hik). apply Nat.eqb_eq in Hik. subst i.
    apply filter_In in Hi as [_ Hf]. congruence.
Qed.

End BreakApartAll.

(** With [break_apart] on, [get_path_elements] leaves none of the path
    elements of the document in it: when it returns, every one of them is
    deleted, whatever the scan and the sweep find afterwards, and the
    elements it hands to the scan are new ones, which are in the
    document.  Groups and markers are as before. *)
Theorem break_apart_deletes_the_originals (H : Host) (so : options) (w w' : world)
    (pathElements : list nat) :
  break_apart so = true ->
  get_path_elements so w = (Ok pathElements, w') ->
  (forall k pe, nth_error (d_paths (w_doc w)) k = Some pe ->
                nth_error (d_paths (w_doc w')) k = Some (detach_path pe))
  /\ Forall (fun i => (List.length (d_paths (w_doc w)) <= i)%nat
                      /\ in_document (w_doc w') i = true) pathElements
  /\ d_groups (w_doc w') = d_groups (w_doc w)
  /\ d_markers (w_doc w') = d_markers (w_doc w).
Proof.
  intros Hbreak. unfold get_path_elements. rewrite Hbreak.
  unfold bind at 1, get_doc at 1.
  destruct (List.length (filter (in_document (w_doc w))
                                (seq 0 (List.length (d_paths (w_doc w))))) =? 0)%nat.
  { unfold bind, msg, raise. discriminate. }
  unfold bind at 1.
  destruct (for_fold _ break_contours [] w) as [[out|e] w1] eqn:Hfold; [|discriminate].
  unfold bind at 1.
  assert (Hdbg : exists ms, debug so (Msg "total processing paths count: {}"
                                          [FInt (Z.of_nat (List.length out))]) w1
                            = (Ok tt, mkWorld (w_doc w1) (w_msgs w1 ++ ms) (w_next_id w1))).
  { unfold debug, msg, ret. destruct (show_debug so).
    - eexists; reflexivity.
    - exists []. now rewrite world_eta. }
  destruct Hdbg as [ms ->]. cbn [ret]. intros [= <- <-]. cbn [w_doc].
  destruct (break_contours_all (List.length (d_paths (w_doc w)))
              (filter (in_document (w_doc w)) (seq 0 (List.length (d_paths (w_doc w)))))
              ltac:(apply Forall_forall; intros k Hk; apply filter_In in Hk as [Hk _];
                    apply in_seq in Hk; lia)
              [] out w w1 Hfold (Nat.le_refl _) (Forall_nil _))
    as (_ & Hold & Hout & Hgroups & Hmarkers).
  split; [|split; [exact Hout | split; assumption]].
  intros k pe Hpe.
  assert (Hk : (k < List.length (d_paths (w_doc w)))%nat).
  { apply nth_error_Some. congruence. }
  rewrite (Hold k pe Hk Hpe), (existsb_filter_seq _ _ _ Hk).
  unfold in_document. rewrite Hpe.
  destruct (is_detached (pe_parent pe)) eqn:Hd; cbn [negb]; [|reflexivity].
  now rewrite (detach_path_detached pe Hd).
Qed.

Lemma break_apart_deletes_the_originals_witness :
  exists w',
    @get_path_elements reference_host break_apart_options compound_world
    = (Ok [1%nat; 2%nat], w')
    /\ nth_error (d_paths (w_doc w')) 0
       = Some (mkPathElement Detached
                 (mkElement "p" two_squares (OwnStyle "stroke:#000000") []))
    /\ Forall (fun i => (1 <= i)%nat /\ in_document (w_doc w') i = true) [1%nat; 2%nat].
Proof.
  remember (@get_path_elements reference_host break_apart_options compound_world)
    as r eqn:Hr.
  pose proof Hr as Hval. vm_compute in Hval.
  destruct r as [[elems|e] w']; [|discriminate].
  injection Hval as Helems _.
  exists w'. rewrite Helems in Hr |- *. split; [reflexivity|].
  destruct (break_apart_deletes_the_originals reference_host break_apart_options
              compound_world w' [1%nat; 2%nat] eq_refl (eq_sym Hr))
    as (Hold & Hnew & _).
  split; [exact (Hold 0%nat _ eq_refl) | exact Hnew].
Defined.
